(** * MRtrix3 fixel correspondence: a shallow embedding and its properties

    The development embeds the parts of the repository that the
    specification talks about:

    - [Math.binomial]                       (core/math/binomial.h)
    - [Correspondence.Mapping]              (src/fixel/correspondence/mapping.h)
    - [Correspondence.DP2Cost]              (src/fixel/correspondence/dp2cost.h)
    - [Correspondence.Projector]            (src/fixel/correspondence/projector.{h,cpp})
    - [mrthreshold.run], [mrthreshold.get_data], [mrthreshold.calculate],
      [mrthreshold.apply], [mrthreshold.execute_image]
                                            (cmd/mrthreshold.cpp)
    - [fixel2fixel.Source]                  (cmd/fixel2fixel.cpp)
    - [MR.shorten], [MR.strip], [MR.lowercase], [MR.to_bool], ...
                                            (core/mrtrix.h)
    - [GT.SpatialLock]                      (modules/gt/src/spatiallock.h)

    C++ [float] and [double] are IEEE-754 binary32 and binary64; they are
    modelled with the parametric operations of [SpecFloat], which compute.
    Fixed-width unsigned integers are integers of [Z] with their wrap-around
    written out.  Failed assertions, thrown exceptions and reads past the end
    of a buffer are results of the [outcome] type. *)

From Stdlib Require Import ZArith Lia String Ascii DecimalString Sorted.
From Stdlib Require Import Floats.SpecFloat.
From stdpp Require Import base list.

Open Scope Z_scope.

(** ** Results of fallible code *)

Inductive outcome (A : Type) : Type :=
| Ok (a : A)
| Throw (msg : string)   (* MR::Exception *)
| AssertFail             (* assert(...) does not hold *)
| OutOfBounds.           (* access outside a buffer, or an undefined conversion *)

Arguments Ok {A} a.
Arguments Throw {A} msg.
Arguments AssertFail {A}.
Arguments OutOfBounds {A}.

#[global] Instance outcome_ret : MRet outcome := @Ok.

#[global] Instance outcome_bind : MBind outcome := fun A B f x =>
  match x with
  | Ok a => f a
  | Throw msg => Throw msg
  | AssertFail => AssertFail
  | OutOfBounds => OutOfBounds
  end.

Definition assert_that (b : bool) : outcome unit :=
  if b then Ok tt else AssertFail.

Definition read {A} (buffer : list A) (i : nat) : outcome A :=
  match buffer !! i with
  | Some x => Ok x
  | None => OutOfBounds
  end.

(** ** Fixed-width unsigned integers *)

Definition uint8_t (z : Z) : Z := z mod 2 ^ 8.
Definition uint32_t (z : Z) : Z := z mod 2 ^ 32.
Definition uint64_t (z : Z) : Z := z mod 2 ^ 64.

(** [ssize_t (value)] of a [size_t] *)
Definition ssize_t (z : Z) : Z :=
  let u := uint64_t z in if u <? 2 ^ 63 then u else u - 2 ^ 64.

(** ** IEEE-754 numbers *)

Definition isfinite (x : spec_float) : bool :=
  match x with
  | S754_zero _ | S754_finite _ _ _ => true
  | S754_infinity _ | S754_nan => false
  end.

(** The integer [std::floor] yields, when the argument is a number. *)
Definition floor_Z (x : spec_float) : option Z :=
  match x with
  | S754_zero _ => Some 0
  | S754_finite s m e => Some (Z.shiftl (if s then Z.neg m else Z.pos m) e)
  | S754_infinity _ | S754_nan => None
  end.

(** Conversion of a floating-point value to [size_t]: defined only when the
    truncated value is representable. *)
Definition to_size_t (x : spec_float) : option Z :=
  match floor_Z x with
  | Some z => if (0 <=? z) && (z <? 2 ^ 64) then Some z else None
  | None => None
  end.

(** C++ [double] *)
Module F64.
Definition prec : Z := 53.
Definition emax : Z := 1024.
Definition div : spec_float -> spec_float -> spec_float := SFdiv prec emax.
Definition of_Z (n : Z) : spec_float := binary_normalize prec emax n 0 false.
Definition zero : spec_float := S754_zero false.
Definition one : spec_float := S754_finite false 4503599627370496 (-52).
(** The literal [0.01] *)
Definition one_hundredth : spec_float := S754_finite false 5764607523034235 (-59).
Definition add : spec_float -> spec_float -> spec_float := SFadd prec emax.
Definition sub : spec_float -> spec_float -> spec_float := SFsub prec emax.
Definition mul : spec_float -> spec_float -> spec_float := SFmul prec emax.
Definition eqb : spec_float -> spec_float -> bool := SFeqb.
(** The conversion of a [float], which is exact. *)
Definition of_float (x : spec_float) : spec_float :=
  match x with
  | S754_finite s m e => binary_round prec emax s m e
  | _ => x
  end.
End F64.

(** C++ [float] *)
Module F32.
Definition prec : Z := 24.
Definition emax : Z := 128.
Definition valid : spec_float -> bool := valid_binary prec emax.
Definition zero : spec_float := S754_zero false.
Definition one : spec_float := S754_finite false 8388608 (-23).
Definition NaN : spec_float := S754_nan.
Definition add : spec_float -> spec_float -> spec_float := SFadd prec emax.
Definition sub : spec_float -> spec_float -> spec_float := SFsub prec emax.
Definition mul : spec_float -> spec_float -> spec_float := SFmul prec emax.
Definition div : spec_float -> spec_float -> spec_float := SFdiv prec emax.
Definition opp : spec_float -> spec_float := SFopp.
Definition ltb : spec_float -> spec_float -> bool := SFltb.
Definition leb : spec_float -> spec_float -> bool := SFleb.
Definition of_Z (n : Z) : spec_float := binary_normalize prec emax n 0 false.
Definition of_double (x : spec_float) : spec_float :=
  match x with
  | S754_finite s m e => binary_round prec emax s m e
  | _ => x
  end.
End F32.

(** [>=] and [>] *)
Definition SFgeb (x y : spec_float) : bool :=
  match SFcompare x y with
  | Some (Gt | Eq) => true
  | _ => false
  end.

Definition SFgtb (x y : spec_float) : bool :=
  match SFcompare x y with
  | Some Gt => true
  | _ => false
  end.

(** ** core/math/binomial.h *)

Module Math.

(** One pass of the loop body [result *= (n-i+1) / i]: the quotient is taken
    first, in the integer type, and then multiplied into [result]. *)
Definition binomial_body (n result i : Z) : Z :=
  uint64_t (result * (uint64_t (uint64_t (n - i) + 1) / i)).

(** [for (K i = 2; i <= k; ++i)], with the number of loop tests bounded by
    [fuel]; [None] when the bound is reached. *)
Fixpoint binomial_loop (fuel : nat) (n k i result : Z) : option Z :=
  match fuel with
  | O => None
  | S fuel' =>
      if i <=? k
      then binomial_loop fuel' n k (uint64_t (i + 1)) (binomial_body n result i)
      else Some result
  end.

(** [binomial<uint64_t, uint64_t>]: [k] loop tests are enough for every
    [k] but the largest value of the type, for which the loop never ends. *)
Definition binomial (n k : Z) : option Z :=
  if n <? k then Some 0 else
  let k := if n <? uint64_t (k * 2) then uint64_t (n - k) else k in
  if k =? 0 then Some 1 else
  binomial_loop (Z.to_nat k) n k 2 n.

(** The binomial coefficient, by Pascal's rule. *)
Fixpoint choose (n k : nat) : nat :=
  match n, k with
  | _, O => 1
  | O, S _ => 0
  | S n', S k' => choose n' k' + choose n' k
  end%nat.

End Math.

(** ** core/mrtrix.h *)

Module MR.

(** [std::string], a sequence of [char]. *)
Definition std_string : Type := list ascii.

Definition string_size (s : std_string) : Z := Z.of_nat (length s).

(** A string literal. *)
Definition literal (text : string) : std_string := list_ascii_of_string text.

(** [std::string::npos] *)
Definition npos : Z := 2 ^ 64 - 1.

(** [std::string::substr (pos, n)], which throws [std::out_of_range] when
    [pos] is past the end. *)
Definition substr (s : std_string) (pos n : Z) : outcome std_string :=
  if string_size s <? pos
  then Throw "basic_string::substr"
  else Ok (take (Z.to_nat (Z.min n (string_size s - pos))) (drop (Z.to_nat pos) s)).

(** Whether [c] is one of the characters of [set]. *)
Definition member (c : ascii) (set : std_string) : bool :=
  existsb (Ascii.eqb c) set.

(** [std::string::find_first_not_of (set)], searching from position [i], of
    which [s] is the rest of the string. *)
Fixpoint find_first_not_of_from (set s : std_string) (i : Z) : Z :=
  match s with
  | [] => npos
  | c :: rest => if member c set then find_first_not_of_from set rest (i + 1) else i
  end.

Definition find_first_not_of (s set : std_string) : Z :=
  find_first_not_of_from set s 0.

(** [std::string::find_last_not_of (set)]: the last position whose
    character is not in [set]; [found] is the last one met before
    position [i]. *)
Fixpoint find_last_not_of_from (set s : std_string) (i found : Z) : Z :=
  match s with
  | [] => found
  | c :: rest =>
      find_last_not_of_from set rest (i + 1) (if member c set then found else i)
  end.

Definition find_last_not_of (s set : std_string) : Z :=
  find_last_not_of_from set s 0 npos.

(** [str (value)] for an integer: its decimal digits. *)
Definition str (value : Z) : string := NilZero.string_of_int (Z.to_int value).

(** [shorten (text, longest, prefix)] *)
Definition shorten (text : std_string) (longest prefix : Z) : outcome std_string :=
  if longest <? string_size text
  then
    head ← substr text 0 prefix;
    tail ← substr text
             (uint64_t (uint64_t (uint64_t (string_size text - longest) + prefix) + 3)) npos;
    mret (head ++ literal "..." ++ tail)
  else Ok text.

(** [tolower] and [toupper] of the C library, in the "C" locale. *)
Definition tolower (c : ascii) : ascii :=
  let n := N_of_ascii c in
  if ((65 <=? n) && (n <=? 90))%N then ascii_of_N (n + 32) else c.

Definition toupper (c : ascii) : ascii :=
  let n := N_of_ascii c in
  if ((97 <=? n) && (n <=? 122))%N then ascii_of_N (n - 32) else c.

(** [lowercase (string)] *)
Definition lowercase (s : std_string) : std_string := map tolower s.

(** [uppercase (string)] *)
Definition uppercase (s : std_string) : std_string := map toupper s.

(** The default of the second argument of [strip]: a space, a null
    character, a tabulation and a line feed. *)
Definition whitespace : std_string :=
  [ascii_of_N 32; ascii_of_N 0; ascii_of_N 9; ascii_of_N 10].

(** [strip (string, ws, left, right)] *)
Definition strip (s ws : std_string) (left right : bool) : outcome std_string :=
  let start := if left then find_first_not_of s ws else 0 in
  if start =? npos then Ok []
  else
    let end_ := if right then uint64_t (find_last_not_of s ws + 1) else npos in
    substr s start (uint64_t (end_ - start)).

(** [replace (string, orig, final)], the string it leaves. *)
Definition replace (s : std_string) (orig final : ascii) : std_string :=
  map (fun c => if Ascii.eqb c orig then final else c) s.

(** [==] on strings *)
Fixpoint string_eqb (a b : std_string) : bool :=
  match a, b with
  | [], [] => true
  | x :: a', y :: b' => Ascii.eqb x y && string_eqb a' b'
  | _, _ => false
  end.

Section Conversions.

(** [to<int>], the instance of the primary template [to<T>], whose value is
    that of the stream extraction of the C++ library. *)
Variable to_int : std_string -> outcome Z.

(** [to<bool> (string)] *)
Definition to_bool (s : std_string) : outcome bool :=
  let value := lowercase s in
  if string_eqb value (literal "true") || string_eqb value (literal "yes") then Ok true
  else if string_eqb value (literal "false") || string_eqb value (literal "no") then Ok false
  else n ← to_int value; mret (negb (n =? 0)).

End Conversions.

End MR.

(** ** src/fixel/correspondence *)

Module Correspondence.

(** *** mapping.h *)

Record Mapping : Type := {
  source_fixels : Z;             (* uint32_t *)
  target_fixels : Z;             (* uint32_t *)
  M : list (list Z)              (* vector< vector<uint32_t> > *)
}.

(** [Mapping (source_fixels, target_fixels)] *)
Definition Mapping_new (source_fixels target_fixels : Z) : Mapping :=
  {| source_fixels := source_fixels;
     target_fixels := target_fixels;
     M := replicate (Z.to_nat target_fixels) [] |}.

Definition size (m : Mapping) : nat := length (M m).

(** [class Value]: the reference to [M] is the mapping that is threaded
    through; the object itself keeps the index. *)
Record Value : Type := { index : nat }.

(** [Value (M, index)] *)
Definition Value_new (m : Mapping) (index : nat) : outcome Value :=
  _ ← assert_that (index <? size m)%nat;
  mret {| index := index |}.

(** [Value::operator()] *)
Definition Value_get (m : Mapping) (v : Value) : outcome (list Z) :=
  read (M m) (index v).

(** [Value::operator=] *)
Definition Value_assign (m : Mapping) (v : Value) (data : list Z) : Mapping :=
  {| source_fixels := source_fixels m;
     target_fixels := target_fixels m;
     M := <[index v := data]> (M m) |}.

(** [Value::size] *)
Definition Value_size (m : Mapping) (v : Value) : outcome nat :=
  row ← read (M m) (index v);
  mret (length row).

(** [Value::operator[]] *)
Definition Value_at (m : Mapping) (v : Value) (i : nat) : outcome Z :=
  row ← read (M m) (index v);
  _ ← assert_that (i <? length row)%nat;
  read row i.

(** [Mapping::operator[] (index)] *)
Definition at_ (m : Mapping) (index : nat) : outcome Value := Value_new m index.

(** [mapping[index] = data] *)
Definition assign (m : Mapping) (index : nat) (data : list Z) : outcome Mapping :=
  v ← at_ m index;
  mret (Value_assign m v data).

(** [class ConstValue], the view that a [const Mapping] gives. *)
Record ConstValue : Type := { const_index : nat }.

(** [ConstValue (M, index)] *)
Definition ConstValue_new (m : Mapping) (index : nat) : outcome ConstValue :=
  _ ← assert_that (index <? size m)%nat;
  mret {| const_index := index |}.

(** [ConstValue::operator()] *)
Definition ConstValue_get (m : Mapping) (v : ConstValue) : outcome (list Z) :=
  read (M m) (const_index v).

(** [ConstValue::size] *)
Definition ConstValue_size (m : Mapping) (v : ConstValue) : outcome nat :=
  row ← read (M m) (const_index v);
  mret (length row).

(** [ConstValue::operator[]] *)
Definition ConstValue_at (m : Mapping) (v : ConstValue) (i : nat) : outcome Z :=
  row ← read (M m) (const_index v);
  _ ← assert_that (i <? length row)%nat;
  read row i.

(** [Mapping::operator[] (index) const] *)
Definition at_const (m : Mapping) (index : nat) : outcome ConstValue :=
  ConstValue_new m index.

(** [correspondence[index]()] on a [const Mapping] *)
Definition get (m : Mapping) (index : nat) : outcome (list Z) :=
  v ← at_const m index;
  ConstValue_get m v.

(** Modelled from the spec: the persisted form of a mapping.
    [Mapping::inverse], [Mapping::save] and [Mapping::load] are declared in
    mapping.h but their bodies (mapping.cpp) are not among the sources.
    The persisted form follows the specification: an index that gives, for
    each entry of the structure, how many items of a flat list belong to it
    and where they start, and the flat list itself, of 32-bit unsigned
    indices.  The two fixel counts travel with the structure so that
    [load] can restore them. *)
Record Directory : Type := {
  dir_source_fixels : Z;
  dir_target_fixels : Z;
  dir_index : list (nat * nat);          (* count, offset *)
  dir_fixels : list Z                     (* flat list of uint32_t *)
}.

(** Modelled from the spec: the index written by [Mapping::save], one
    count and one offset into the flat list for each entry. *)
Fixpoint index_of_rows (offset : nat) (rows : list (list Z)) : list (nat * nat) :=
  match rows with
  | [] => []
  | row :: rows' =>
      (length row, offset) :: index_of_rows (offset + length row) rows'
  end.

(** Modelled from the spec: the entries read back by [Mapping::load], each
    the slice of the flat list that its count and offset delimit. *)
Definition rows_of_index (idx : list (nat * nat)) (flat : list Z) : list (list Z) :=
  map (fun entry => take (fst entry) (drop (snd entry) flat)) idx.

(** Modelled from the spec: the transpose behind [Mapping::inverse] and
    behind [Mapping::load] with [import_inverse].  Scanning every entry
    once, entry [t] is appended to the list of each index it holds. *)
Definition transpose_row (acc : list (list Z)) (t : nat) (row : list Z) : list (list Z) :=
  foldl (fun acc s => alter (fun targets => targets ++ [Z.of_nat t]) (Z.to_nat s) acc) acc row.

(** Modelled from the spec: the scan over all entries, from entry [t] on. *)
Fixpoint transpose_from (t : nat) (acc : list (list Z)) (rows : list (list Z)) : list (list Z) :=
  match rows with
  | [] => acc
  | row :: rows' => transpose_from (S t) (transpose_row acc t row) rows'
  end.

(** Modelled from the spec: the transpose, with [width] entries. *)
Definition transpose (width : nat) (rows : list (list Z)) : list (list Z) :=
  transpose_from 0 (replicate width []) rows.

(** Modelled from the spec: [Mapping::inverse], from each source index to
    the targets it contributes to. *)
Definition inverse (m : Mapping) : list (list Z) :=
  transpose (Z.to_nat (source_fixels m)) (M m).

(** Modelled from the spec: the private [Mapping::save (directory,
    export_inverse)], which persists the mapping and, on request, its
    inverse alongside. *)
Definition save_ (m : Mapping) (export_inverse : bool) : Directory * option Directory :=
  ({| dir_source_fixels := source_fixels m;
      dir_target_fixels := target_fixels m;
      dir_index := index_of_rows 0 (M m);
      dir_fixels := map uint32_t (concat (M m)) |},
   if export_inverse
   then Some {| dir_source_fixels := target_fixels m;
                dir_target_fixels := source_fixels m;
                dir_index := index_of_rows 0 (inverse m);
                dir_fixels := map uint32_t (concat (inverse m)) |}
   else None).

(** Modelled from the spec: [Mapping::save (directory)]. *)
Definition save (m : Mapping) : Directory := fst (save_ m false).

(** Modelled from the spec: [Mapping::load (directory, import_inverse)];
    with [import_inverse] the persisted structure is read as a mapping from
    sources to targets and transposed. *)
Definition load (d : Directory) (import_inverse : bool) : Mapping :=
  let rows := rows_of_index (dir_index d) (dir_fixels d) in
  if import_inverse
  then {| source_fixels := dir_target_fixels d;
          target_fixels := dir_source_fixels d;
          M := transpose (Z.to_nat (dir_source_fixels d)) rows |}
  else {| source_fixels := dir_source_fixels d;
          target_fixels := dir_target_fixels d;
          M := rows |}.

(** *** dp2cost.h *)

Definition FIXELCORRESPONDENCE_ORIENTATION_PENALTY_LOOKUP_RESOLUTION : Z := 1000.

Record DP2Cost : Type := {
  data : list spec_float;        (* Eigen::Array<float, Eigen::Dynamic, 1> *)
  multiplier : spec_float        (* const float *)
}.

Section DP2Cost_constructor.

(** [std::tan] and [std::acos] on [double] come from the C library. *)
Variables tan acos : spec_float -> spec_float.

(** The value the constructor's loop stores in [data[bin]]. *)
Definition DP2Cost_bin (resolution bin : Z) : spec_float :=
  let dp := F64.div (F64.of_Z bin) (F64.of_Z resolution) in
  F32.of_double (tan (acos dp)).

(** [DP2Cost (resolution)]: every one of the [resolution+2] entries is
    written, bins [0..resolution] by the loop and the last one by the
    padding assignment.  The sizes are those of the code as long as
    [resolution + 2] is below [2 ^ 63]: the sum is then the one that the
    constructor takes in [size_t], and a size that the signed index of
    Eigen holds. *)
Definition DP2Cost_new (resolution : Z) : DP2Cost :=
  {| data := map (DP2Cost_bin resolution) (seqZ 0 (resolution + 1)) ++ [F32.zero];
     multiplier := F32.of_Z resolution |}.

End DP2Cost_constructor.

(** [DP2Cost::operator()]: the index of the lower table entry. *)
Definition DP2Cost_lower (c : DP2Cost) (dp : spec_float) : option Z :=
  to_size_t (F32.mul dp (multiplier c)).

(** [DP2Cost::operator()] *)
Definition DP2Cost_call (c : DP2Cost) (dp : spec_float) : outcome spec_float :=
  _ ← assert_that (F32.leb F32.zero dp && F32.leb dp F32.one);
  let position := F32.mul dp (multiplier c) in
  match to_size_t position with
  | None => OutOfBounds
  | Some lower =>
      let mu := F32.sub position (F32.of_Z lower) in
      a ← read (data c) (Z.to_nat lower);
      b ← read (data c) (Z.to_nat (uint64_t (lower + 1)));
      mret (F32.add (F32.mul (F32.sub F32.one mu) a) (F32.mul mu b))
  end.

(** *** projector.h, projector.cpp *)

Inductive projection_metric_t : Type := SUM | MEAN | COUNT | ANGLE.

Record FillSettings : Type := {
  value : spec_float;
  nan_many2one : bool;
  nan_one2many : bool
}.

Definition Vector3f : Type := spec_float * spec_float * spec_float.

Definition Vector3f_zero : Vector3f := (F32.zero, F32.zero, F32.zero).

Definition Vector3f_scale (v : Vector3f) (a : spec_float) : Vector3f :=
  let '(x, y, z) := v in (F32.mul x a, F32.mul y a, F32.mul z a).

Definition Vector3f_add (u v : Vector3f) : Vector3f :=
  let '(x, y, z) := u in
  let '(x', y', z') := v in (F32.add x x', F32.add y y', F32.add z z').

(** What the ANGLE metric takes from Eigen and from the C library. *)
Record Kernel : Type := {
  dot : Vector3f -> Vector3f -> spec_float;
  normalize : Vector3f -> Vector3f;
  acosf : spec_float -> spec_float
}.

Record Projector : Type := {
  correspondence : Mapping;
  metric : projection_metric_t;
  fill : FillSettings;
  input_data : list spec_float;
  implicit_weights : list spec_float;
  explicit_weights : option (list spec_float);       (* [None]: not valid() *)
  input_directions : list Vector3f;
  target_directions : list Vector3f;
  output_data : list spec_float
}.

(** What the constructor finds at [input_path]: whether it is a directory,
    whether its header is that of a fixel data file, and the fixels of the
    fixel directory it lies in, each with its value in the data file and
    its direction in the directions file. *)
Record InputPath : Type := {
  is_dir : bool;
  is_data_file : bool;
  fixels : list (spec_float * Vector3f)
}.

(** [input_header.get_image<float>()] *)
Definition fixel_data (input_path : InputPath) : list spec_float :=
  map fst (fixels input_path).

(** [find_directions_header (fixel_directory).get_image<float>()] *)
Definition fixel_directions (input_path : InputPath) : list Vector3f :=
  map snd (fixels input_path).

Fixpoint foldM {A B : Type} (f : A -> B -> outcome A) (a : A) (l : list B) : outcome A :=
  match l with
  | [] => Ok a
  | b :: l' => a' ← f a b; foldM f a' l'
  end.

(** [++objectives_per_source_fixel[i]] on a [vector<uint8_t>] *)
Definition count_objective (objectives : list Z) (i : Z) : outcome (list Z) :=
  _ ← assert_that (Z.to_nat i <? length objectives)%nat;
  c ← read objectives (Z.to_nat i);
  mret (<[Z.to_nat i := uint8_t (c + 1)]> objectives).

Definition objectives_per_source_fixel (count : nat) (rows : list (list Z)) : outcome (list Z) :=
  foldM (foldM count_objective) (replicate count 0) rows.

Definition implicit_weight (objectives : Z) : spec_float :=
  if objectives =? 0 then F32.zero else F32.div F32.one (F32.of_Z objectives).

(** [Projector::Projector], from what the opened headers hold: an
    [InputPath] and the output directory are what [Header::open] and
    [find_directions_header] have returned, and an exception that these
    throw before is not recorded. *)
Definition Projector_new (input_path : InputPath) (correspondence : Mapping)
    (metric : projection_metric_t) (fill_settings : FillSettings)
    (explicit_weights : option (list spec_float))
    (output_directory : list Vector3f) : outcome Projector :=
  if is_dir input_path
  then Throw "Please input the fixel data file to be mapped; not a fixel directory"
  else if negb (is_data_file input_path)
  then Throw "Input image is not a fixel data file"
  else if match explicit_weights with
          | Some w => negb (length w =? length (fixel_data input_path))%nat
          | None => false
          end
  then Throw "Number of fixels in input file does not match number of fixels in fixel weights file"
  else if negb (length output_directory =? size correspondence)%nat
  then Throw "Number of fixels in output directory does not match number of lines in fixel correspondence file"
  else
    objectives ← objectives_per_source_fixel (length (fixel_data input_path)) (M correspondence);
    mret {| correspondence := correspondence;
            metric := metric;
            fill := fill_settings;
            input_data := fixel_data input_path;
            implicit_weights := map implicit_weight objectives;
            explicit_weights := explicit_weights;
            input_directions := fixel_directions input_path;
            target_directions := output_directory;
            output_data := replicate (length output_directory) F32.zero |}.

(** [output_data.index(0) = out_index; output_data.value() = v] *)
Definition set_output (p : Projector) (out_index : nat) (v : spec_float) : outcome Projector :=
  if (out_index <? length (output_data p))%nat
  then Ok {| correspondence := correspondence p;
             metric := metric p;
             fill := fill p;
             input_data := input_data p;
             implicit_weights := implicit_weights p;
             explicit_weights := explicit_weights p;
             input_directions := input_directions p;
             target_directions := target_directions p;
             output_data := <[out_index := v]> (output_data p) |}
  else OutOfBounds.

(** The three vectors filled by the loop over [in_indices()]. *)
Record Gathered : Type := {
  directions : list Vector3f;
  values : list spec_float;
  weights : list spec_float
}.

(** The loop over [in_indices()]; [None] is its early exit, taken when a
    source fixel with implicit weight below one is met under
    [nan_one2many]. *)
Fixpoint gather (p : Projector) (in_indices : list Z) (acc : Gathered)
    : outcome (option Gathered) :=
  match in_indices with
  | [] => Ok (Some acc)
  | i :: rest =>
      w ← read (implicit_weights p) (Z.to_nat i);
      if nan_one2many (fill p) && F32.ltb w F32.one
      then Ok None
      else
        d ← read (input_directions p) (Z.to_nat i);
        v ← read (input_data p) (Z.to_nat i);
        weight ← match explicit_weights p with
                 | Some e => ew ← read e (Z.to_nat i); mret (F32.mul w ew)
                 | None => Ok w
                 end;
        gather p rest {| directions := directions acc ++ [d];
                         values := values acc ++ [v];
                         weights := weights acc ++ [weight] |}
  end.

(** [case projection_metric_t::SUM] *)
Definition metric_sum (g : Gathered) : spec_float :=
  foldl (fun result vw => F32.add result (F32.mul (fst vw) (snd vw)))
        F32.zero (zip (values g) (weights g)).

(** [case projection_metric_t::MEAN] *)
Definition metric_mean (g : Gathered) : spec_float :=
  let '(result, sum_weights) :=
    foldl (fun acc vw =>
             (F32.add (fst acc) (F32.mul (fst vw) (snd vw)),
              F32.add (snd acc) (snd vw)))
          (F32.zero, F32.zero) (zip (values g) (weights g)) in
  F32.div result sum_weights.

(** [case projection_metric_t::COUNT] *)
Definition metric_count (in_indices : list Z) : spec_float :=
  F32.of_Z (Z.of_nat (length in_indices)).

(** [case projection_metric_t::ANGLE] *)
Definition metric_angle (k : Kernel) (out_dir : Vector3f) (g : Gathered) : spec_float :=
  let mean_dir :=
    foldl (fun mean_dir dw =>
             let sign := if F32.ltb (dot k out_dir (fst dw)) F32.zero
                         then F32.opp F32.one else F32.one in
             Vector3f_add mean_dir
               (Vector3f_scale (Vector3f_scale (fst dw) (snd dw)) sign))
          Vector3f_zero (zip (directions g) (weights g)) in
  acosf k (dot k out_dir (normalize k mean_dir)).

(** [Projector::operator()]; the [bool] it returns is always [true], the
    result here is the projector with its output image updated. *)
Definition Projector_call (k : Kernel) (p : Projector) (out_index : nat) : outcome Projector :=
  _ ← assert_that (out_index <? size (correspondence p))%nat;
  in_indices ← get (correspondence p) out_index;
  if (length in_indices =? 0)%nat
  then set_output p out_index (value (fill p))
  else if (1 <? length in_indices)%nat && nan_many2one (fill p)
  then set_output p out_index F32.NaN
  else
    gathered ← gather p in_indices {| directions := []; values := []; weights := [] |};
    match gathered with
    | None => set_output p out_index F32.NaN
    | Some g =>
        result ← match metric p with
                 | SUM => Ok (metric_sum g)
                 | MEAN => Ok (metric_mean g)
                 | COUNT => Ok (metric_count in_indices)
                 | ANGLE =>
                     out_dir ← read (target_directions p) out_index;
                     mret (metric_angle k out_dir g)
                 end;
        set_output p out_index result
    end.

End Correspondence.

(** ** cmd/mrthreshold.cpp *)

Module mrthreshold.

(** The parsed command line.  An option that was not given is [None];
    [argument] holds the positional arguments. *)
Record CommandLine : Type := {
  opt_abs : option spec_float;             (* -abs value, a double *)
  opt_percentile : option spec_float;      (* -percentile value, a double *)
  opt_bottom : option Z;                   (* -bottom count *)
  opt_top : option Z;                      (* -top count *)
  opt_allvolumes : bool;
  opt_ignorezero : bool;
  opt_mask : option string;
  opt_invert : bool;
  opt_nan : bool;
  argument : list string
}.

(** Modelled from the spec: [App::get_option_value] (app.h is not among the
    sources) yields the value given with the option and the default when
    the option is absent. *)
Definition get_option_value {A : Type} (opt : option A) (default_value : A) : A :=
  match opt with
  | Some v => v
  | None => default_value
  end.

Definition NaN : spec_float := S754_nan.

(** What [run] does to the outside world, in order. *)
Inductive event : Type :=
| Header_open (path : string)          (* Header::open (argument[0]) *)
| get_image                            (* header_in.get_image<value_type>() *)
| get_mask (path : option string)      (* get_mask (in) *)
| check_3D_nonunity                    (* automatic thresholding only *)
| execute (use_nan : bool) (output_path : string).
                                       (* determine the threshold, then create
                                          the output image or print the value *)

Definition num_explicit_mechanisms (abs percentile : spec_float) (bottom top : Z) : Z :=
  (if isfinite abs then 1 else 0) +
  (if isfinite percentile then 1 else 0) +
  (if 0 <=? bottom then 1 else 0) +
  (if 0 <=? top then 1 else 0).

(** What [run] meets outside the command line: whether the header of the
    input image announces complex data, and how the work that follows the
    opening of the image ([get_mask], [check_3D_nonunity], [execute]) ends. *)
Record Environment : Type := {
  input_is_complex : bool;
  thresholding : outcome unit
}.

(** [run ()].  Warnings are not recorded. *)
Definition run (cl : CommandLine) (env : Environment) : list event * outcome unit :=
  let abs := get_option_value (opt_abs cl) NaN in
  let percentile := get_option_value (opt_percentile cl) NaN in
  let bottom := get_option_value (opt_bottom cl) (-1) in
  let top := get_option_value (opt_top cl) (-1) in
  let num_explicit_mechanisms := num_explicit_mechanisms abs percentile bottom top in
  if 1 <? num_explicit_mechanisms
  then ([], Throw "Cannot specify more than one mechanism for threshold selection")
  else
    let input := default EmptyString (head (argument cl)) in
    if input_is_complex env
    then ([Header_open input],
          Throw "Cannot perform thresholding directly on complex image data")
    else
      let to_cout := (length (argument cl) =? 1)%nat in
      let output_path := if to_cout then EmptyString
                         else default EmptyString (argument cl !! 1%nat) in
      let masking :=
        if isfinite abs then []
        else get_mask (opt_mask cl) ::
             (if num_explicit_mechanisms =? 0 then [check_3D_nonunity] else []) in
      ([Header_open input; get_image] ++ masking ++ [execute (opt_nan cl) output_path],
       thresholding env).

(** A [float] used as a condition: every value but zero. *)
Definition nonzero (v : spec_float) : bool :=
  match v with
  | S754_zero _ => false
  | _ => true
  end.

(** [get_data (in, mask, max_axis, ignore_zero)].  [voxels] holds the
    values that [Loop (in, 0, max_axis)] visits, in order; [mask], when
    there is one, holds the values of the replicated mask at the same
    places. *)
Definition get_data (voxels : list spec_float) (mask : option (list bool))
    (ignore_zero : bool) : outcome (list spec_float) :=
  let data :=
    match mask with
    | Some mask_replicate =>
        if ignore_zero
        then map fst (List.filter (fun vm => snd vm && nonzero (fst vm))
                                  (zip voxels mask_replicate))
        else map fst (List.filter (fun vm => snd vm && isfinite (fst vm))
                                  (zip voxels mask_replicate))
    | None =>
        if ignore_zero
        then List.filter nonzero voxels
        else List.filter isfinite voxels
    end in
  if (length data =? 0)%nat
  then Throw "No valid input data found; unable to determine threshold"
  else Ok data.

(** [*std::max_element (first, last)]: the first of the greatest elements. *)
Definition max_element (data : list spec_float) : outcome spec_float :=
  match data with
  | [] => OutOfBounds
  | x :: rest => Ok (foldl (fun largest y => if SFltb largest y then y else largest) x rest)
  end.

(** [*std::min_element (first, last)]: the first of the smallest elements. *)
Definition min_element (data : list spec_float) : outcome spec_float :=
  match data with
  | [] => OutOfBounds
  | x :: rest => Ok (foldl (fun smallest y => if SFltb y smallest then y else smallest) x rest)
  end.

Fixpoint insert_sorted (x : spec_float) (sorted : list spec_float) : list spec_float :=
  match sorted with
  | [] => [x]
  | y :: rest => if SFltb x y then x :: sorted else y :: insert_sorted x rest
  end.

(** [std::nth_element (first, first + nth, last)] leaves at [nth] the
    element that a sort would put there, nothing greater before it and
    nothing smaller after it.  Every sorted arrangement is one that it may
    leave; the one of an insertion sort is taken here.  This is what the
    library promises for data on which [<] is a strict weak order, that is
    for data without NaN; for data that hold a NaN, which [get_data] keeps
    under -ignorezero, the library promises nothing, and the properties
    below that speak of the value at [nth] are stated for finite data. *)
Definition nth_element (data : list spec_float) (nth : nat) : list spec_float :=
  foldr insert_sorted [] data.

(** An iterator or an index that has to lie within a range. *)
Definition within_range (b : bool) : outcome unit :=
  if b then Ok tt else OutOfBounds.

Section Calculate.

(** [Filter::estimate_optimal_threshold], of filter/optimal_threshold.h. *)
Variable estimate_optimal_threshold :
  list spec_float -> option (list bool) -> outcome spec_float.

(** [calculate (in, mask, max_axis, abs, percentile, bottom, top,
    ignore_zero, to_cout)] on the voxels of the block that is processed.
    The calls that follow the choice of the threshold and serve the
    degeneracy warning only are not recorded. *)
Definition calculate (voxels : list spec_float) (mask : option (list bool))
    (abs percentile : spec_float) (bottom top : Z) (ignore_zero : bool)
    : outcome spec_float :=
  if isfinite abs then Ok abs
  else if isfinite percentile then
    data ← get_data voxels mask ignore_zero;
    if F64.eqb percentile (F64.of_Z 100)
    then largest ← max_element data; mret (F64.of_float largest)
    else if F64.eqb percentile F64.zero
    then smallest ← min_element data; mret (F64.of_float smallest)
    else
      let interp_index :=
        F64.mul (F64.mul F64.one_hundredth percentile)
                (F64.of_Z (uint64_t (Z.of_nat (length data) - 1))) in
      match to_size_t interp_index with
      | None => OutOfBounds
      | Some lower_index =>
          let mu := F64.sub interp_index (F64.of_Z lower_index) in
          _ ← within_range (lower_index <=? Z.of_nat (length data));
          let data := nth_element data (Z.to_nat lower_index) in
          lower_value ← read data (Z.to_nat lower_index);
          _ ← within_range (uint64_t (lower_index + 1) <=? Z.of_nat (length data));
          let data := nth_element data (Z.to_nat (uint64_t (lower_index + 1))) in
          upper_value ← read data (Z.to_nat (uint64_t (lower_index + 1)));
          mret (F64.add (F64.mul (F64.sub F64.one mu) (F64.of_float lower_value))
                        (F64.mul mu (F64.of_float upper_value)))
      end
  else if 0 <=? Z.max bottom top then
    data ← get_data voxels mask ignore_zero;
    let index := if 0 <=? bottom
                 then ssize_t (uint64_t bottom - 1)
                 else Z.of_nat (length data) - top in
    if (index <? 0) || (Z.of_nat (length data) <=? index)
    then Throw ("Number of valid input image values ("
                ++ MR.str (Z.of_nat (length data))
                ++ ") less than number of voxels requested via -"
                ++ (if (0 <=? bottom)%Z then "bottom" else "top")
                ++ " option (" ++ MR.str index ++ ")")%string
    else
      let data := nth_element data (Z.to_nat index) in
      threshold_float ← read data (Z.to_nat index);
      mret (F64.of_float threshold_float)
  else estimate_optimal_threshold voxels mask.

End Calculate.

(** The element type of the output image: [bool], or [float] under -nan. *)
Inductive output_type : Type := Bool | Float.

Inductive output_value : Type :=
| bool_value (b : bool)
| float_value (x : spec_float).

(** [above] and [below] as they are initialised. *)
Definition above_value (T : output_type) : output_value :=
  match T with
  | Float => float_value F32.one
  | Bool => bool_value true
  end.

Definition below_value (T : output_type) : output_value :=
  match T with
  | Float => float_value F32.NaN
  | Bool => bool_value false
  end.

(** What the loops of [apply] and of [save] store for a voxel of value
    [v]. *)
Definition apply_voxel (T : output_type) (threshold : spec_float)
    (equal_as_above invert : bool) (v : spec_float) : output_value :=
  let nonfinite := below_value T in
  let '(above, below) :=
    if invert then (below_value T, above_value T) else (above_value T, below_value T) in
  if equal_as_above
  then
    let threshold_float := F32.of_double threshold in
    if isfinite v then (if SFgeb v threshold_float then above else below) else nonfinite
  else
    if isfinite v then (if SFgtb (F64.of_float v) threshold then above else below)
    else nonfinite.

(** [apply<T> (in, out, max_axis, threshold, to_cout, equal_as_above,
    invert)]: the threshold that is written to the standard output, or the
    voxels that are written to the output image. *)
Definition apply (T : output_type) (voxels : list spec_float) (threshold : spec_float)
    (to_cout equal_as_above invert : bool) : spec_float + list output_value :=
  if to_cout then inl threshold
  else inr (map (apply_voxel T threshold equal_as_above invert) voxels).

(** What the replicated mask presents to the loops of [get_data] and of
    [calculate]: to the loop over the whole image, and to the loop over
    the three spatial axes at each position [v] of the axes that follow
    them. *)
Record MaskViews : Type := {
  over_image : list bool;
  over_volume : nat -> list bool
}.

Section Execute.

Variable estimate_optimal_threshold :
  list spec_float -> option (list bool) -> outcome spec_float.

(** The two statements that both branches of [execute] end with:
    [calculate (in, mask, max_axis, ...)] and then [apply (in, out,
    max_axis, threshold, ...)], on the voxels of one block. *)
Definition execute_block (T : output_type) (voxels : list spec_float)
    (mask : option (list bool)) (to_cout : bool) (abs percentile : spec_float)
    (bottom top : Z) (ignore_zero invert : bool)
    : outcome (spec_float + list output_value) :=
  let equal_as_above := bottom <? 0 in
  threshold ← calculate estimate_optimal_threshold voxels mask abs percentile bottom top
                ignore_zero;
  mret (apply T voxels threshold to_cout equal_as_above invert).

(** The loop "one volume at a time" of [execute], from volume [v] on: an
    exception thrown for a volume ends the loop and leaves [execute]. *)
Fixpoint execute_volumes (T : output_type) (volumes : list (list spec_float))
    (mask : option MaskViews) (v : nat) (to_cout : bool) (abs percentile : spec_float)
    (bottom top : Z) (ignore_zero invert : bool)
    : outcome (list (spec_float + list output_value)) :=
  match volumes with
  | [] => Ok []
  | voxels :: rest =>
      block ← execute_block T voxels (option_map (fun m => over_volume m v) mask)
                to_cout abs percentile bottom top ignore_zero invert;
      blocks ← execute_volumes T rest mask (S v) to_cout abs percentile bottom top
                 ignore_zero invert;
      mret (block :: blocks)
  end.

(** [execute<T> (in, mask, out_path, abs, percentile, bottom, top,
    ignore_zero, all_volumes, invert)].  The image [in] is given by its
    number of axes and by its volumes, each with the values that a loop
    over the three spatial axes visits, in order; the loop over the whole
    image visits the volumes one after the other.  [to_cout] is
    [out_path.empty()].  The result has one entry for each block that was
    processed, the threshold that was printed or the voxels that were
    written: one entry for each volume when the image has more than three
    axes and -allvolumes is not given, and a single entry otherwise.  The
    line feeds printed between the thresholds and the warning about an
    -allvolumes that has no effect are not recorded. *)
Definition execute_image (T : output_type) (ndim : nat)
    (volumes : list (list spec_float)) (mask : option MaskViews) (to_cout : bool)
    (abs percentile : spec_float) (bottom top : Z)
    (ignore_zero all_volumes invert : bool)
    : outcome (list (spec_float + list output_value)) :=
  if (3 <? ndim)%nat && negb all_volumes
  then execute_volumes T volumes mask 0 to_cout abs percentile bottom top
         ignore_zero invert
  else
    block ← execute_block T (concat volumes) (option_map over_image mask)
              to_cout abs percentile bottom top ignore_zero invert;
    mret [block].

End Execute.

End mrthreshold.

(** ** cmd/fixel2fixel.cpp *)

Module fixel2fixel.

(** [class Source]; the progress bar is not recorded. *)
Record Source : Type := {
  size : Z;          (* const size_t *)
  counter : Z        (* size_t *)
}.

(** [Source (i)] *)
Definition Source_new (i : Z) : Source := {| size := i; counter := 0 |}.

(** [Source::operator() (index)]: the source after the call, the value left
    in [index] and the [bool] returned. *)
Definition Source_call (s : Source) : Source * Z * bool :=
  let index := counter s in
  ({| size := size s; counter := uint64_t (counter s + 1) |}, index, index <? size s).

End fixel2fixel.

(** ** modules/gt/src/spatiallock.h *)

Module GT.

(** [Point<float>], three coordinates. *)
Definition Point : Type := spec_float * spec_float * spec_float.

(** Modelled from the spec: [operator-] of [Point<T>] (point.h is not among
    the sources), taken to be the difference of the coordinates, which
    [lockIfNotLocked] reads with [d[0]], [d[1]] and [d[2]]. *)
Definition Point_sub (a b : Point) : Point :=
  let '(ax, ay, az) := a in
  let '(bx, by_, bz) := b in (F32.sub ax bx, F32.sub ay by_, F32.sub az bz).

(** [SpatialLock<float>].  Each member function holds the mutex for the
    whole of its body, so that calls follow one another. *)
Record SpatialLock : Type := {
  lockcentres : list Point;      (* std::set<Point<value_type> > *)
  _tx : spec_float;
  _ty : spec_float;
  _tz : spec_float
}.

(** [SpatialLock ()] *)
Definition SpatialLock_new : SpatialLock :=
  {| lockcentres := []; _tx := F32.zero; _ty := F32.zero; _tz := F32.zero |}.

(** [SpatialLock (t)] *)
Definition SpatialLock_new1 (t : spec_float) : SpatialLock :=
  {| lockcentres := []; _tx := t; _ty := t; _tz := t |}.

(** [SpatialLock (tx, ty, tz)] *)
Definition SpatialLock_new3 (tx ty tz : spec_float) : SpatialLock :=
  {| lockcentres := []; _tx := tx; _ty := ty; _tz := tz |}.

(** [setThreshold (t)] *)
Definition setThreshold1 (s : SpatialLock) (t : spec_float) : SpatialLock :=
  {| lockcentres := lockcentres s; _tx := t; _ty := t; _tz := t |}.

(** [setThreshold (tx, ty, tz)] *)
Definition setThreshold3 (s : SpatialLock) (tx ty tz : spec_float) : SpatialLock :=
  {| lockcentres := lockcentres s; _tx := tx; _ty := ty; _tz := tz |}.

(** The test of the loop of [lockIfNotLocked] on the difference [d]. *)
Definition within (s : SpatialLock) (d : Point) : bool :=
  let '(d0, d1, d2) := d in
  F32.ltb (SFabs d0) (_tx s) && F32.ltb (SFabs d1) (_ty s) && F32.ltb (SFabs d2) (_tz s).

Section Set_of_points.

(** The order of [std::set<Point<float> >]: [operator<] of [Point<T>], of
    point.h. *)
Variable less : Point -> Point -> bool.

(** Two keys neither of which is before the other are one key of the set. *)
Definition equivalent (a b : Point) : bool := negb (less a b) && negb (less b a).

(** [std::set::insert]: nothing happens when the key is there. *)
Definition set_insert (pos : Point) (centres : list Point) : list Point :=
  if existsb (equivalent pos) centres then centres else centres ++ [pos].

(** [std::set::erase (key)] *)
Definition set_erase (pos : Point) (centres : list Point) : list Point :=
  List.filter (fun c => negb (equivalent pos c)) centres.

(** [lockIfNotLocked (pos)]: the lock after the call and the value
    returned. *)
Definition lockIfNotLocked (s : SpatialLock) (pos : Point) : SpatialLock * bool :=
  if existsb (fun c => within s (Point_sub c pos)) (lockcentres s)
  then (s, false)
  else ({| lockcentres := set_insert pos (lockcentres s);
           _tx := _tx s; _ty := _ty s; _tz := _tz s |}, true).

(** [unlock (pos)] *)
Definition unlock (s : SpatialLock) (pos : Point) : SpatialLock :=
  {| lockcentres := set_erase pos (lockcentres s);
     _tx := _tx s; _ty := _ty s; _tz := _tz s |}.

End Set_of_points.

End GT.

(** ** Vocabulary of the statements *)

Module Spec.
Import Correspondence.

(** Every stored index is a [uint32_t]. *)
Definition uint32_entries (rows : list (list Z)) : Prop :=
  Forall (Forall (fun s => 0 <= s < 2 ^ 32)) rows.

(** How many times the source fixel [s] is listed, over all targets. *)
Definition occurrences (rows : list (list Z)) (s : Z) : Z :=
  Z.of_nat (length (filter (fun e => e = s) (concat rows))).

(** The fan-out of the source fixel [s]: how many targets list it. *)
Definition fan_out (rows : list (list Z)) (s : Z) : Z :=
  Z.of_nat (length (filter (fun row => s ∈ row) rows)).

(** The value of the source fixel [s] in the input data. *)
Definition value_of (p : Projector) (s : Z) : spec_float :=
  default F32.zero (input_data p !! Z.to_nat s).

(** The weight of the source fixel [s] when [count s] is the number that
    divides its contribution: one over that number, times the explicit
    weight when explicit weights are supplied. *)
Definition weight_by (count : Z -> Z) (p : Projector) (s : Z) : spec_float :=
  let implicit := F32.div F32.one (F32.of_Z (count s)) in
  match explicit_weights p with
  | Some e => F32.mul implicit (default F32.zero (e !! Z.to_nat s))
  | None => implicit
  end.

(** The running sum of the weighted values, in the order of the list. *)
Definition weighted_sum_by (count : Z -> Z) (p : Projector) (in_indices : list Z) : spec_float :=
  foldl (fun acc s => F32.add acc (F32.mul (value_of p s) (weight_by count p s)))
        F32.zero in_indices.

Definition sum_of_weights_by (count : Z -> Z) (p : Projector) (in_indices : list Z) : spec_float :=
  foldl (fun acc s => F32.add acc (weight_by count p s)) F32.zero in_indices.

(** How many entries of [l] address slot [j] of the counters. *)
Definition hits (l : list Z) (j : nat) : Z :=
  Z.of_nat (length (filter (fun e => Z.to_nat e = j) l)).

(** [n] eight-bit counters, counter [j] holding [f j]. *)
Definition counters (n : nat) (f : nat -> Z) : list Z :=
  map (fun j => uint8_t (f j)) (seq 0 n).

(** The states a projector goes through: the one its constructor leaves,
    and those that follow by calls of [operator()]. *)
Inductive reachable (k : Kernel) : Projector -> Prop :=
| reachable_new input_path correspondence metric fill_settings explicit_weights
      output_directory p :
    Projector_new input_path correspondence metric fill_settings explicit_weights
      output_directory = Ok p ->
    reachable k p
| reachable_call p out_index p' :
    reachable k p ->
    Projector_call k p out_index = Ok p' ->
    reachable k p'.

(** What holds of every state a projector goes through. *)
Record Projector_inv (p : Projector) : Prop := {
  inv_output : length (output_data p) = size (correspondence p);
  inv_targets : length (target_directions p) = size (correspondence p);
  inv_indices :
    Forall (Forall (fun e => (Z.to_nat e < length (input_data p))%nat))
           (M (correspondence p));
  inv_implicit :
    implicit_weights p =
    map implicit_weight
        (counters (length (input_data p)) (hits (concat (M (correspondence p)))));
  inv_explicit :
    forall e, explicit_weights p = Some e -> length e = length (input_data p);
  inv_directions : length (input_directions p) = length (input_data p)
}.

(** What the loop over the sources of a target reads for the source [s]:
    its direction, and its weight as the constructor stored it. *)
Definition direction_of (p : Projector) (s : Z) : Vector3f :=
  default Vector3f_zero (input_directions p !! Z.to_nat s).

Definition stored_implicit_weight (p : Projector) (s : Z) : spec_float :=
  implicit_weight (uint8_t (hits (concat (M (correspondence p))) (Z.to_nat s))).

Definition stored_weight (p : Projector) (s : Z) : spec_float :=
  match explicit_weights p with
  | Some e => F32.mul (stored_implicit_weight p s) (default F32.zero (e !! Z.to_nat s))
  | None => stored_implicit_weight p s
  end.

Definition gathered_of (p : Projector) (in_indices : list Z) : Gathered :=
  {| directions := map (direction_of p) in_indices;
     values := map (value_of p) in_indices;
     weights := map (stored_weight p) in_indices |}.

(** The test that makes the loop leave early. *)
Definition flags_one2many (p : Projector) (s : Z) : bool :=
  nan_one2many (fill p) && F32.ltb (stored_implicit_weight p s) F32.one.

(** A kernel for evaluations in which the ANGLE metric plays no part. *)
Definition no_kernel : Kernel :=
  {| dot := fun _ _ => F32.NaN; normalize := fun v => v; acosf := fun _ => F32.NaN |}.

(** The projector [p] with [out] for its output image. *)
Definition with_output (p : Projector) (out : list spec_float) : Projector :=
  {| correspondence := correspondence p;
     metric := metric p;
     fill := fill p;
     input_data := input_data p;
     implicit_weights := implicit_weights p;
     explicit_weights := explicit_weights p;
     input_directions := input_directions p;
     target_directions := target_directions p;
     output_data := out |}.

(** The value of a target fixel in terms of what the constructor was
    given. *)
Definition projected (k : Kernel) (p : Projector) (out_index : nat) : spec_float :=
  let in_indices := default [] (M (correspondence p) !! out_index) in
  if (length in_indices =? 0)%nat then value (fill p)
  else if (1 <? length in_indices)%nat && nan_many2one (fill p) then F32.NaN
  else if existsb (flags_one2many p) in_indices then F32.NaN
  else match metric p with
       | SUM => metric_sum (gathered_of p in_indices)
       | MEAN => metric_mean (gathered_of p in_indices)
       | COUNT => metric_count in_indices
       | ANGLE => metric_angle k (default Vector3f_zero (target_directions p !! out_index))
                    (gathered_of p in_indices)
       end.


End Spec.

(** Rounding *)

(** What [k] right shifts leave of [m]. *)
Definition shifted (m k : Z) (mrs : shr_record) : Prop :=
  shr_m mrs = m / 2 ^ k /\
  (m mod 2 ^ k = 0 -> shr_r mrs = false /\ shr_s mrs = false).

(** [x] is a [float] that is not negative and whose value is at most [B];
    values are compared after scaling by [2 ^ K]. *)
Definition below (K B : Z) (x : spec_float) : Prop :=
  match x with
  | S754_zero _ => True
  | S754_finite false m e => 0 <= e + K /\ Z.pos m * 2 ^ (e + K) <= B * 2 ^ K
  | _ => False
  end.

Module ThresholdSpec.
Import mrthreshold.

Definition given {A : Type} (opt : option A) : Z :=
  match opt with Some _ => 1 | None => 0 end.

(** How many of -abs, -percentile, -bottom and -top are on the command line. *)
Definition requested_mechanisms (cl : CommandLine) : Z :=
  given (opt_abs cl) + given (opt_percentile cl) +
  given (opt_bottom cl) + given (opt_top cl).

Definition given_finite (opt : option spec_float) : Z :=
  match opt with Some v => if isfinite v then 1 else 0 | None => 0 end.

Definition given_count (opt : option Z) : Z :=
  match opt with Some n => if 0 <=? n then 1 else 0 | None => 0 end.

(** How many of them are there with a value that selects a threshold: a
    finite number for -abs and -percentile, a count that is not negative
    for -bottom and -top. *)
Definition usable_mechanisms (cl : CommandLine) : Z :=
  given_finite (opt_abs cl) + given_finite (opt_percentile cl) +
  given_count (opt_bottom cl) + given_count (opt_top cl).

Definition too_many : string :=
  "Cannot specify more than one mechanism for threshold selection".

(** [mrthreshold in.mif out.mif -abs nan -top 5] *)
Definition abs_nan_top_5 : CommandLine :=
  {| opt_abs := Some NaN; opt_percentile := None;
     opt_bottom := None; opt_top := Some 5;
     opt_allvolumes := false; opt_ignorezero := false; opt_mask := None;
     opt_invert := false; opt_nan := false;
     argument := ["in.mif"%string; "out.mif"%string] |}.

(** [mrthreshold in.mif out.mif -percentile 50 -top 5] *)
Definition percentile_50_top_5 : CommandLine :=
  {| opt_abs := None; opt_percentile := Some (F64.of_Z 50);
     opt_bottom := None; opt_top := Some 5;
     opt_allvolumes := false; opt_ignorezero := false; opt_mask := None;
     opt_invert := false; opt_nan := false;
     argument := ["in.mif"%string; "out.mif"%string] |}.

Definition real_image : Environment :=
  {| input_is_complex := false; thresholding := Ok tt |}.

(** Whether a voxel of the output image belongs to the mask that was
    computed: [true] in a [bool] image, a number in a [float] image. *)
Definition selected (o : output_value) : bool :=
  match o with
  | bool_value b => b
  | float_value S754_nan => false
  | float_value _ => true
  end.

End ThresholdSpec.

(** The order of the finite numbers *)

Module Order.

(** The place of a number among the finite numbers: its sign, then its
    exponent and its mantissa, both counted downwards for a negative
    number. *)
Definition rank (x : spec_float) : Z * Z * Z :=
  match x with
  | S754_finite false m e => (1, e, Z.pos m)
  | S754_finite true m e => (-1, - e, - Z.pos m)
  | _ => (0, 0, 0)
  end.

Definition lex_lt (a b : Z * Z * Z) : Prop :=
  let '(a1, a2, a3) := a in
  let '(b1, b2, b3) := b in
  a1 < b1 \/ (a1 = b1 /\ (a2 < b2 \/ (a2 = b2 /\ a3 < b3))).

End Order.

Module QueueSpec.
Import fixel2fixel.

(** What [n] calls of a source in a row leave in [index] and return. *)
Fixpoint Source_calls (n : nat) (s : Source) : list (Z * bool) :=
  match n with
  | O => []
  | S n' => let '(s', index, more) := Source_call s in (index, more) :: Source_calls n' s'
  end.

End QueueSpec.

Module LockSpec.
Import GT.

(** The states of a lock whose thresholds stay as the constructor set
    them: the one the constructor leaves, and those that follow by calls of
    [lockIfNotLocked] and [unlock]. *)
Inductive locking (less : Point -> Point -> bool) (tx ty tz : spec_float)
    : SpatialLock -> Prop :=
| locking_new : locking less tx ty tz (SpatialLock_new3 tx ty tz)
| locking_lock s pos :
    locking less tx ty tz s ->
    locking less tx ty tz (fst (lockIfNotLocked less s pos))
| locking_unlock s pos :
    locking less tx ty tz s ->
    locking less tx ty tz (unlock less s pos).

End LockSpec.

(** ** Concrete inputs *)

Module Examples.
Import Correspondence.

Definition two : spec_float := F32.of_Z 2.
Definition three : spec_float := F32.of_Z 3.
Definition four : spec_float := F32.of_Z 4.
Definition six : spec_float := F32.of_Z 6.

Definition along_z : Vector3f := (F32.zero, F32.zero, F32.one).

(** A fixel data file with one fixel, of value 2. *)
Definition one_source : InputPath :=
  {| is_dir := false; is_data_file := true;
     fixels := [(two, along_z)] |}.

(** A fixel data file with two fixels, of values 2 and 4. *)
Definition two_sources : InputPath :=
  {| is_dir := false; is_data_file := true;
     fixels := [(two, along_z); (four, along_z)] |}.

Definition fill_with_zero (many2one one2many : bool) : FillSettings :=
  {| value := F32.zero; nan_many2one := many2one; nan_one2many := one2many |}.

(** One target, whose list names source 0 twice. *)
Definition listed_twice : Mapping :=
  {| source_fixels := 1; target_fixels := 1; M := [[0; 0]] |}.

(** 257 targets, each fed by source 0 alone. *)
Definition fan_out_257 : Mapping :=
  {| source_fixels := 1; target_fixels := 257; M := replicate 257 [0] |}.

(** One target fed by sources 0 and 1, and a second target without sources. *)
Definition pair_to_one : Mapping :=
  {| source_fixels := 2; target_fixels := 2; M := [[0; 1]; []] |}.

(** Three voxels, of values 1, 2 and 3. *)
Definition three_voxels : list spec_float := [F32.one; two; three].

(** An estimator of the automatic threshold for the runs in which it plays
    no part. *)
Definition no_estimate : list spec_float -> option (list bool) -> outcome spec_float :=
  fun _ _ => OutOfBounds.

(** An image of four axes with two volumes, of three and of one voxel
    that hold a number. *)
Definition two_volumes : list (list spec_float) :=
  [three_voxels; [F32.NaN; two; F32.NaN]].






(** Functions in the place of [std::tan] and [std::acos] that return [+0]
    where the C standard says so. *)
Definition tan_near_zero : spec_float -> spec_float := fun x => x.
Definition acos_near_one : spec_float -> spec_float := fun _ => S754_zero false.

(** One half, as a [float]. *)
Definition one_half : spec_float := S754_finite false 8388608 (-24).

(** A text of fifty characters. *)
Definition fifty_characters : MR.std_string :=
  MR.literal "0123456789012345678901234567890123456789abcdefghij".

(** Two points, five units apart on the first axis, and an order of points
    by their first coordinate. *)
Definition origin : GT.Point := (F32.zero, F32.zero, F32.zero).
Definition five_along_x : GT.Point := (F32.of_Z 5, F32.zero, F32.zero).
Definition by_first_coordinate : GT.Point -> GT.Point -> bool :=
  fun a b => SFltb (fst (fst a)) (fst (fst b)).


End Examples.

(** * Properties *)

(** ** Math.binomial *)

Section Binomial.
Import Math.

Lemma uint64_t_small (z : Z) : 0 <= z < 2 ^ 64 -> uint64_t z = z.
Proof. intros Hz. unfold uint64_t. apply Z.mod_small. exact Hz. Qed.

(** [k = 0] returns 1. *)
Lemma binomial_k_zero (n : Z) : 0 <= n -> binomial n 0 = Some 1.
Proof.
  intros Hn. unfold binomial.
  destruct (Z.ltb_spec n 0) as [Hlt|_]; [lia|].
  change (uint64_t (0 * 2)) with 0.
  destruct (Z.ltb_spec n 0) as [Hlt|_]; [lia|].
  reflexivity.
Qed.

(** [k = n] returns 1 as long as [2 * n] does not wrap. *)
Lemma binomial_k_n (n : Z) : 0 <= n < 2 ^ 63 -> binomial n n = Some 1.
Proof.
  intros Hn. unfold binomial.
  rewrite Z.ltb_irrefl.
  rewrite (uint64_t_small (n * 2)) by lia.
  destruct (Z.ltb_spec n (n * 2)) as [Hlt|Hge].
  - rewrite Z.sub_diag. reflexivity.
  - assert (n = 0) as -> by lia. reflexivity.
Qed.

(** [k > n] returns 0. *)
Lemma binomial_k_gt_n (n k : Z) : n < k -> binomial n k = Some 0.
Proof.
  intros Hlt. unfold binomial.
  destruct (Z.ltb_spec n k) as [_|Hge]; [reflexivity|lia].
Qed.

(** C10.  [Math::binomial (4, 2)] returns 4, whereas four-choose-two is 6:
    the loop multiplies by the integer quotient [(n-i+1) / i], which drops
    the remainder of every division that is not exact. *)
Theorem binomial_4_2_is_4 :
  binomial 4 2 = Some 4 /\ Z.of_nat (choose 4 2) = 6.
Proof. split; reflexivity. Qed.

End Binomial.

(** ** Correspondence.Mapping *)

Section MappingFacts.
Import Correspondence Spec.

Lemma size_Mapping_new (s t : Z) : size (Mapping_new s t) = Z.to_nat t.
Proof. unfold size, Mapping_new. simpl. apply length_replicate. Qed.

Lemma assign_in_range (m : Mapping) (index : nat) (data : list Z) :
  (index < size m)%nat ->
  assign m index data = Ok (Value_assign m {| index := index |} data).
Proof.
  intros Hlt. unfold assign, at_, Value_new, assert_that.
  destruct (Nat.ltb_spec index (size m)) as [_|Hge]; [reflexivity|lia].
Qed.

Lemma assign_out_of_range (m : Mapping) (index : nat) (data : list Z) :
  (size m <= index)%nat -> assign m index data = AssertFail.
Proof.
  intros Hge. unfold assign, at_, Value_new, assert_that.
  destruct (Nat.ltb_spec index (size m)) as [Hlt|_]; [lia|reflexivity].
Qed.

(** C7.  A mapping constructed for [target_fixels] targets has that many
    entries, all of them empty; assigning through [operator[]] at an index
    in range succeeds, replaces the sequence at that index, leaves every
    other sequence and the number of entries as they were; at an index out
    of range the assertion of [Value] fails. *)
Theorem Mapping_outer_length_fixed
    (source_fixels target_fixels : Z) (m : Mapping) (index : nat) (data : list Z) :
  (size (Mapping_new source_fixels target_fixels) = Z.to_nat target_fixels /\
   forall i : nat, (i < Z.to_nat target_fixels)%nat ->
     M (Mapping_new source_fixels target_fixels) !! i = Some []) /\
  ((index < size m)%nat ->
     exists m', assign m index data = Ok m' /\
       size m' = size m /\
       M m' !! index = Some data /\
       forall j : nat, j <> index -> M m' !! j = M m !! j) /\
  ((size m <= index)%nat -> assign m index data = AssertFail).
Proof.
  split; [split|split].
  - apply size_Mapping_new.
  - intros i Hi. simpl. apply lookup_replicate. split; [reflexivity|exact Hi].
  - intros Hlt. eexists. split; [apply assign_in_range; exact Hlt|].
    unfold size in *. simpl. split; [apply length_insert|]. split.
    + apply list_lookup_insert_eq. exact Hlt.
    + intros j Hj. apply list_lookup_insert_ne. congruence.
  - apply assign_out_of_range.
Qed.

Lemma Mapping_outer_length_fixed_witness :
  exists m', assign (Mapping_new 3 2) 1 [0; 2] = Ok m' /\
    size m' = size (Mapping_new 3 2) /\
    M m' !! 1%nat = Some [0; 2] /\
    forall j : nat, j <> 1%nat -> M m' !! j = M (Mapping_new 3 2) !! j.
Proof.
  apply (Mapping_outer_length_fixed 3 2 (Mapping_new 3 2) 1 [0; 2]).
  vm_compute. lia.
Defined.

(** The index built by [save] leads [load] back to the rows, whatever
    precedes them in the flat list. *)
Lemma rows_of_index_of_rows (front : list Z) (rows : list (list Z)) :
  rows_of_index (index_of_rows (length front) rows) (front ++ concat rows) = rows.
Proof.
  revert front. induction rows as [|row rows IH]; intros front; [reflexivity|].
  simpl. f_equal.
  - rewrite drop_app_length. apply take_app_length.
  - specialize (IH (front ++ row)).
    rewrite length_app in IH. rewrite <- (assoc_L (++)) in IH. exact IH.
Qed.

Lemma uint32_t_entries (rows : list (list Z)) :
  uint32_entries rows -> map uint32_t (concat rows) = concat rows.
Proof.
  intros Hrows.
  assert (Forall (fun s => 0 <= s < 2 ^ 32) (concat rows)) as Hall.
  { apply Forall_concat. exact Hrows. }
  induction Hall as [|s l Hs _ IH]; [reflexivity|].
  simpl. rewrite IH. f_equal. unfold uint32_t. apply Z.mod_small. exact Hs.
Qed.

Lemma load_save (m : Mapping) :
  uint32_entries (M m) -> M (load (save m) false) = M m.
Proof.
  intros Hrows. unfold load, save, save_. simpl.
  rewrite (uint32_t_entries _ Hrows).
  apply (rows_of_index_of_rows [] (M m)).
Qed.

(** C1.  [save] followed by [load] (with [import_inverse] false) gives a
    mapping of the same size whose sequence of source indices at every
    target index is the one of the mapping that was saved, in the same
    order. *)
Theorem save_load_round_trip (m : Mapping) :
  uint32_entries (M m) ->
  size (load (save m) false) = size m /\
  forall i : nat, (i < size m)%nat ->
    exists row, M m !! i = Some row /\ M (load (save m) false) !! i = Some row.
Proof.
  intros Hrows. pose proof (load_save m Hrows) as Heq.
  unfold size. rewrite Heq. split; [reflexivity|].
  intros i Hi. destruct (lookup_lt_is_Some_2 (M m) i Hi) as [row Hrow].
  exists row. split; exact Hrow.
Qed.

Lemma save_load_round_trip_witness :
  let m := {| source_fixels := 4; target_fixels := 3; M := [[2; 0]; []; [3; 3; 1]] |} in
  size (load (save m) false) = size m /\
  forall i : nat, (i < size m)%nat ->
    exists row, M m !! i = Some row /\ M (load (save m) false) !! i = Some row.
Proof.
  apply (save_load_round_trip
           {| source_fixels := 4; target_fixels := 3; M := [[2; 0]; []; [3; 3; 1]] |}).
  unfold uint32_entries. simpl. repeat constructor; lia.
Defined.

End MappingFacts.

(** ** Correspondence.Projector *)

Section ObjectiveCounts.
Import Correspondence Spec.

Lemma length_counters n f : length (counters n f) = n.
Proof. unfold counters. rewrite length_map. apply length_seq. Qed.

Lemma lookup_counters n f j :
  (j < n)%nat -> counters n f !! j = Some (uint8_t (f j)).
Proof.
  intros Hj. unfold counters. rewrite list_lookup_fmap.
  rewrite (lookup_seq_lt 0 n j Hj). reflexivity.
Qed.

Lemma counters_ext n f g :
  (forall j, (j < n)%nat -> uint8_t (f j) = uint8_t (g j)) -> counters n f = counters n g.
Proof.
  intros Hfg. unfold counters. apply map_ext_in. intros j Hj.
  apply Hfg. apply in_seq in Hj. lia.
Qed.

Lemma hits_nil j : hits [] j = 0.
Proof. reflexivity. Qed.

Lemma hits_cons e l j :
  hits (e :: l) j = (if decide (Z.to_nat e = j) then 1 else 0) + hits l j.
Proof.
  unfold hits. rewrite filter_cons. destruct (decide (Z.to_nat e = j)); simpl; lia.
Qed.

Lemma hits_app l l' j : hits (l ++ l') j = hits l j + hits l' j.
Proof. unfold hits. rewrite filter_app, length_app. lia. Qed.

Lemma hits_nonneg l j : 0 <= hits l j.
Proof. unfold hits. lia. Qed.

Lemma count_objective_counters n f i :
  (Z.to_nat i < n)%nat ->
  count_objective (counters n f) i =
    Ok (counters n (fun j => f j + (if decide (Z.to_nat i = j) then 1 else 0))).
Proof.
  intros Hi. unfold count_objective, assert_that, read.
  rewrite length_counters.
  destruct (Nat.ltb_spec (Z.to_nat i) n) as [_|Hge]; [|lia].
  simpl. rewrite (lookup_counters n f _ Hi). simpl. f_equal.
  apply list_eq. intros j.
  destruct (decide (Z.to_nat i = j)) as [<-|Hne].
  - rewrite list_lookup_insert_eq by (rewrite length_counters; exact Hi).
    rewrite (lookup_counters _ _ _ Hi).
    destruct (decide (Z.to_nat i = Z.to_nat i)) as [_|Hne]; [|congruence].
    f_equal. unfold uint8_t. apply Z.add_mod_idemp_l. lia.
  - rewrite list_lookup_insert_ne by exact Hne.
    destruct (Nat.lt_ge_cases j n) as [Hj|Hj].
    + rewrite !lookup_counters by exact Hj.
      destruct (decide (Z.to_nat i = j)) as [Heq|_]; [congruence|].
      rewrite Z.add_0_r. reflexivity.
    + rewrite !(proj2 (lookup_ge_None _ _)) by (rewrite length_counters; exact Hj).
      reflexivity.
Qed.

Lemma count_objective_fails n f i :
  (n <= Z.to_nat i)%nat -> count_objective (counters n f) i = AssertFail.
Proof.
  intros Hi. unfold count_objective, assert_that.
  rewrite length_counters.
  destruct (Nat.ltb_spec (Z.to_nat i) n) as [Hlt|_]; [lia|reflexivity].
Qed.

(** The inner loop, over the sources of one target. *)
Lemma foldM_count_objective n row : forall f,
  (Forall (fun e => (Z.to_nat e < n)%nat) row ->
   foldM count_objective (counters n f) row = Ok (counters n (fun j => f j + hits row j))) /\
  (forall acc, foldM count_objective (counters n f) row = Ok acc ->
   Forall (fun e => (Z.to_nat e < n)%nat) row).
Proof.
  induction row as [|e row IH]; intros f.
  - split.
    + intros _. simpl. f_equal. apply counters_ext. intros j _.
      rewrite hits_nil, Z.add_0_r. reflexivity.
    + intros acc _. constructor.
  - destruct (Nat.lt_ge_cases (Z.to_nat e) n) as [He|He].
    + simpl. rewrite (count_objective_counters n f e He). simpl.
      destruct (IH (fun j => f j + (if decide (Z.to_nat e = j) then 1 else 0)))
        as [IHok IHinv].
      split.
      * intros Hall. inversion Hall as [|? ? _ Hrow]; subst.
        rewrite (IHok Hrow). f_equal. apply counters_ext. intros j _.
        rewrite hits_cons. f_equal. lia.
      * intros acc Hacc. constructor; [exact He|]. exact (IHinv acc Hacc).
    + simpl. rewrite (count_objective_fails n f e He). simpl. split.
      * intros Hall. inversion Hall; subst. lia.
      * intros acc Hacc. discriminate Hacc.
Qed.

(** The outer loop, over the targets. *)
Lemma foldM_rows n rows : forall f,
  (Forall (Forall (fun e => (Z.to_nat e < n)%nat)) rows ->
   foldM (foldM count_objective) (counters n f) rows =
     Ok (counters n (fun j => f j + hits (concat rows) j))) /\
  (forall acc, foldM (foldM count_objective) (counters n f) rows = Ok acc ->
   Forall (Forall (fun e => (Z.to_nat e < n)%nat)) rows).
Proof.
  induction rows as [|row rows IH]; intros f.
  - split.
    + intros _. simpl. f_equal. apply counters_ext. intros j _.
      rewrite hits_nil, Z.add_0_r. reflexivity.
    + intros acc _. constructor.
  - destruct (foldM_count_objective n row f) as [Hok Hinv]. simpl. split.
    + intros Hall. inversion Hall as [|? ? Hrow Hrows]; subst.
      rewrite (Hok Hrow). simpl.
      destruct (IH (fun j => f j + hits row j)) as [IHok _].
      rewrite (IHok Hrows). f_equal. apply counters_ext. intros j _.
      rewrite hits_app. f_equal. lia.
    + intros acc Hacc.
      destruct (foldM count_objective (counters n f) row) as [acc1| | |] eqn:Hrow;
        try discriminate Hacc.
      pose proof (Hinv acc1 eq_refl) as Hrow_ok.
      pose proof (Hok Hrow_ok) as Hacc1. injection Hacc1 as ->.
      simpl in Hacc.
      destruct (IH (fun j => f j + hits row j)) as [_ IHinv].
      constructor; [exact Hrow_ok|]. exact (IHinv acc Hacc).
Qed.

Lemma replicate_counters n : replicate n 0 = counters n (fun _ => 0).
Proof.
  apply list_eq. intros j. destruct (Nat.lt_ge_cases j n) as [Hj|Hj].
  - rewrite (lookup_counters _ _ _ Hj). apply lookup_replicate_2. exact Hj.
  - rewrite !(proj2 (lookup_ge_None _ _)); [reflexivity| |].
    + rewrite length_counters. exact Hj.
    + rewrite length_replicate. exact Hj.
Qed.

(** What the constructor's counting loop returns: it succeeds exactly when
    every stored index addresses a source fixel, and then counter [j] holds
    the number of entries that address [j], reduced to eight bits. *)
Lemma objectives_per_source_fixel_Ok n rows objectives :
  objectives_per_source_fixel n rows = Ok objectives ->
  Forall (Forall (fun e => (Z.to_nat e < n)%nat)) rows /\
  objectives = counters n (hits (concat rows)).
Proof.
  unfold objectives_per_source_fixel. rewrite replicate_counters. intros Hobj.
  destruct (foldM_rows n rows (fun _ => 0)) as [Hok Hinv].
  pose proof (Hinv objectives Hobj) as Hall. split; [exact Hall|].
  rewrite (Hok Hall) in Hobj. injection Hobj as <-.
  apply counters_ext. intros j _. reflexivity.
Qed.

Lemma hits_occurrences rows s :
  uint32_entries rows -> 0 <= s -> hits (concat rows) (Z.to_nat s) = occurrences rows s.
Proof.
  intros Hrows Hs. unfold hits, occurrences. f_equal. f_equal.
  assert (Forall (fun e => 0 <= e < 2 ^ 32) (concat rows)) as Hall
    by (apply Forall_concat; exact Hrows).
  induction Hall as [|e l He _ IH]; [reflexivity|].
  rewrite !filter_cons.
  destruct (decide (Z.to_nat e = Z.to_nat s)) as [Heq|Hne];
    destruct (decide (e = s)) as [Heq'|Hne']; try (rewrite IH; reflexivity).
  - exfalso. apply Hne'. lia.
  - exfalso. apply Hne. congruence.
Qed.

End ObjectiveCounts.

Section ProjectorStates.
Import Correspondence Spec.
Variable k : Kernel.

Lemma get_Some (m : Mapping) (i : nat) (row : list Z) :
  M m !! i = Some row -> get m i = Ok row.
Proof.
  intros Hrow. unfold get, at_const, ConstValue_new, assert_that, ConstValue_get, read.
  pose proof (lookup_lt_Some _ _ _ Hrow) as Hlt. fold (size m) in Hlt.
  destruct (Nat.ltb_spec i (size m)) as [_|Hge]; [|lia].
  simpl. rewrite Hrow. reflexivity.
Qed.

Lemma Projector_new_inv input_path corr met fill_settings weights_in output_directory p :
  Projector_new input_path corr met fill_settings weights_in output_directory = Ok p ->
  Projector_inv p.
Proof.
  unfold Projector_new. intros Hnew.
  destruct (is_dir input_path); [discriminate|].
  destruct (is_data_file input_path); simpl in Hnew; [|discriminate].
  destruct (match weights_in with
            | Some w => negb (length w =? length (fixel_data input_path))%nat
            | None => false
            end) eqn:Hweights; [discriminate|].
  destruct (Nat.eqb_spec (length output_directory) (size corr)) as [Hout|_];
    simpl in Hnew; [|discriminate].
  destruct (objectives_per_source_fixel (length (fixel_data input_path)) (M corr))
    as [objectives| | |] eqn:Hobj; try discriminate.
  simpl in Hnew. injection Hnew as <-.
  destruct (objectives_per_source_fixel_Ok _ _ _ Hobj) as [Hall ->].
  constructor; simpl.
  - rewrite length_replicate. exact Hout.
  - exact Hout.
  - exact Hall.
  - reflexivity.
  - intros e ->. simpl in Hweights.
    destruct (Nat.eqb_spec (length e) (length (fixel_data input_path))) as [Heq|_];
      [exact Heq|discriminate].
  - unfold fixel_directions, fixel_data. rewrite !length_map. reflexivity.
Qed.

Lemma set_output_Ok p i v :
  (i < length (output_data p))%nat ->
  exists p', set_output p i v = Ok p' /\
    output_data p' = <[i := v]> (output_data p) /\
    correspondence p' = correspondence p /\ metric p' = metric p /\
    fill p' = fill p /\ input_data p' = input_data p /\
    implicit_weights p' = implicit_weights p /\
    explicit_weights p' = explicit_weights p /\
    input_directions p' = input_directions p /\
    target_directions p' = target_directions p.
Proof.
  intros Hi. unfold set_output.
  destruct (Nat.ltb_spec i (length (output_data p))) as [_|Hge]; [|lia].
  eexists. split; [reflexivity|]. simpl. repeat split.
Qed.

Lemma set_output_inv p i v p' :
  Projector_inv p -> set_output p i v = Ok p' -> Projector_inv p'.
Proof.
  intros [Hout Htargets Hindices Himplicit Hexplicit Hdirections]. unfold set_output.
  destruct (i <? length (output_data p))%nat; [|discriminate].
  intros Heq. injection Heq as <-. constructor; simpl.
  - rewrite length_insert. exact Hout.
  - exact Htargets.
  - exact Hindices.
  - exact Himplicit.
  - exact Hexplicit.
  - exact Hdirections.
Qed.

(** Every successful call ends in one assignment to the output image, at
    the index that was passed. *)
Lemma Projector_call_sets_output p i p' :
  Projector_call k p i = Ok p' -> exists v, set_output p i v = Ok p'.
Proof.
  unfold Projector_call. intros Hcall.
  destruct (assert_that (i <? size (correspondence p))%nat); try discriminate.
  simpl in Hcall.
  destruct (get (correspondence p) i) as [in_indices| | |]; try discriminate.
  simpl in Hcall.
  destruct (length in_indices =? 0)%nat; [eexists; exact Hcall|].
  destruct ((1 <? length in_indices)%nat && nan_many2one (fill p));
    [eexists; exact Hcall|].
  destruct (gather p in_indices _) as [[g|]| | |]; try discriminate; simpl in Hcall.
  - destruct (metric p); simpl in Hcall; try (eexists; exact Hcall).
    destruct (read (target_directions p) i); try discriminate.
    simpl in Hcall. eexists; exact Hcall.
  - eexists; exact Hcall.
Qed.

Lemma reachable_inv p : reachable k p -> Projector_inv p.
Proof.
  induction 1 as [? ? ? ? ? ? p Hnew|p i p' _ IH Hcall].
  - exact (Projector_new_inv _ _ _ _ _ _ _ Hnew).
  - destruct (Projector_call_sets_output _ _ _ Hcall) as [v Hv].
    exact (set_output_inv _ _ _ _ IH Hv).
Qed.

(** The call on a target without sources. *)
Lemma Projector_call_empty p i :
  M (correspondence p) !! i = Some [] ->
  Projector_call k p i = set_output p i (value (fill p)).
Proof.
  intros Hrow. unfold Projector_call, assert_that.
  pose proof (lookup_lt_Some _ _ _ Hrow) as Hlt. fold (size (correspondence p)) in Hlt.
  destruct (Nat.ltb_spec i (size (correspondence p))) as [_|Hge]; [|lia].
  simpl. rewrite (get_Some _ _ _ Hrow). reflexivity.
Qed.

(** C2.  In every state of a projector, the call on a target fixel whose
    assignment list is empty succeeds and stores the fill value at that
    target's position of the output, whatever the metric and the two
    ambiguity flags are; the other positions keep their values. *)
Theorem empty_assignment_gets_fill_value (p : Projector) (i : nat) :
  reachable k p ->
  M (correspondence p) !! i = Some [] ->
  exists p', Projector_call k p i = Ok p' /\
    output_data p' !! i = Some (value (fill p)) /\
    forall j : nat, j <> i -> output_data p' !! j = output_data p !! j.
Proof.
  intros Hreach Hrow. pose proof (reachable_inv p Hreach) as Hinv.
  pose proof (lookup_lt_Some _ _ _ Hrow) as Hlt.
  fold (size (correspondence p)) in Hlt. rewrite <- (inv_output p Hinv) in Hlt.
  destruct (set_output_Ok p i (value (fill p)) Hlt) as (p' & Hset & Hout & _).
  exists p'. rewrite (Projector_call_empty p i Hrow). split; [exact Hset|].
  rewrite Hout. split.
  - apply list_lookup_insert_eq. exact Hlt.
  - intros j Hj. apply list_lookup_insert_ne. congruence.
Qed.

End ProjectorStates.

Section ProjectorCalls.
Import Correspondence Spec.
Variable k : Kernel.

(** Among the values an eight-bit counter takes, one is the only one whose
    implicit weight is not below 1. *)
Lemma implicit_weight_ltb_one (c : Z) :
  0 <= c < 256 -> F32.ltb (implicit_weight c) F32.one = negb (c =? 1).
Proof.
  intros Hc.
  assert (forallb (fun c => Bool.eqb (F32.ltb (implicit_weight c) F32.one) (negb (c =? 1)))
                  (seqZ 0 256) = true) as Hall by (vm_compute; reflexivity).
  rewrite forallb_forall in Hall.
  apply Bool.eqb_prop. apply Hall. apply list_elem_of_In.
  apply elem_of_seqZ. lia.
Qed.

Lemma uint8_t_range (z : Z) : 0 <= uint8_t z < 256.
Proof. unfold uint8_t. apply Z.mod_pos_bound. lia. Qed.

Lemma flags_one2many_spec p s :
  flags_one2many p s =
  nan_one2many (fill p) &&
  negb (uint8_t (hits (concat (M (correspondence p))) (Z.to_nat s)) =? 1).
Proof.
  unfold flags_one2many, stored_implicit_weight.
  rewrite implicit_weight_ltb_one by apply uint8_t_range. reflexivity.
Qed.

Lemma Projector_call_begin (p : Projector) i in_indices :
  M (correspondence p) !! i = Some in_indices ->
  in_indices <> [] ->
  Projector_call k p i =
    if (1 <? length in_indices)%nat && nan_many2one (fill p)
    then set_output p i F32.NaN
    else
      gathered ← gather p in_indices {| directions := []; values := []; weights := [] |};
      match gathered with
      | None => set_output p i F32.NaN
      | Some g =>
          result ← match metric p with
                   | SUM => Ok (metric_sum g)
                   | MEAN => Ok (metric_mean g)
                   | COUNT => Ok (metric_count in_indices)
                   | ANGLE =>
                       out_dir ← read (target_directions p) i;
                       mret (metric_angle k out_dir g)
                   end;
          set_output p i result
      end.
Proof.
  intros Hrow Hne. unfold Projector_call, assert_that.
  pose proof (lookup_lt_Some _ _ _ Hrow) as Hlt. fold (size (correspondence p)) in Hlt.
  destruct (Nat.ltb_spec i (size (correspondence p))) as [_|Hge]; [|lia].
  simpl. rewrite (get_Some _ _ _ Hrow). simpl.
  destruct in_indices as [|s rest]; [congruence|]. reflexivity.
Qed.

(** The call where the many-to-one policy applies. *)
Lemma Projector_call_many2one (p : Projector) i in_indices :
  M (correspondence p) !! i = Some in_indices ->
  (1 < length in_indices)%nat ->
  nan_many2one (fill p) = true ->
  Projector_call k p i = set_output p i F32.NaN.
Proof.
  intros Hrow Hlen Hflag.
  rewrite (Projector_call_begin p i in_indices Hrow) by (destruct in_indices; simpl in *; [lia|congruence]).
  destruct (Nat.ltb_spec 1 (length in_indices)) as [_|Hge]; [|lia].
  rewrite Hflag. reflexivity.
Qed.

Section Gather.
Variable p : Projector.
Hypothesis Hinv : Projector_inv p.

Lemma read_implicit_weight s :
  (Z.to_nat s < length (input_data p))%nat ->
  read (implicit_weights p) (Z.to_nat s) = Ok (stored_implicit_weight p s).
Proof.
  intros Hs. unfold read. rewrite (inv_implicit p Hinv).
  rewrite list_lookup_fmap, (lookup_counters _ _ _ Hs). reflexivity.
Qed.

Lemma read_input_data s :
  (Z.to_nat s < length (input_data p))%nat ->
  read (input_data p) (Z.to_nat s) = Ok (value_of p s).
Proof.
  intros Hs. unfold read, value_of.
  destruct (lookup_lt_is_Some_2 _ _ Hs) as [v ->]. reflexivity.
Qed.

Lemma read_input_directions s :
  (Z.to_nat s < length (input_data p))%nat ->
  read (input_directions p) (Z.to_nat s) = Ok (direction_of p s).
Proof.
  intros Hs. unfold read, direction_of.
  assert (Z.to_nat s < length (input_directions p))%nat as Hs'
    by (rewrite (inv_directions p Hinv); exact Hs).
  destruct (lookup_lt_is_Some_2 _ _ Hs') as [v ->]. reflexivity.
Qed.

Lemma read_weight s :
  (Z.to_nat s < length (input_data p))%nat ->
  match explicit_weights p with
  | Some e => ew ← read e (Z.to_nat s); mret (F32.mul (stored_implicit_weight p s) ew)
  | None => Ok (stored_implicit_weight p s)
  end = Ok (stored_weight p s).
Proof.
  intros Hs. unfold stored_weight.
  destruct (explicit_weights p) as [e|] eqn:He; [|reflexivity].
  pose proof (inv_explicit p Hinv e He) as Hlen. unfold read.
  rewrite <- Hlen in Hs. destruct (lookup_lt_is_Some_2 _ _ Hs) as [v ->]. reflexivity.
Qed.

(** The loop runs to its end when no source makes it leave. *)
Lemma gather_all in_indices : forall acc,
  Forall (fun s => (Z.to_nat s < length (input_data p))%nat) in_indices ->
  Forall (fun s => flags_one2many p s = false) in_indices ->
  gather p in_indices acc =
    Ok (Some {| directions := directions acc ++ map (direction_of p) in_indices;
                values := values acc ++ map (value_of p) in_indices;
                weights := weights acc ++ map (stored_weight p) in_indices |}).
Proof.
  induction in_indices as [|s rest IH]; intros acc Hrange Hflags.
  - simpl. rewrite !app_nil_r. destruct acc; reflexivity.
  - inversion Hrange as [|? ? Hs Hrange']; subst.
    inversion Hflags as [|? ? Hflag Hflags']; subst.
    simpl. rewrite (read_implicit_weight s Hs). simpl.
    unfold flags_one2many in Hflag. rewrite Hflag.
    rewrite (read_input_directions s Hs). simpl.
    rewrite (read_input_data s Hs). simpl.
    rewrite (read_weight s Hs). simpl.
    rewrite (IH _ Hrange' Hflags'). simpl.
    rewrite <- !(assoc_L (++)). reflexivity.
Qed.

(** The loop leaves as soon as one source passes the test. *)
Lemma gather_exit in_indices : forall acc,
  Forall (fun s => (Z.to_nat s < length (input_data p))%nat) in_indices ->
  Exists (fun s => flags_one2many p s = true) in_indices ->
  gather p in_indices acc = Ok None.
Proof.
  induction in_indices as [|s rest IH]; intros acc Hrange Hflags.
  - inversion Hflags.
  - inversion Hrange as [|? ? Hs Hrange']; subst.
    simpl. rewrite (read_implicit_weight s Hs). simpl.
    destruct (flags_one2many p s) eqn:Hflag.
    + unfold flags_one2many in Hflag. rewrite Hflag. reflexivity.
    + assert (Exists (fun s => flags_one2many p s = true) rest) as Hrest.
      { inversion Hflags as [? ? Hhere|? ? Hthere]; subst; [congruence|exact Hthere]. }
      unfold flags_one2many in Hflag. rewrite Hflag.
      rewrite (read_input_directions s Hs). simpl.
      rewrite (read_input_data s Hs). simpl.
      rewrite (read_weight s Hs). simpl.
      apply IH; assumption.
Qed.

Lemma in_indices_in_range i in_indices :
  M (correspondence p) !! i = Some in_indices ->
  Forall (fun s => (Z.to_nat s < length (input_data p))%nat) in_indices.
Proof.
  intros Hrow. pose proof (inv_indices p Hinv) as Hall.
  rewrite Forall_lookup in Hall. exact (Hall i in_indices Hrow).
Qed.

(** The call where some source of the target passes the one-to-many test. *)
Lemma Projector_call_one2many i in_indices :
  M (correspondence p) !! i = Some in_indices ->
  Exists (fun s => flags_one2many p s = true) in_indices ->
  Projector_call k p i = set_output p i F32.NaN.
Proof.
  intros Hrow Hflags.
  rewrite (Projector_call_begin p i in_indices Hrow) by (intros ->; inversion Hflags).
  destruct ((1 <? length in_indices)%nat && nan_many2one (fill p)); [reflexivity|].
  rewrite (gather_exit _ _ (in_indices_in_range i in_indices Hrow) Hflags).
  reflexivity.
Qed.

(** The call where neither policy applies. *)
Lemma Projector_call_aggregate i in_indices :
  M (correspondence p) !! i = Some in_indices ->
  in_indices <> [] ->
  (1 <? length in_indices)%nat && nan_many2one (fill p) = false ->
  Forall (fun s => flags_one2many p s = false) in_indices ->
  Projector_call k p i =
    match metric p with
    | SUM => set_output p i (metric_sum (gathered_of p in_indices))
    | MEAN => set_output p i (metric_mean (gathered_of p in_indices))
    | COUNT => set_output p i (metric_count in_indices)
    | ANGLE =>
        out_dir ← read (target_directions p) i;
        set_output p i (metric_angle k out_dir (gathered_of p in_indices))
    end.
Proof.
  intros Hrow Hne Hmany Hflags.
  rewrite (Projector_call_begin p i in_indices Hrow Hne), Hmany.
  rewrite (gather_all _ _ (in_indices_in_range i in_indices Hrow) Hflags).
  simpl. fold (gathered_of p in_indices).
  destruct (metric p); try reflexivity.
  simpl. destruct (read (target_directions p) i); reflexivity.
Qed.

End Gather.

End ProjectorCalls.

Section ProjectorClaims.
Import Correspondence Spec.
Variable k : Kernel.

Lemma foldl_zip_map {A B C D : Type} (f : A -> B * C -> A) (g : D -> B) (h : D -> C)
    (l : list D) : forall a,
  foldl f a (zip (map g l) (map h l)) = foldl (fun a s => f a (g s, h s)) a l.
Proof. induction l as [|s l IH]; intros a; [reflexivity|]. simpl. apply IH. Qed.

Lemma foldl_ext_in {A B : Type} (f g : A -> B -> A) (l : list B) : forall a,
  (forall a s, s ∈ l -> f a s = g a s) -> foldl f a l = foldl g a l.
Proof.
  induction l as [|s l IH]; intros a Hfg; [reflexivity|].
  simpl. rewrite (Hfg a s) by apply list_elem_of_here.
  apply IH. intros a' s' Hs'. apply Hfg. apply list_elem_of_further. exact Hs'.
Qed.

Lemma foldl_pair {A B C : Type} (f : A -> C -> A) (g : B -> C -> B) (l : list C) :
  forall a b,
  foldl (fun acc s => (f (fst acc) s, g (snd acc) s)) (a, b) l = (foldl f a l, foldl g b l).
Proof. induction l as [|s l IH]; intros a b; [reflexivity|]. simpl. apply IH. Qed.

Lemma metric_sum_gathered p (count : Z -> Z) in_indices :
  (forall s, s ∈ in_indices -> stored_weight p s = weight_by count p s) ->
  metric_sum (gathered_of p in_indices) = weighted_sum_by count p in_indices.
Proof.
  intros Hw. unfold metric_sum, gathered_of, weighted_sum_by. simpl.
  rewrite foldl_zip_map. simpl. apply foldl_ext_in.
  intros a s Hs. rewrite (Hw s Hs). reflexivity.
Qed.

Lemma metric_mean_gathered p (count : Z -> Z) in_indices :
  (forall s, s ∈ in_indices -> stored_weight p s = weight_by count p s) ->
  metric_mean (gathered_of p in_indices) =
  F32.div (weighted_sum_by count p in_indices) (sum_of_weights_by count p in_indices).
Proof.
  intros Hw. unfold metric_mean, gathered_of, weighted_sum_by, sum_of_weights_by. simpl.
  rewrite foldl_zip_map. simpl.
  rewrite (foldl_pair
             (fun acc s => F32.add acc (F32.mul (value_of p s) (stored_weight p s)))
             (fun acc s => F32.add acc (stored_weight p s))).
  f_equal; apply foldl_ext_in; intros a s Hs; rewrite (Hw s Hs); reflexivity.
Qed.

Lemma occurrences_listed rows i row s :
  rows !! i = Some row -> s ∈ row -> 1 <= occurrences rows s.
Proof.
  intros Hrow Hs. unfold occurrences.
  assert (s ∈ filter (fun e => e = s) (concat rows)) as Hin.
  { apply list_elem_of_filter. split; [reflexivity|].
    apply list_elem_of_In, in_concat. exists row.
    split; apply list_elem_of_In; [|exact Hs].
    apply list_elem_of_lookup. exists i. exact Hrow. }
  destruct (filter (fun e => e = s) (concat rows)); [inversion Hin|simpl; lia].
Qed.

Lemma entry_nonneg rows i row s :
  uint32_entries rows -> rows !! i = Some row -> s ∈ row -> 0 <= s.
Proof.
  intros Hrows Hrow Hs. unfold uint32_entries in Hrows.
  rewrite Forall_lookup in Hrows. pose proof (Hrows i row Hrow) as Hall.
  rewrite Forall_forall in Hall. apply (Hall s Hs).
Qed.

(** Where the eight-bit counter has not wrapped, the weight the constructor
    stored is one over the number of times the source is listed. *)
Lemma stored_weight_occurrences p i in_indices s :
  uint32_entries (M (correspondence p)) ->
  M (correspondence p) !! i = Some in_indices ->
  s ∈ in_indices ->
  occurrences (M (correspondence p)) s < 256 ->
  stored_weight p s = weight_by (occurrences (M (correspondence p))) p s.
Proof.
  intros Hrows Hrow Hs Hlt.
  pose proof (occurrences_listed _ _ _ _ Hrow Hs) as Hge.
  pose proof (entry_nonneg _ _ _ _ Hrows Hrow Hs) as Hnonneg.
  unfold stored_weight, weight_by, stored_implicit_weight.
  rewrite (hits_occurrences _ _ Hrows Hnonneg).
  unfold uint8_t. rewrite Z.mod_small by lia.
  unfold implicit_weight.
  destruct (Z.eqb_spec (occurrences (M (correspondence p)) s) 0) as [Heq|_]; [lia|].
  reflexivity.
Qed.

Lemma flags_one2many_false p i in_indices :
  uint32_entries (M (correspondence p)) ->
  M (correspondence p) !! i = Some in_indices ->
  (nan_one2many (fill p) = false \/
   forall s, s ∈ in_indices -> occurrences (M (correspondence p)) s = 1) ->
  Forall (fun s => flags_one2many p s = false) in_indices.
Proof.
  intros Hrows Hrow Hflag. apply Forall_forall. intros s Hs.
  rewrite flags_one2many_spec.
  destruct Hflag as [-> | Hone]; [reflexivity|].
  rewrite (hits_occurrences _ _ Hrows (entry_nonneg _ _ _ _ Hrows Hrow Hs)).
  rewrite (Hone s Hs). change (uint8_t 1 =? 1) with true.
  simpl. apply andb_false_r.
Qed.

Lemma many2one_false p (in_indices : list Z) :
  (nan_many2one (fill p) = false \/ length in_indices = 1%nat) ->
  (1 <? length in_indices)%nat && nan_many2one (fill p) = false.
Proof.
  intros [-> | ->]; [apply andb_false_r|reflexivity].
Qed.

(** X7.  Where a policy applies, the sentinel is stored: in every state of
    a projector the call stores NaN under [nan_many2one] for a target with
    more than one source, and under [nan_one2many] for a target one of
    whose sources has an eight-bit count other than 1. *)
Lemma ambiguity_sentinels (p : Projector) (i : nat) (in_indices : list Z) :
  reachable k p ->
  uint32_entries (M (correspondence p)) ->
  M (correspondence p) !! i = Some in_indices ->
  (nan_many2one (fill p) = true /\ (1 < length in_indices)%nat) \/
  (nan_one2many (fill p) = true /\
   exists s, s ∈ in_indices /\ uint8_t (occurrences (M (correspondence p)) s) <> 1) ->
  exists p', Projector_call k p i = Ok p' /\ output_data p' !! i = Some F32.NaN.
Proof.
  intros Hreach Hrows Hrow Hpolicy. pose proof (reachable_inv k p Hreach) as Hinv.
  pose proof (lookup_lt_Some _ _ _ Hrow) as Hlt.
  fold (size (correspondence p)) in Hlt. rewrite <- (inv_output p Hinv) in Hlt.
  destruct (set_output_Ok p i F32.NaN Hlt) as (p' & Hset & Hout & _).
  exists p'. split.
  - destruct Hpolicy as [[Hflag Hlen]|[Hflag (s & Hs & Hcount)]].
    + rewrite (Projector_call_many2one k p i in_indices Hrow Hlen Hflag). exact Hset.
    + rewrite (Projector_call_one2many k p Hinv i in_indices Hrow); [exact Hset|].
      apply Exists_exists. exists s. split; [exact Hs|].
      rewrite flags_one2many_spec, Hflag.
      rewrite (hits_occurrences _ _ Hrows (entry_nonneg _ _ _ _ Hrows Hrow Hs)).
      simpl. apply negb_true_iff. apply Z.eqb_neq. exact Hcount.
  - rewrite Hout. apply list_lookup_insert_eq. exact Hlt.
Qed.

(** C3, at the input that shows the defect.  Source fixel 0 feeds 257
    targets; the eight-bit counter of the constructor wraps to 1, the
    implicit weight is 1, and under [nan_one2many] the call on target 0
    stores the sum, 2, where the policy asks for the sentinel. *)
Theorem nan_one2many_missed_at_fan_out_257 :
  exists p p',
    Projector_new Examples.one_source Examples.fan_out_257 SUM
      (Examples.fill_with_zero false true) None (replicate 257 Examples.along_z) = Ok p /\
    M (correspondence p) !! 0%nat = Some [0] /\
    M (correspondence p) !! 1%nat = Some [0] /\
    nan_one2many (fill p) = true /\
    Projector_call k p 0 = Ok p' /\
    output_data p' !! 0%nat = Some Examples.two.
Proof.
  eexists. eexists.
  split; [vm_compute; reflexivity|].
  split; [reflexivity|]. split; [reflexivity|]. split; [reflexivity|].
  split; [vm_compute; reflexivity|].
  vm_compute. reflexivity.
Qed.

(** What the code computes.  In every state of a projector, for a target
    with a non-empty list on which neither policy stores the sentinel, and
    whose sources are each listed fewer than 256 times over all targets:
    the weight gathered for a source is 1 over the number of times it is
    listed, times its explicit weight when explicit weights are supplied;
    SUM stores the running sum of value times weight, and MEAN that sum
    over the running sum of the weights. *)
Theorem contribution_weighted_by_occurrences
    (p : Projector) (i : nat) (in_indices : list Z) :
  reachable k p ->
  uint32_entries (M (correspondence p)) ->
  M (correspondence p) !! i = Some in_indices ->
  in_indices <> [] ->
  (nan_many2one (fill p) = false \/ length in_indices = 1%nat) ->
  (nan_one2many (fill p) = false \/
   forall s, s ∈ in_indices -> occurrences (M (correspondence p)) s = 1) ->
  (forall s, s ∈ in_indices -> occurrences (M (correspondence p)) s < 256) ->
  let count := occurrences (M (correspondence p)) in
  gather p in_indices {| directions := []; values := []; weights := [] |} =
    Ok (Some {| directions := map (direction_of p) in_indices;
                values := map (value_of p) in_indices;
                weights := map (weight_by count p) in_indices |}) /\
  exists p', Projector_call k p i = Ok p' /\
    (metric p = SUM ->
     output_data p' !! i = Some (weighted_sum_by count p in_indices)) /\
    (metric p = MEAN ->
     output_data p' !! i =
       Some (F32.div (weighted_sum_by count p in_indices)
                     (sum_of_weights_by count p in_indices))).
Proof.
  intros Hreach Hrows Hrow Hne Hmany Hone Hcount count.
  pose proof (reachable_inv k p Hreach) as Hinv.
  pose proof (flags_one2many_false p i in_indices Hrows Hrow Hone) as Hflags.
  assert (forall s, s ∈ in_indices -> stored_weight p s = weight_by count p s) as Hw.
  { intros s Hs. apply (stored_weight_occurrences p i in_indices s Hrows Hrow Hs).
    exact (Hcount s Hs). }
  split.
  - rewrite (gather_all p Hinv in_indices _
               (in_indices_in_range p Hinv i in_indices Hrow) Hflags).
    simpl. do 3 f_equal. apply map_ext_in. intros s Hs. apply Hw.
    apply list_elem_of_In. exact Hs.
  - pose proof (lookup_lt_Some _ _ _ Hrow) as Hlt.
    fold (size (correspondence p)) in Hlt.
    assert (i < length (output_data p))%nat as Hout by (rewrite (inv_output p Hinv); exact Hlt).
    rewrite (Projector_call_aggregate k p Hinv i in_indices Hrow Hne
               (many2one_false p in_indices Hmany) Hflags).
    destruct (metric p) eqn:Hmetric.
    + destruct (set_output_Ok p i (metric_sum (gathered_of p in_indices)) Hout)
        as (p' & Hset & Hdata & _).
      exists p'. split; [exact Hset|]. split; [|discriminate].
      intros _. rewrite Hdata, list_lookup_insert_eq by exact Hout.
      rewrite (metric_sum_gathered p count in_indices Hw). reflexivity.
    + destruct (set_output_Ok p i (metric_mean (gathered_of p in_indices)) Hout)
        as (p' & Hset & Hdata & _).
      exists p'. split; [exact Hset|]. split; [discriminate|].
      intros _. rewrite Hdata, list_lookup_insert_eq by exact Hout.
      rewrite (metric_mean_gathered p count in_indices Hw). reflexivity.
    + destruct (set_output_Ok p i (metric_count in_indices) Hout) as (p' & Hset & _).
      exists p'. split; [exact Hset|]. split; discriminate.
    + assert (i < length (target_directions p))%nat as Htarget
        by (rewrite (inv_targets p Hinv); exact Hlt).
      destruct (lookup_lt_is_Some_2 _ _ Htarget) as [out_dir Hdir].
      unfold read. rewrite Hdir. simpl.
      destruct (set_output_Ok p i (metric_angle k out_dir (gathered_of p in_indices)) Hout)
        as (p' & Hset & _).
      exists p'. split; [exact Hset|]. split; discriminate.
Qed.

(** A list that names no source twice counts once for each source it
    names. *)
Lemma occurrences_in_row (row : list Z) (s : Z) :
  NoDup row ->
  length (filter (fun e => e = s) row) = if decide (s ∈ row) then 1%nat else 0%nat.
Proof.
  induction row as [|e row IH]; intros Hrow.
  - destruct (decide (s ∈ [])) as [Hin|_]; [inversion Hin|reflexivity].
  - apply NoDup_cons in Hrow. destruct Hrow as [He Hrow].
    rewrite filter_cons. destruct (decide (e = s)) as [->|Hne].
    + simpl. rewrite (IH Hrow).
      destruct (decide (s ∈ row)) as [Hin|_]; [contradiction|].
      destruct (decide (s ∈ s :: row)) as [_|Hnot]; [reflexivity|].
      exfalso. apply Hnot. left.
    + rewrite (IH Hrow).
      destruct (decide (s ∈ row)) as [Hin|Hnot];
        destruct (decide (s ∈ e :: row)) as [Hin'|Hnot']; try reflexivity.
      * exfalso. apply Hnot'. right. exact Hin.
      * exfalso. apply elem_of_cons in Hin'. destruct Hin' as [Heq|Hin']; [|contradiction].
        apply Hne. symmetry. exact Heq.
Qed.

(** Where no list names a source twice, a source is listed as many times
    as it has targets: the number of entries is the fan-out. *)
Lemma occurrences_fan_out (rows : list (list Z)) (s : Z) :
  Forall (fun row => NoDup row) rows -> occurrences rows s = fan_out rows s.
Proof.
  intros Hrows. unfold occurrences, fan_out. f_equal.
  induction rows as [|row rows IH]; [reflexivity|].
  pose proof (Forall_inv Hrows) as Hrow. pose proof (Forall_inv_tail Hrows) as Hrows'.
  cbv beta in Hrow.
  change (concat (row :: rows)) with (row ++ concat rows).
  rewrite filter_app, length_app, (IH Hrows'), (occurrences_in_row row s Hrow).
  rewrite filter_cons.
  destruct (decide (s ∈ row)); reflexivity.
Qed.

Lemma weight_by_ext (count count' : Z -> Z) (p : Projector) (s : Z) :
  count s = count' s -> weight_by count p s = weight_by count' p s.
Proof. intros Heq. unfold weight_by. rewrite Heq. reflexivity. Qed.

Lemma weighted_sum_by_ext (count count' : Z -> Z) (p : Projector) (l : list Z) :
  (forall s, count s = count' s) ->
  weighted_sum_by count p l = weighted_sum_by count' p l /\
  sum_of_weights_by count p l = sum_of_weights_by count' p l /\
  map (weight_by count p) l = map (weight_by count' p) l.
Proof.
  intros Heq. unfold weighted_sum_by, sum_of_weights_by.
  split; [|split].
  - apply foldl_ext_in. intros a s _. rewrite (weight_by_ext count count' p s (Heq s)).
    reflexivity.
  - apply foldl_ext_in. intros a s _. rewrite (weight_by_ext count count' p s (Heq s)).
    reflexivity.
  - apply map_ext. intros s. apply weight_by_ext, Heq.
Qed.

(** Where the weight is 1 over the fan-out.  When no list of the
    correspondence names a source twice and every source of the target
    feeds fewer than 256 targets, the weight gathered for a source is 1
    over its fan-out, times its explicit weight when explicit weights are
    supplied, and SUM and MEAN accumulate the values with these weights. *)
Lemma contribution_weighted_by_fan_out
    (p : Projector) (i : nat) (in_indices : list Z) :
  reachable k p ->
  uint32_entries (M (correspondence p)) ->
  Forall (fun row => NoDup row) (M (correspondence p)) ->
  M (correspondence p) !! i = Some in_indices ->
  in_indices <> [] ->
  (nan_many2one (fill p) = false \/ length in_indices = 1%nat) ->
  (nan_one2many (fill p) = false \/
   forall s, s ∈ in_indices -> fan_out (M (correspondence p)) s = 1) ->
  (forall s, s ∈ in_indices -> fan_out (M (correspondence p)) s < 256) ->
  let count := fan_out (M (correspondence p)) in
  gather p in_indices {| directions := []; values := []; weights := [] |} =
    Ok (Some {| directions := map (direction_of p) in_indices;
                values := map (value_of p) in_indices;
                weights := map (weight_by count p) in_indices |}) /\
  exists p', Projector_call k p i = Ok p' /\
    (metric p = SUM ->
     output_data p' !! i = Some (weighted_sum_by count p in_indices)) /\
    (metric p = MEAN ->
     output_data p' !! i =
       Some (F32.div (weighted_sum_by count p in_indices)
                     (sum_of_weights_by count p in_indices))).
Proof.
  intros Hreach Hrows Hnodup Hrow Hne Hmany Hone Hcount count.
  pose proof (occurrences_fan_out (M (correspondence p))) as Heq.
  assert (forall s, occurrences (M (correspondence p)) s = count s) as Hsame
    by (intros s; apply Heq; exact Hnodup).
  destruct (weighted_sum_by_ext (occurrences (M (correspondence p))) count p in_indices Hsame)
    as (Hsum & Hweights & Hmap).
  rewrite <- Hsum, <- Hweights, <- Hmap.
  apply (contribution_weighted_by_occurrences p i in_indices Hreach Hrows Hrow Hne Hmany).
  - destruct Hone as [Hoff|Hone]; [left; exact Hoff|right].
    intros s Hs. rewrite Hsame. exact (Hone s Hs).
  - intros s Hs. rewrite Hsame. exact (Hcount s Hs).
Qed.

(** C8, as amended.  In every state of a projector, for a target whose list
    holds exactly two sources, of values 2 and 4, each listed nowhere else,
    without explicit weights and with the [nan_many2one] policy off: the
    call stores 3 under MEAN, 6 under SUM and 2 under COUNT. *)
Theorem two_sources_2_and_4 (p : Projector) (i : nat) (a b : Z) :
  reachable k p ->
  uint32_entries (M (correspondence p)) ->
  M (correspondence p) !! i = Some [a; b] ->
  (input_data p !! Z.to_nat a = Some Examples.two /\
   input_data p !! Z.to_nat b = Some Examples.four) \/
  (input_data p !! Z.to_nat a = Some Examples.four /\
   input_data p !! Z.to_nat b = Some Examples.two) ->
  occurrences (M (correspondence p)) a = 1 ->
  occurrences (M (correspondence p)) b = 1 ->
  explicit_weights p = None ->
  nan_many2one (fill p) = false ->
  exists p', Projector_call k p i = Ok p' /\
    (metric p = MEAN -> output_data p' !! i = Some Examples.three) /\
    (metric p = SUM -> output_data p' !! i = Some Examples.six) /\
    (metric p = COUNT -> output_data p' !! i = Some Examples.two).
Proof.
  intros Hreach Hrows Hrow Hvalues Ha Hb Hexplicit Hmany.
  pose proof (reachable_inv k p Hreach) as Hinv.
  assert (forall s, s ∈ [a; b] -> occurrences (M (correspondence p)) s = 1) as Hone.
  { intros s Hs. apply list_elem_of_In in Hs. simpl in Hs.
    destruct Hs as [<-|[<-|[]]]; assumption. }
  pose proof (flags_one2many_false p i [a; b] Hrows Hrow (or_intror Hone)) as Hflags.
  assert (forall s, s ∈ [a; b] -> stored_weight p s = F32.one) as Hw.
  { intros s Hs.
    rewrite (stored_weight_occurrences p i [a; b] s Hrows Hrow Hs)
      by (rewrite (Hone s Hs); lia).
    unfold weight_by. rewrite Hexplicit, (Hone s Hs). reflexivity. }
  pose proof (lookup_lt_Some _ _ _ Hrow) as Hlt.
  fold (size (correspondence p)) in Hlt.
  assert (i < length (output_data p))%nat as Hout by (rewrite (inv_output p Hinv); exact Hlt).
  rewrite (Projector_call_aggregate k p Hinv i [a; b] Hrow ltac:(discriminate)
             (many2one_false p [a; b] (or_introl Hmany)) Hflags).
  assert (metric_sum (gathered_of p [a; b]) = Examples.six /\
          metric_mean (gathered_of p [a; b]) = Examples.three) as [Hsum Hmean].
  { unfold metric_sum, metric_mean, gathered_of. simpl.
    rewrite (Hw a) by (apply list_elem_of_here).
    rewrite (Hw b) by (apply list_elem_of_further, list_elem_of_here).
    unfold value_of.
    destruct Hvalues as [[-> ->]|[-> ->]]; split; vm_compute; reflexivity. }
  destruct (metric p) eqn:Hmetric.
  - destruct (set_output_Ok p i (metric_sum (gathered_of p [a; b])) Hout)
      as (p' & Hset & Hdata & _).
    exists p'. split; [exact Hset|].
    split; [discriminate|]. split; [|discriminate].
    intros _. rewrite Hdata, list_lookup_insert_eq by exact Hout.
    rewrite Hsum. reflexivity.
  - destruct (set_output_Ok p i (metric_mean (gathered_of p [a; b])) Hout)
      as (p' & Hset & Hdata & _).
    exists p'. split; [exact Hset|].
    split; [|split; discriminate].
    intros _. rewrite Hdata, list_lookup_insert_eq by exact Hout.
    rewrite Hmean. reflexivity.
  - destruct (set_output_Ok p i (metric_count [a; b]) Hout) as (p' & Hset & Hdata & _).
    exists p'. split; [exact Hset|].
    split; [discriminate|]. split; [discriminate|].
    intros _. rewrite Hdata, list_lookup_insert_eq by exact Hout. reflexivity.
  - assert (i < length (target_directions p))%nat as Htarget
      by (rewrite (inv_targets p Hinv); exact Hlt).
    destruct (lookup_lt_is_Some_2 _ _ Htarget) as [out_dir Hdir].
    unfold read. rewrite Hdir. simpl.
    destruct (set_output_Ok p i (metric_angle k out_dir (gathered_of p [a; b])) Hout)
      as (p' & Hset & _).
    exists p'. split; [exact Hset|]. repeat split; discriminate.
Qed.

End ProjectorClaims.

Section ProjectorInstances.
Import Correspondence Spec Examples.

Lemma empty_assignment_gets_fill_value_witness :
  exists p,
    Projector_new two_sources pair_to_one ANGLE (fill_with_zero true true) None
      [along_z; along_z] = Ok p /\
    exists p', Projector_call no_kernel p 1 = Ok p' /\
      output_data p' !! 1%nat = Some (value (fill p)) /\
      forall j : nat, j <> 1%nat -> output_data p' !! j = output_data p !! j.
Proof.
  eexists. split; [vm_compute; reflexivity|].
  apply (empty_assignment_gets_fill_value no_kernel _ 1).
  - apply (reachable_new no_kernel two_sources pair_to_one ANGLE
             (fill_with_zero true true) None [along_z; along_z]).
    vm_compute. reflexivity.
  - reflexivity.
Defined.

(** C4, at the input that shows the defect.  The one target lists source
    0 twice: source 0 feeds one target, its fan-out is 1, the stated
    weight is 1 and the stated sum is 2 * 1 + 2 * 1 = 4.  The constructor
    counts the entries of the lists where its comment speaks of the number
    of output fixels to which each input fixel maps: it counts 2, the
    weight is 1/2, and with neither policy set the call stores the sum
    2 * 1/2 + 2 * 1/2 = 2. *)
Theorem repeated_entry_halves_the_weight :
  exists p p',
    Projector_new one_source listed_twice SUM (fill_with_zero false false) None
      [along_z] = Ok p /\
    M (correspondence p) = [[0; 0]] /\
    nan_many2one (fill p) = false /\ nan_one2many (fill p) = false /\
    fan_out (M (correspondence p)) 0 = 1 /\
    occurrences (M (correspondence p)) 0 = 2 /\
    weighted_sum_by (fan_out (M (correspondence p))) p [0; 0] = four /\
    Projector_call no_kernel p 0 = Ok p' /\
    output_data p' !! 0%nat = Some two.
Proof.
  eexists. eexists.
  split; [vm_compute; reflexivity|].
  split; [reflexivity|]. split; [reflexivity|]. split; [reflexivity|].
  split; [vm_compute; reflexivity|].
  split; [vm_compute; reflexivity|].
  split; [vm_compute; reflexivity|].
  split; vm_compute; reflexivity.
Qed.

Lemma contribution_weighted_by_occurrences_witness :
  exists p,
    Projector_new two_sources pair_to_one MEAN (fill_with_zero false true) None
      [along_z; along_z] = Ok p /\
    let count := occurrences (M (correspondence p)) in
    gather p [0; 1] {| directions := []; values := []; weights := [] |} =
      Ok (Some {| directions := map (direction_of p) [0; 1];
                  values := map (value_of p) [0; 1];
                  weights := map (weight_by count p) [0; 1] |}) /\
    exists p', Projector_call no_kernel p 0 = Ok p' /\
      (metric p = SUM ->
       output_data p' !! 0%nat = Some (weighted_sum_by count p [0; 1])) /\
      (metric p = MEAN ->
       output_data p' !! 0%nat =
         Some (F32.div (weighted_sum_by count p [0; 1])
                       (sum_of_weights_by count p [0; 1]))).
Proof.
  eexists. split; [vm_compute; reflexivity|].
  apply (contribution_weighted_by_occurrences no_kernel _ 0 [0; 1]).
  - apply (reachable_new no_kernel two_sources pair_to_one MEAN
             (fill_with_zero false true) None [along_z; along_z]).
    vm_compute. reflexivity.
  - unfold uint32_entries. simpl. repeat constructor; lia.
  - reflexivity.
  - discriminate.
  - left. reflexivity.
  - right. intros s Hs. apply list_elem_of_In in Hs. simpl in Hs.
    destruct Hs as [<-|[<-|[]]]; reflexivity.
  - intros s Hs. apply list_elem_of_In in Hs. simpl in Hs.
    destruct Hs as [<-|[<-|[]]]; reflexivity.
Defined.

(** C8, as stated, fails under the [nan_many2one] policy: the target has
    two sources, of values 2 and 4, each listed nowhere else; under MEAN
    the call stores the sentinel, not 3. *)
Lemma two_sources_counterexample :
  exists p p',
    Projector_new two_sources pair_to_one MEAN (fill_with_zero true false) None
      [along_z; along_z] = Ok p /\
    M (correspondence p) !! 0%nat = Some [0; 1] /\
    input_data p = [two; four] /\
    occurrences (M (correspondence p)) 0 = 1 /\
    occurrences (M (correspondence p)) 1 = 1 /\
    explicit_weights p = None /\
    Projector_call no_kernel p 0 = Ok p' /\
    output_data p' !! 0%nat = Some F32.NaN.
Proof.
  eexists. eexists.
  split; [vm_compute; reflexivity|].
  repeat split; vm_compute; reflexivity.
Qed.

Lemma two_sources_2_and_4_witness :
  exists p,
    Projector_new two_sources pair_to_one MEAN (fill_with_zero false true) None
      [along_z; along_z] = Ok p /\
    exists p', Projector_call no_kernel p 0 = Ok p' /\
      (metric p = MEAN -> output_data p' !! 0%nat = Some three) /\
      (metric p = SUM -> output_data p' !! 0%nat = Some six) /\
      (metric p = COUNT -> output_data p' !! 0%nat = Some two).
Proof.
  eexists. split; [vm_compute; reflexivity|].
  apply (two_sources_2_and_4 no_kernel _ 0 0 1).
  - apply (reachable_new no_kernel two_sources pair_to_one MEAN
             (fill_with_zero false true) None [along_z; along_z]).
    vm_compute. reflexivity.
  - unfold uint32_entries. simpl. repeat constructor; lia.
  - reflexivity.
  - left. split; reflexivity.
  - reflexivity.
  - reflexivity.
  - reflexivity.
  - reflexivity.
Defined.

End ProjectorInstances.

(** ** mrthreshold *)

Section Threshold.
Import mrthreshold ThresholdSpec.

Lemma num_explicit_mechanisms_usable (cl : CommandLine) :
  num_explicit_mechanisms (get_option_value (opt_abs cl) NaN)
                          (get_option_value (opt_percentile cl) NaN)
                          (get_option_value (opt_bottom cl) (-1))
                          (get_option_value (opt_top cl) (-1))
  = usable_mechanisms cl.
Proof.
  unfold num_explicit_mechanisms, usable_mechanisms, given_finite, given_count.
  destruct (opt_abs cl), (opt_percentile cl), (opt_bottom cl), (opt_top cl);
    reflexivity.
Qed.

(** C9, as stated, fails: with [-abs nan -top 5] two mechanisms are on the
    command line, yet [run] does not throw and goes on to open the input
    image and to threshold it. *)
Lemma two_mechanisms_counterexample :
  requested_mechanisms abs_nan_top_5 = 2 /\
  run abs_nan_top_5 real_image =
    ([Header_open "in.mif"; get_image; get_mask None; execute false "out.mif"], Ok tt).
Proof. split; reflexivity. Qed.

(** C9, as amended.  When two or more of the four options come with a value
    that selects a threshold (finite for -abs and -percentile, not negative
    for -bottom and -top), [run] throws its error about more than one
    mechanism and has done nothing before: the input image is not opened and
    no output is created. *)
Theorem more_than_one_mechanism_throws (cl : CommandLine) (env : Environment) :
  2 <= usable_mechanisms cl ->
  run cl env = ([], Throw too_many).
Proof.
  intros Htwo. unfold run. rewrite num_explicit_mechanisms_usable.
  destruct (Z.ltb_spec 1 (usable_mechanisms cl)) as [_|Hle]; [reflexivity|lia].
Qed.

Lemma more_than_one_mechanism_throws_witness :
  run percentile_50_top_5 real_image = ([], Throw too_many).
Proof.
  apply (more_than_one_mechanism_throws percentile_50_top_5 real_image).
  vm_compute. discriminate.
Defined.

End Threshold.

(** ** Rounding of binary32 products *)

Section Shifts.

Lemma shr_m_shr_1 (mrs : shr_record) :
  0 <= shr_m mrs ->
  shr_m (shr_1 mrs) = shr_m mrs / 2 /\
  (shr_r (shr_1 mrs) = false <-> shr_m mrs mod 2 = 0) /\
  shr_s (shr_1 mrs) = shr_r mrs || shr_s mrs.
Proof.
  destruct mrs as [m r s]. simpl. intros Hm.
  destruct m as [|p|p]; [| |lia].
  - simpl. repeat split; reflexivity.
  - destruct p as [p|p|]; simpl shr_m; simpl shr_r; simpl shr_s.
    + split; [|split; [|reflexivity]].
      * rewrite Pos2Z.inj_xI. apply (Z.div_unique _ 2 _ 1); lia.
      * rewrite Pos2Z.inj_xI. rewrite Z.add_comm, Z.mul_comm, Z.mod_add by lia.
        split; discriminate.
    + split; [|split; [|reflexivity]].
      * rewrite Pos2Z.inj_xO. rewrite Z.mul_comm. symmetry. apply Z.div_mul. lia.
      * rewrite Pos2Z.inj_xO. rewrite Z.mul_comm, Z.mod_mul by lia. split; reflexivity.
    + split; [|split; [|reflexivity]]; [reflexivity|]. split; discriminate.
Qed.

Lemma shifted_shr_1 (m k : Z) (mrs : shr_record) :
  0 <= m -> 0 <= k -> shifted m k mrs -> shifted m (k + 1) (shr_1 mrs).
Proof.
  intros Hm Hk [Hq Hexact].
  assert (0 < 2 ^ k) as Hpow by (apply Z.pow_pos_nonneg; lia).
  assert (0 <= shr_m mrs) as Hnonneg by (rewrite Hq; apply Z.div_pos; lia).
  destruct (shr_m_shr_1 mrs Hnonneg) as (Hm1 & Hr1 & Hs1).
  unfold shifted. rewrite Z.pow_add_r, Z.pow_1_r by lia. split.
  - rewrite Hm1, Hq. apply Z.div_div; lia.
  - intros Hmod. rewrite Z.rem_mul_r in Hmod by lia.
    pose proof (Z.mod_pos_bound m (2 ^ k) Hpow) as Hlow.
    pose proof (Z.mod_pos_bound (m / 2 ^ k) 2 ltac:(lia)) as Hhigh.
    assert (m mod 2 ^ k = 0) as Hlow0 by nia.
    assert ((m / 2 ^ k) mod 2 = 0) as Hhigh0 by nia.
    destruct (Hexact Hlow0) as [Hr Hs]. split.
    + apply Hr1. rewrite Hq. exact Hhigh0.
    + rewrite Hs1, Hr, Hs. reflexivity.
Qed.

Lemma shifted_iter_pos (m : Z) (p : positive) : forall (k : Z) (mrs : shr_record),
  0 <= m -> 0 <= k -> shifted m k mrs -> shifted m (k + Z.pos p) (SpecFloat.iter_pos shr_1 p mrs).
Proof.
  induction p as [p IH|p IH|]; intros k mrs Hm Hk Hs; simpl.
  - replace (k + Z.pos p~1) with (((k + 1) + Z.pos p) + Z.pos p) by lia.
    apply IH; [lia|lia|]. apply IH; [lia|lia|]. apply shifted_shr_1; assumption.
  - replace (k + Z.pos p~0) with ((k + Z.pos p) + Z.pos p) by lia.
    apply IH; [lia|lia|]. apply IH; assumption.
  - apply shifted_shr_1; assumption.
Qed.

Lemma shifted_shr (m e n : Z) :
  0 <= m ->
  shifted m (Z.max 0 n) (fst (shr (shr_record_of_loc m loc_Exact) e n)) /\
  snd (shr (shr_record_of_loc m loc_Exact) e n) = e + Z.max 0 n.
Proof.
  intros Hm. destruct n as [|p|p]; simpl.
  - split; [|lia]. split; simpl; [rewrite Z.div_1_r; reflexivity|intros _; split; reflexivity].
  - split; [|reflexivity]. apply (shifted_iter_pos m p 0); [lia|lia|].
    split; simpl; [rewrite Z.div_1_r; reflexivity|intros _; split; reflexivity].
  - split; [|lia]. split; simpl; [rewrite Z.div_1_r; reflexivity|intros _; split; reflexivity].
Qed.

(** Rounding to nearest never passes a bound that is a multiple of the
    unit it rounds to. *)
Lemma round_nearest_even_le (m n B : Z) (mrs : shr_record) :
  0 <= m -> 0 <= n -> shifted m n mrs -> m <= B * 2 ^ n ->
  0 <= round_nearest_even (shr_m mrs) (loc_of_shr_record mrs) <= B.
Proof.
  intros Hm Hn [Hq Hexact] HB.
  assert (0 < 2 ^ n) as Hpow by (apply Z.pow_pos_nonneg; lia).
  assert (0 <= m / 2 ^ n) as Hq0 by (apply Z.div_pos; lia).
  pose proof (Z.div_mod m (2 ^ n) ltac:(lia)) as Hdm.
  pose proof (Z.mod_pos_bound m (2 ^ n) Hpow) as Hmod.
  destruct (Z.eq_dec (m mod 2 ^ n) 0) as [Hzero|Hrest].
  - destruct (Hexact Hzero) as [Hr Hs]. destruct mrs as [q r s]. simpl in *. subst r s.
    simpl. subst q. split; [exact Hq0|]. nia.
  - assert (m / 2 ^ n < B) as Hlt by nia.
    destruct mrs as [q r s]. simpl in *. subst q.
    destruct r, s; simpl; try destruct (Z.even _); lia.
Qed.

End Shifts.

Section RoundingBounds.

Lemma digits2_pos_bounds (p : positive) :
  2 ^ (Z.pos (digits2_pos p) - 1) <= Z.pos p < 2 ^ Z.pos (digits2_pos p).
Proof.
  induction p as [p IH|p IH|]; simpl digits2_pos; [| |change (1 <= 1 < 2); lia].
  - rewrite Pos2Z.inj_succ. change (Z.pos p~1) with (2 * Z.pos p + 1).
    replace (Z.succ (Z.pos (digits2_pos p)) - 1) with (Z.succ (Z.pos (digits2_pos p) - 1)) by lia.
    rewrite !Z.pow_succ_r by lia. lia.
  - rewrite Pos2Z.inj_succ. change (Z.pos p~0) with (2 * Z.pos p).
    replace (Z.succ (Z.pos (digits2_pos p)) - 1) with (Z.succ (Z.pos (digits2_pos p) - 1)) by lia.
    rewrite !Z.pow_succ_r by lia. lia.
Qed.

Lemma shr_exact_below (K B m e n : Z) :
  0 <= m -> 0 <= e + K ->
  m * 2 ^ (e + K) <= B * 2 ^ K ->
  let '(mrs, e') := shr (shr_record_of_loc m loc_Exact) e n in
  0 <= shr_m mrs /\ e <= e' /\ shr_m mrs * 2 ^ (e' + K) <= B * 2 ^ K.
Proof.
  intros Hm He HB.
  destruct (shifted_shr m e n Hm) as [[Hq _] He'].
  destruct (shr (shr_record_of_loc m loc_Exact) e n) as [mrs e']. simpl in Hq, He'.
  subst e'. set (n' := Z.max 0 n) in *.
  assert (0 <= n') as Hn' by lia.
  assert (0 < 2 ^ n') as Hpow by (apply Z.pow_pos_nonneg; lia).
  assert (0 < 2 ^ (e + K)) as Hpow' by (apply Z.pow_pos_nonneg; lia).
  rewrite Hq. split; [apply Z.div_pos; lia|]. split; [lia|].
  replace (e + n' + K) with (n' + (e + K)) by lia.
  rewrite Z.pow_add_r by lia.
  pose proof (Z.mul_div_le m (2 ^ n') Hpow) as Hfloor.
  nia.
Qed.

Lemma binary_round_aux_below (K B : Z) (mx : positive) (ex : Z) :
  0 <= K -> 0 <= ex + K -> 0 <= B < 2 ^ 24 ->
  Z.pos mx * 2 ^ (ex + K) <= B * 2 ^ K ->
  below K B (binary_round_aux 24 128 false (Z.pos mx) ex loc_Exact).
Proof.
  intros HK0 Hex HB Hle.
  assert (0 < 2 ^ K) as HpowK by (apply Z.pow_pos_nonneg; lia).
  assert (0 < 2 ^ (ex + K)) as Hpow by (apply Z.pow_pos_nonneg; lia).
  pose proof (digits2_pos_bounds mx) as [Hdigits _].
  set (d := Z.pos (digits2_pos mx)) in *.
  (* the product is below 2^24, so its exponent after rounding is not positive *)
  assert (d + ex <= 24) as Hd.
  { assert (2 ^ (d - 1) * 2 ^ (ex + K) < 2 ^ 24 * 2 ^ K) as Hlt by nia.
    rewrite <- !Z.pow_add_r in Hlt by lia.
    apply Z.pow_lt_mono_r_iff in Hlt; lia. }
  unfold binary_round_aux, shr_fexp. simpl Zdigits2. fold d.
  set (n1 := fexp 24 128 (d + ex) - ex).
  destruct (shifted_shr (Z.pos mx) ex n1 ltac:(lia)) as [Hs1 He1].
  destruct (shr (shr_record_of_loc (Z.pos mx) loc_Exact) ex n1) as [mrs1 e1].
  simpl in Hs1, He1. subst e1.
  set (m1 := round_nearest_even (shr_m mrs1) (loc_of_shr_record mrs1)).
  assert (0 <= m1 /\ m1 * 2 ^ (ex + Z.max 0 n1 + K) <= B * 2 ^ K) as [Hm1 Hm1B].
  { destruct (Z.le_gt_cases n1 0) as [Hn1|Hn1].
    - replace (Z.max 0 n1) with 0 in * by lia.
      pose proof (round_nearest_even_le (Z.pos mx) 0 (Z.pos mx) mrs1
                    ltac:(lia) ltac:(lia) Hs1 ltac:(lia)) as Hm1.
      fold m1 in Hm1. split; [lia|]. rewrite Z.add_0_r. nia.
    - replace (Z.max 0 n1) with n1 in * by lia.
      assert (ex + n1 <= 0) as He1 by (unfold n1, fexp, emin; lia).
      assert (0 < 2 ^ n1) as Hpow1 by (apply Z.pow_pos_nonneg; lia).
      assert (0 < 2 ^ (- (ex + n1))) as Hpow2 by (apply Z.pow_pos_nonneg; lia).
      assert (2 ^ K = 2 ^ (- (ex + n1)) * 2 ^ n1 * 2 ^ (ex + K)) as HK.
      { rewrite <- !Z.pow_add_r by lia. f_equal. lia. }
      assert (Z.pos mx <= B * 2 ^ (- (ex + n1)) * 2 ^ n1) as Hmx.
      { apply (Z.mul_le_mono_pos_r _ _ (2 ^ (ex + K)) Hpow). rewrite HK in Hle. lia. }
      pose proof (round_nearest_even_le (Z.pos mx) n1 (B * 2 ^ (- (ex + n1))) mrs1
                    ltac:(lia) ltac:(lia) Hs1 Hmx) as Hm1.
      fold m1 in Hm1. split; [lia|].
      assert (2 ^ K = 2 ^ (- (ex + n1)) * 2 ^ (ex + n1 + K)) as HK'.
      { rewrite <- !Z.pow_add_r by lia. f_equal. lia. }
      assert (0 < 2 ^ (ex + n1 + K)) as Hpow3 by (apply Z.pow_pos_nonneg; lia).
      rewrite HK'. nia. }
  pose proof (shr_exact_below K B m1 (ex + Z.max 0 n1)
                (fexp 24 128 (Zdigits2 m1 + (ex + Z.max 0 n1)) - (ex + Z.max 0 n1))
                Hm1 ltac:(lia) Hm1B) as H2.
  destruct (shr (shr_record_of_loc m1 loc_Exact) (ex + Z.max 0 n1) _) as [mrs2 e2].
  destruct H2 as (Hm2 & He2 & Hm2B).
  destruct (shr_m mrs2) as [|m2|m2]; [exact I| |lia].
  assert (e2 < 24) as He2'.
  { assert (0 < 2 ^ (e2 + K)) as Hpow2 by (apply Z.pow_pos_nonneg; lia).
    assert (2 ^ (e2 + K) < 2 ^ (24 + K)) as Hlt.
    { rewrite (Z.pow_add_r 2 24 K) by lia. nia. }
    apply Z.pow_lt_mono_r_iff in Hlt; lia. }
  destruct (Z.leb_spec e2 (128 - 24)) as [_|Hgt]; [|lia].
  simpl. split; [lia|exact Hm2B].
Qed.

End RoundingBounds.

Section Products.

Lemma shl_align_value (K : Z) (mx : positive) (ex ex' : Z) :
  0 <= ex + K -> 0 <= ex' + K ->
  let '(mz, ez) := shl_align mx ex ex' in
  0 <= ez + K /\ Z.pos mz * 2 ^ (ez + K) = Z.pos mx * 2 ^ (ex + K).
Proof.
  intros Hex Hex'. unfold shl_align.
  destruct (ex' - ex) as [|d|d] eqn:Hd; [split; [lia|reflexivity]..|].
  split; [lia|].
  change (Pos.iter xO mx d) with (shift_pos d mx).
  rewrite shift_pos_correct. change (Z.pow_pos 2 d) with (2 ^ Z.pos d).
  replace (ex + K) with (Z.pos d + (ex' + K)) by lia.
  rewrite (Z.pow_add_r 2 (Z.pos d) (ex' + K)) by lia. ring.
Qed.

(** The conversion of an integer below [2 ^ 24] to [float] does not exceed it. *)
Lemma of_Z_below (K R : Z) :
  149 <= K -> 0 <= R < 2 ^ 24 ->
  below K R (binary_normalize 24 128 R 0 false).
Proof.
  intros HK HR. destruct R as [|p|p]; [exact I| |lia].
  unfold binary_normalize, binary_round.
  pose proof (shl_align_value K p 0 (fexp 24 128 (Z.pos (digits2_pos p) + 0))
                ltac:(lia) ltac:(unfold fexp, emin; lia)) as Halign.
  destruct (shl_align p 0 _) as [mz ez]. destruct Halign as [Hez Hvalue].
  apply binary_round_aux_below; [lia|exact Hez|exact HR|].
  rewrite Hvalue. rewrite Z.add_0_l. lia.
Qed.

(** A positive [float] that is at most 1 has an exponent below that of 1,
    or the exponent of 1 and a mantissa that is not larger. *)
Lemma SFleb_one (m : positive) (e : Z) :
  SFleb (S754_finite false m e) (S754_finite false 8388608 (-23)) = true ->
  e < -23 \/ (e = -23 /\ Z.pos m <= 8388608).
Proof.
  unfold SFleb, SFcompare.
  destruct (Z.compare_spec e (-23)) as [He|He|He]; [|left; exact He|discriminate].
  intros Hcmp. right. split; [exact He|].
  apply Pos2Z.pos_le_pos. unfold Pos.le, Pos.compare.
  destruct (Pos.compare_cont Eq m 8388608); [discriminate|discriminate|discriminate Hcmp].
Qed.

(** A valid [float] between 0 and 1. *)
Lemma unit_interval_below (dp : spec_float) :
  valid_binary 24 128 dp = true ->
  SFleb (S754_zero false) dp && SFleb dp (S754_finite false 8388608 (-23)) = true ->
  below 149 1 dp.
Proof.
  intros Hvalid Hdp. apply andb_true_iff in Hdp as [Hlow Hhigh].
  destruct dp as [s|s| |s m e]; [exact I| | |].
  - destruct s; discriminate.
  - discriminate.
  - destruct s; [discriminate|]. clear Hlow.
    apply SFleb_one in Hhigh.
    simpl in Hvalid. unfold bounded, canonical_mantissa in Hvalid.
    apply andb_true_iff in Hvalid as [Hcanonical _].
    apply Z.eqb_eq in Hcanonical. unfold fexp, emin in Hcanonical.
    pose proof (digits2_pos_bounds m) as [_ Hdigits].
    assert (Z.pos (digits2_pos m) <= 24) as Hd by lia.
    assert (Z.pos m < 2 ^ 24) as Hm.
    { eapply Z.lt_le_trans; [exact Hdigits|]. apply Z.pow_le_mono_r; lia. }
    clear Hdigits Hd.
    simpl. split; [lia|].
    destruct Hhigh as [He|[-> Hle]].
    + assert (0 < 2 ^ (e + 149)) as Hpow by (apply Z.pow_pos_nonneg; lia).
      assert (2 ^ (e + 149) <= 2 ^ 125) as Hpow' by (apply Z.pow_le_mono_r; lia).
      change (1 * 2 ^ 149) with (2 ^ 24 * 2 ^ 125). nia.
    + change (-23 + 149) with 126.
      change (1 * 2 ^ 149) with (8388608 * 2 ^ 126).
      apply Z.mul_le_mono_nonneg_r; [apply Z.pow_nonneg; lia|exact Hle].
Qed.

Lemma SFmul_below (K R : Z) (x y : spec_float) :
  0 <= K -> 0 <= R < 2 ^ 24 ->
  below K 1 x -> below K R y -> below (K + K) R (SFmul 24 128 x y).
Proof.
  intros HK HR Hx Hy.
  destruct x as [sx|sx| |sx mx ex]; try contradiction;
    destruct y as [sy|sy| |sy my ey]; try contradiction; try exact I.
  destruct sx; [contradiction|]. destruct sy; [contradiction|].
  simpl in Hx, Hy. destruct Hx as [Hex Hx]. destruct Hy as [Hey Hy].
  simpl. apply binary_round_aux_below; [lia|lia|exact HR|].
  replace (ex + ey + (K + K)) with ((ex + K) + (ey + K)) by lia.
  rewrite (Z.pow_add_r 2 (ex + K) (ey + K)), (Z.pow_add_r 2 K K) by lia.
  rewrite Pos2Z.inj_mul.
  assert (0 < 2 ^ (ex + K)) by (apply Z.pow_pos_nonneg; lia).
  assert (0 < 2 ^ (ey + K)) by (apply Z.pow_pos_nonneg; lia).
  assert (0 < 2 ^ K) by (apply Z.pow_pos_nonneg; lia).
  nia.
Qed.

End Products.

Section Truncation.

Lemma to_size_t_below (K B : Z) (x : spec_float) :
  0 <= K -> 0 <= B < 2 ^ 64 -> below K B x ->
  exists lower, to_size_t x = Some lower /\ 0 <= lower <= B.
Proof.
  intros HK HB Hx. unfold to_size_t.
  destruct x as [s|s| |s m e]; try contradiction.
  - exists 0. split; [reflexivity|lia].
  - destruct s; [contradiction|]. simpl in Hx. destruct Hx as [He Hx].
    assert (0 < 2 ^ K) as HpowK by (apply Z.pow_pos_nonneg; lia).
    assert (0 <= Z.shiftl (Z.pos m) e <= B) as Hrange.
    { destruct (Z.le_gt_cases 0 e) as [Hpos|Hneg].
      - rewrite Z.shiftl_mul_pow2 by exact Hpos.
        assert (0 < 2 ^ e) as Hpow by (apply Z.pow_pos_nonneg; lia).
        rewrite (Z.pow_add_r 2 e K) in Hx by lia. split; [lia|nia].
      - rewrite Z.shiftl_div_pow2 by lia.
        assert (0 < 2 ^ (- e)) as Hpow by (apply Z.pow_pos_nonneg; lia).
        assert (0 < 2 ^ (e + K)) as Hpow' by (apply Z.pow_pos_nonneg; lia).
        assert (2 ^ K = 2 ^ (- e) * 2 ^ (e + K)) as HKsplit.
        { rewrite <- Z.pow_add_r by lia. f_equal. lia. }
        rewrite HKsplit in Hx.
        assert (Z.pos m <= B * 2 ^ (- e)) as Hm by nia.
        split; [apply Z.div_pos; lia|].
        apply Z.div_le_upper_bound; [exact Hpow|]. lia. }
    exists (Z.shiftl (Z.pos m) e). simpl floor_Z. cbv beta iota.
    destruct (Z.leb_spec 0 (Z.shiftl (Z.pos m) e)) as [_|Hneg]; [|lia].
    destruct (Z.ltb_spec (Z.shiftl (Z.pos m) e) (2 ^ 64)) as [_|Hbig]; [|lia].
    split; [reflexivity|exact Hrange].
Qed.

(** The position a query in the unit interval is scaled to does not exceed
    a resolution below [2 ^ 24], so that its integer part is at most the
    resolution. *)
Lemma position_in_table (resolution : Z) (dp : spec_float) :
  0 <= resolution < 2 ^ 24 ->
  F32.valid dp = true ->
  F32.leb F32.zero dp && F32.leb dp F32.one = true ->
  exists lower,
    to_size_t (F32.mul dp (F32.of_Z resolution)) = Some lower /\
    0 <= lower <= resolution.
Proof.
  intros Hr Hvalid Hdp.
  apply (to_size_t_below (149 + 149) resolution); [lia|lia|].
  apply SFmul_below; [lia|exact Hr| |].
  - apply unit_interval_below; assumption.
  - apply of_Z_below; [lia|exact Hr].
Qed.

End Truncation.

(** ** Correspondence.DP2Cost *)

Section DP2CostCall.
Import Correspondence.

(** The two table reads of a call whose argument passes the assertion. *)
Lemma DP2Cost_call_reads (c : DP2Cost) (dp : spec_float) (lower : Z) :
  F32.leb F32.zero dp && F32.leb dp F32.one = true ->
  to_size_t (F32.mul dp (multiplier c)) = Some lower ->
  DP2Cost_call c dp =
    match data c !! Z.to_nat lower, data c !! Z.to_nat (uint64_t (lower + 1)) with
    | Some a, Some b =>
        let mu := F32.sub (F32.mul dp (multiplier c)) (F32.of_Z lower) in
        Ok (F32.add (F32.mul (F32.sub F32.one mu) a) (F32.mul mu b))
    | _, _ => OutOfBounds
    end.
Proof.
  intros Hdp Hlower. unfold DP2Cost_call. rewrite Hdp, Hlower. simpl. unfold read.
  destruct (data c !! Z.to_nat lower); simpl; [|reflexivity].
  destruct (data c !! Z.to_nat (uint64_t (lower + 1))); reflexivity.
Qed.

End DP2CostCall.

Section DP2CostTable.
Import Correspondence.
Variables tan acos : spec_float -> spec_float.

Lemma multiplier_DP2Cost_new (resolution : Z) :
  multiplier (DP2Cost_new tan acos resolution) = F32.of_Z resolution.
Proof. reflexivity. Qed.

Lemma data_DP2Cost_new (resolution : Z) :
  data (DP2Cost_new tan acos resolution) =
  map (DP2Cost_bin tan acos resolution) (seqZ 0 (resolution + 1)) ++ [F32.zero].
Proof. reflexivity. Qed.

(** The table has [resolution + 2] entries. *)
Lemma length_data (resolution : Z) :
  0 <= resolution ->
  Z.of_nat (length (data (DP2Cost_new tan acos resolution))) = resolution + 2.
Proof.
  intros Hr. rewrite data_DP2Cost_new, length_app, length_map, length_seqZ.
  change (length [F32.zero]) with 1%nat. lia.
Qed.

(** Entry [bin] is the cost of bin [bin], for every bin up to [resolution]. *)
Lemma data_bin (resolution bin : Z) :
  0 <= bin <= resolution ->
  data (DP2Cost_new tan acos resolution) !! Z.to_nat bin =
    Some (DP2Cost_bin tan acos resolution bin).
Proof.
  intros Hbin. rewrite data_DP2Cost_new.
  rewrite lookup_app_l by (rewrite length_map, length_seqZ; lia).
  rewrite list_lookup_fmap.
  assert (seqZ 0 (resolution + 1) !! Z.to_nat bin = Some bin) as ->; [|reflexivity].
  apply lookup_seqZ. lia.
Qed.

(** The entry after them is the padding, 0. *)
Lemma data_padding (resolution : Z) :
  0 <= resolution ->
  data (DP2Cost_new tan acos resolution) !! Z.to_nat (resolution + 1) = Some F32.zero.
Proof.
  intros Hr. rewrite data_DP2Cost_new.
  rewrite lookup_app_r by (rewrite length_map, length_seqZ; lia).
  rewrite length_map, length_seqZ.
  replace (Z.to_nat (resolution + 1) - Z.to_nat (resolution + 1))%nat with 0%nat by lia.
  reflexivity.
Qed.

(** There is nothing after the padding. *)
Lemma data_past_the_end (resolution j : Z) :
  0 <= resolution -> resolution + 2 <= j ->
  data (DP2Cost_new tan acos resolution) !! Z.to_nat j = None.
Proof.
  intros Hr Hj. apply lookup_ge_None.
  pose proof (length_data resolution Hr). lia.
Qed.

(** X9.  For a resolution below [2 ^ 24], every query in the unit interval
    reads two entries of the table: the lower index is at most the
    resolution and the call returns a value. *)
Lemma DP2Cost_stays_in_the_table (resolution : Z) (dp : spec_float) :
  0 <= resolution < 2 ^ 24 ->
  F32.valid dp = true ->
  F32.leb F32.zero dp && F32.leb dp F32.one = true ->
  exists lower cost,
    DP2Cost_lower (DP2Cost_new tan acos resolution) dp = Some lower /\
    0 <= lower <= resolution /\
    DP2Cost_call (DP2Cost_new tan acos resolution) dp = Ok cost.
Proof.
  intros Hr Hvalid Hdp.
  destruct (position_in_table resolution dp Hr Hvalid Hdp) as (lower & Hlower & Hrange).
  assert (exists a, data (DP2Cost_new tan acos resolution) !! Z.to_nat lower = Some a)
    as [a Ha] by (eexists; apply data_bin; lia).
  assert (exists b, data (DP2Cost_new tan acos resolution) !! Z.to_nat (uint64_t (lower + 1))
                    = Some b) as [b Hb].
  { unfold uint64_t. rewrite Z.mod_small by lia.
    destruct (Z.eq_dec lower resolution) as [->|Hne].
    - eexists. apply data_padding. lia.
    - eexists. apply data_bin. lia. }
  exists lower. eexists. split; [exact Hlower|]. split; [exact Hrange|].
  rewrite (DP2Cost_call_reads (DP2Cost_new tan acos resolution) dp lower Hdp Hlower).
  rewrite Ha, Hb. reflexivity.
Qed.

(** C6, at the input that shows the defect.  A resolution of 33554435 is
    not a [float]: the nearest one, 33554436, becomes the multiplier.  For
    [dp = 1] the lower index is 33554436, the padding entry, above the
    resolution, and the upper index 33554437 is one past the end of the
    table of 33554437 entries. *)
Theorem DP2Cost_reads_past_the_table :
  let c := DP2Cost_new tan acos 33554435 in
  Z.of_nat (length (data c)) = 33554437 /\
  DP2Cost_lower c F32.one = Some 33554436 /\
  DP2Cost_call c F32.one = OutOfBounds.
Proof.
  intros c. subst c. split; [apply length_data; lia|].
  assert (to_size_t (F32.mul F32.one (F32.of_Z 33554435)) = Some 33554436) as Hlower
    by (vm_compute; reflexivity).
  split.
  - unfold DP2Cost_lower. rewrite multiplier_DP2Cost_new. exact Hlower.
  - rewrite (DP2Cost_call_reads _ F32.one 33554436);
      [|reflexivity|rewrite multiplier_DP2Cost_new; exact Hlower].
    assert (data (DP2Cost_new tan acos 33554435) !! Z.to_nat 33554436 = Some F32.zero)
      as -> by (apply (data_padding 33554435); lia).
    assert (data (DP2Cost_new tan acos 33554435) !! Z.to_nat (uint64_t (33554436 + 1)) = None)
      as -> by (apply data_past_the_end; [lia|discriminate]).
    reflexivity.
Qed.

End DP2CostTable.

(** ** Numbers that rounding leaves as they are *)

Section ExactNumbers.

Lemma digits2_pos_iter_xO (m q : positive) :
  Z.pos (digits2_pos (Pos.iter xO m q)) = Z.pos (digits2_pos m) + Z.pos q.
Proof.
  induction q as [|q IH] using Pos.peano_ind.
  - simpl. lia.
  - rewrite Pos.iter_succ. simpl digits2_pos. lia.
Qed.

Lemma Zpos_iter_xO (m q : positive) :
  Z.pos (Pos.iter xO m q) = Z.pos m * 2 ^ Z.pos q.
Proof.
  change (Pos.iter xO m q) with (shift_pos q m).
  rewrite shift_pos_correct. change (Z.pow_pos 2 q) with (2 ^ Z.pos q). ring.
Qed.

(** A mantissa that is canonical at the exponent [e + q], followed by [q]
    zero bits, rounds to itself. *)
Lemma binary_round_aux_canonical (prec emax : Z) (s : bool) (m : positive) (e q : Z) :
  fexp prec emax (Z.pos (digits2_pos m) + (e + q)) = e + q -> 0 <= q ->
  e + q <= emax - prec ->
  binary_round_aux prec emax s (Z.pos m * 2 ^ q) e loc_Exact = S754_finite s m (e + q).
Proof.
  intros Hcanonical Hq He.
  assert ((let '(mrs'', e'') := shr_fexp prec emax (Z.pos m) (e + q) loc_Exact in
           match shr_m mrs'' with
           | 0 => S754_zero s
           | Z.pos m => if e'' <=? emax - prec then S754_finite s m e''
                        else S754_infinity s
           | Z.neg _ => S754_nan
           end) = S754_finite s m (e + q)) as Hsecond.
  { unfold shr_fexp. simpl Zdigits2. rewrite Hcanonical, Z.sub_diag. simpl.
    destruct (Z.leb_spec (e + q) (emax - prec)) as [_|Hgt]; [reflexivity|lia]. }
  destruct q as [|q|q]; [| |lia].
  - change (2 ^ 0) with 1. rewrite Z.mul_1_r. rewrite Z.add_0_r in *.
    unfold binary_round_aux. unfold shr_fexp at 1. simpl Zdigits2.
    rewrite Hcanonical, Z.sub_diag. simpl. exact Hsecond.
  - rewrite <- Zpos_iter_xO.
    unfold binary_round_aux at 1. unfold shr_fexp at 1. simpl Zdigits2.
    rewrite digits2_pos_iter_xO.
    replace (Z.pos (digits2_pos m) + Z.pos q + e)
      with (Z.pos (digits2_pos m) + (e + Z.pos q)) by lia.
    rewrite Hcanonical.
    replace (e + Z.pos q - e) with (Z.pos q) by lia.
    pose proof (shifted_shr (Z.pos (Pos.iter xO m q)) e (Z.pos q) ltac:(lia)) as [Hshift Hexp].
    destruct (shr (shr_record_of_loc (Z.pos (Pos.iter xO m q)) loc_Exact) e (Z.pos q))
      as [mrs e'].
    simpl in Hshift, Hexp. subst e'.
    destruct Hshift as [Hm Hrs].
    assert (2 ^ Z.pos q <> 0) as Hnz by (apply Z.pow_nonzero; lia).
    rewrite Zpos_iter_xO in Hm, Hrs.
    rewrite (Z.div_mul _ _ Hnz) in Hm.
    destruct (Hrs (Z.mod_mul _ _ Hnz)) as [Hr Hs].
    destruct mrs as [m' r' s']. simpl in Hm, Hr, Hs. subst m' r' s'.
    simpl loc_of_shr_record. simpl shr_m. simpl round_nearest_even.
    replace (e + 0 `max` Z.pos q) with (e + Z.pos q) by lia.
    exact Hsecond.
Qed.

(** A mantissa of [prec] digits followed by [q] zero bits rounds to that
    mantissa. *)
Lemma binary_round_aux_exact (prec emax : Z) (s : bool) (m : positive) (e q : Z) :
  Z.pos (digits2_pos m) = prec -> 0 <= q ->
  emin prec emax <= e + q <= emax - prec ->
  binary_round_aux prec emax s (Z.pos m * 2 ^ q) e loc_Exact = S754_finite s m (e + q).
Proof.
  intros Hd Hq He. apply binary_round_aux_canonical; [|exact Hq|lia].
  rewrite Hd. unfold fexp. lia.
Qed.

(** An integer of at most [prec] digits is a number of the format. *)
Lemma binary_round_integer (prec emax : Z) (s : bool) (p : positive) :
  1 < prec -> prec <= emax ->
  Z.pos (digits2_pos p) <= prec ->
  exists m : positive,
    binary_round prec emax s p 0 = S754_finite s m (Z.pos (digits2_pos p) - prec) /\
    Z.pos m = Z.pos p * 2 ^ (prec - Z.pos (digits2_pos p)) /\
    Z.pos (digits2_pos m) = prec.
Proof.
  intros Hprec Hemax Hd. unfold binary_round, shl_align.
  replace (fexp prec emax (Z.pos (digits2_pos p) + 0)) with (Z.pos (digits2_pos p) - prec)
    by (unfold fexp, emin; lia).
  destruct (Z.pos (digits2_pos p) - prec - 0) as [|d|d] eqn:Hdiff; [|lia|].
  - exists p. assert (Z.pos (digits2_pos p) = prec) as Heq by lia.
    split; [|split; [|exact Heq]].
    + pose proof (binary_round_aux_exact prec emax s p 0 0 Heq ltac:(lia)) as Hexact.
      change (2 ^ 0) with 1 in Hexact. rewrite Z.mul_1_r in Hexact.
      rewrite Hexact; [f_equal; lia|]. unfold emin. lia.
    + replace (prec - Z.pos (digits2_pos p)) with 0 by lia.
      change (2 ^ 0) with 1. lia.
  - exists (Pos.iter xO p d).
    assert (Z.pos (digits2_pos (Pos.iter xO p d)) = prec) as Hdigits
      by (rewrite digits2_pos_iter_xO; lia).
    split; [|split; [|exact Hdigits]].
    + pose proof (binary_round_aux_exact prec emax s (Pos.iter xO p d)
                    (Z.pos (digits2_pos p) - prec) 0 Hdigits ltac:(lia)) as Hexact.
      change (2 ^ 0) with 1 in Hexact. rewrite Z.mul_1_r in Hexact.
      rewrite Hexact; [f_equal; lia|]. unfold emin. lia.
    + rewrite Zpos_iter_xO. f_equal. f_equal. lia.
Qed.

Lemma digits2_pos_le (p : positive) (n : Z) :
  0 <= n -> Z.pos p < 2 ^ n -> Z.pos (digits2_pos p) <= n.
Proof.
  intros Hn Hp. pose proof (digits2_pos_bounds p) as Hbounds.
  destruct (Z.le_gt_cases (Z.pos (digits2_pos p)) n) as [Hle|Hgt]; [exact Hle|].
  exfalso. assert (2 ^ n <= 2 ^ (Z.pos (digits2_pos p) - 1))
    by (apply Z.pow_le_mono_r; lia). lia.
Qed.

(** The [float] of an integer below [2 ^ 24]. *)
Lemma F32_of_Z_exact (R : Z) :
  1 <= R < 2 ^ 24 ->
  exists (m : positive) (e : Z),
    F32.of_Z R = S754_finite false m e /\
    Z.pos (digits2_pos m) = 24 /\ -23 <= e <= 0 /\ Z.pos m = R * 2 ^ (- e).
Proof.
  intros HR. destruct R as [|p|p]; [lia| |lia].
  pose proof (digits2_pos_le p 24 ltac:(lia) ltac:(lia)) as Hd.
  destruct (binary_round_integer 24 128 false p ltac:(lia) ltac:(lia) Hd)
    as (m & Hround & Hm & Hdigits).
  exists m, (Z.pos (digits2_pos p) - 24). split; [exact Hround|].
  split; [exact Hdigits|]. split; [lia|]. rewrite Hm. f_equal. f_equal. lia.
Qed.

(** Multiplying by 1 changes nothing. *)
Lemma F32_mul_one (s : bool) (m : positive) (e : Z) :
  Z.pos (digits2_pos m) = 24 -> -149 <= e <= 104 ->
  F32.mul F32.one (S754_finite s m e) = S754_finite s m e.
Proof.
  intros Hd He.
  change (binary_round_aux 24 128 s (Z.pos (Pos.iter xO m 23)) (-23 + e) loc_Exact
          = S754_finite s m e).
  rewrite Zpos_iter_xO.
  rewrite (binary_round_aux_exact 24 128 s m (-23 + e) 23 Hd ltac:(lia)).
  - f_equal. lia.
  - unfold emin. lia.
Qed.


Lemma F32_sub_diag (s : bool) (m : positive) (e : Z) :
  F32.sub (S754_finite s m e) (S754_finite s m e) = F32.zero.
Proof.
  unfold F32.sub, SFsub. rewrite Z.sub_diag. reflexivity.
Qed.

Lemma to_size_t_integer (m : positive) (e R : Z) :
  e <= 0 -> 0 <= R < 2 ^ 64 -> Z.pos m = R * 2 ^ (- e) ->
  to_size_t (S754_finite false m e) = Some R.
Proof.
  intros He HR Hm. unfold to_size_t, floor_Z.
  assert (Z.shiftl (Z.pos m) e = R) as ->.
  { destruct (Z.eq_dec e 0) as [->|Hne].
    - rewrite Z.shiftl_0_r. change (2 ^ (- 0)) with 1 in Hm. lia.
    - rewrite Z.shiftl_div_pow2 by lia. rewrite Hm. apply Z.div_mul.
      apply Z.pow_nonzero; lia. }
  destruct (Z.leb_spec 0 R) as [_|Hneg]; [|lia].
  destruct (Z.ltb_spec R (2 ^ 64)) as [_|Hbig]; [reflexivity|lia].
Qed.

(** A number divided by itself is 1. *)
Lemma F64_div_diag (s : bool) (m : positive) (e : Z) :
  F64.div (S754_finite s m e) (S754_finite s m e) = F64.one.
Proof.
  unfold F64.div, SFdiv, SFdiv_core_binary. simpl Zdigits2.
  rewrite !Z.sub_diag.
  change (Z.min (fexp F64.prec F64.emax 0) 0) with (-53).
  change (0 - -53) with 53.
  cbv iota.
  assert (IntDef.Z.div_eucl (Z.shiftl (Z.pos m) 53) (Z.pos m) = (2 ^ 53, 0)) as ->.
  { rewrite Z.shiftl_mul_pow2 by lia.
    pose proof (Z.div_mul (2 ^ 53) (Z.pos m) ltac:(lia)) as Hq.
    pose proof (Z.mod_mul (2 ^ 53) (Z.pos m) ltac:(lia)) as Hr.
    rewrite (Z.mul_comm (Z.pos m)).
    unfold Z.div, Z.modulo in Hq, Hr.
    destruct (Z.div_eucl (2 ^ 53 * Z.pos m) (Z.pos m)) as [q r].
    subst q r. reflexivity. }
  destruct s; simpl xorb;
    (assert (new_location (Z.pos m) 0 = loc_Exact) as ->
       by (unfold new_location; destruct (Z.even (Z.pos m)); reflexivity));
    vm_compute; reflexivity.
Qed.

Lemma F64_of_Z_finite (R : Z) :
  1 <= R < 2 ^ 53 ->
  exists (m : positive) (e : Z), F64.of_Z R = S754_finite false m e.
Proof.
  intros HR. destruct R as [|p|p]; [lia| |lia].
  pose proof (digits2_pos_le p 53 ltac:(lia) ltac:(lia)) as Hd.
  destruct (binary_round_integer 53 1024 false p ltac:(lia) ltac:(lia) Hd)
    as (m & Hround & _).
  eexists _, _. exact Hround.
Qed.

(** A [float] converted to [double] and back is the same [float]. *)
Lemma F32_of_double_of_float (v : spec_float) :
  F32.valid v = true -> F32.of_double (F64.of_float v) = v.
Proof.
  intros Hvalid. destruct v as [s|s| |s m e]; try reflexivity.
  unfold F32.valid, valid_binary, bounded, canonical_mantissa in Hvalid.
  apply andb_true_iff in Hvalid. destruct Hvalid as [Hcanonical Hbound].
  apply Z.eqb_eq in Hcanonical. apply Z.leb_le in Hbound.
  change F32.prec with 24 in *. change F32.emax with 128 in *.
  assert (- 149 <= e /\ Z.pos (digits2_pos m) <= 24) as [He Hd]
    by (unfold fexp, emin in Hcanonical; lia).
  set (d := Z.pos (digits2_pos m)) in *.
  assert (F64.of_float (S754_finite s m e) =
          S754_finite s (Pos.iter xO m (Z.to_pos (53 - d))) (d + e - 53)) as ->.
  { unfold F64.of_float, binary_round, shl_align. fold d.
    change F64.prec with 53. change F64.emax with 1024.
    replace (fexp 53 1024 (d + e)) with (d + e - 53) by (unfold fexp, emin; lia).
    destruct (d + e - 53 - e) as [|q|q] eqn:Hq; [lia|lia|].
    replace (Z.to_pos (53 - d)) with q by lia.
    pose proof (binary_round_aux_exact 53 1024 s (Pos.iter xO m q)
                  (d + e - 53) 0) as Hexact.
    change (2 ^ 0) with 1 in Hexact. rewrite Z.mul_1_r, Z.add_0_r in Hexact.
    apply Hexact; [|lia|unfold emin; lia].
    rewrite digits2_pos_iter_xO. fold d. lia. }
  unfold F32.of_double, binary_round, shl_align.
  rewrite digits2_pos_iter_xO. fold d.
  change F32.prec with 24. change F32.emax with 128.
  replace (d + Z.pos (Z.to_pos (53 - d)) + (d + e - 53)) with (d + e) by lia.
  rewrite Hcanonical.
  destruct (e - (d + e - 53)) as [|q|q] eqn:Hq; [lia| |lia].
  rewrite Zpos_iter_xO.
  rewrite (binary_round_aux_canonical 24 128 s m (d + e - 53) (Z.pos (Z.to_pos (53 - d)))).
  - f_equal. lia.
  - fold d. replace (d + (d + e - 53 + Z.pos (Z.to_pos (53 - d)))) with (d + e) by lia.
    rewrite Hcanonical. lia.
  - lia.
  - lia.
Qed.

End ExactNumbers.

(** ** The order of the finite numbers *)

Section FloatOrder.
Import Order.

Lemma SFltb_rank (x y : spec_float) :
  isfinite x = true -> isfinite y = true ->
  (SFltb x y = true <-> lex_lt (rank x) (rank y)).
Proof.
  intros Hx Hy. unfold SFltb, SFcompare, lex_lt, rank.
  destruct x as [sx|sx| |sx mx ex]; try discriminate;
    destruct y as [sy|sy| |sy my ey]; try discriminate.
  - split; [discriminate|lia].
  - destruct sy; split; try discriminate; try lia; reflexivity.
  - destruct sx; split; try discriminate; try lia; reflexivity.
  - change (Pos.compare_cont Eq mx my) with (Pos.compare mx my).
    destruct sx, sy; try (split; try discriminate; try lia; reflexivity).
    + destruct (Z.compare_spec ex ey) as [Heq|Hlt|Hgt];
        [destruct (Pos.compare_spec mx my) as [Hm|Hm|Hm]| |]; simpl;
        split; intros H; try discriminate H; try reflexivity; lia.
    + destruct (Z.compare_spec ex ey) as [Heq|Hlt|Hgt];
        [destruct (Pos.compare_spec mx my) as [Hm|Hm|Hm]| |]; simpl;
        split; intros H; try discriminate H; try reflexivity; lia.
Qed.

Lemma lex_lt_asym (a b : Z * Z * Z) : lex_lt a b -> ~ lex_lt b a.
Proof. destruct a as [[a1 a2] a3], b as [[b1 b2] b3]. unfold lex_lt. lia. Qed.

Lemma lex_lt_trans_neg (a b c : Z * Z * Z) :
  ~ lex_lt b a -> ~ lex_lt c b -> ~ lex_lt c a.
Proof.
  destruct a as [[a1 a2] a3], b as [[b1 b2] b3], c as [[c1 c2] c3]. unfold lex_lt. lia.
Qed.

Lemma SFltb_false_rank (x y : spec_float) :
  isfinite x = true -> isfinite y = true ->
  (SFltb x y = false <-> ~ lex_lt (rank x) (rank y)).
Proof.
  intros Hx Hy. pose proof (SFltb_rank x y Hx Hy) as Hiff.
  destruct (SFltb x y); split; intros H; try discriminate; try reflexivity.
  - exfalso. apply H. apply Hiff. reflexivity.
  - intros Hlt. apply Hiff in Hlt. discriminate.
Qed.

Lemma SFltb_trans_neg (a b c : spec_float) :
  isfinite a = true -> isfinite b = true -> isfinite c = true ->
  SFltb b a = false -> SFltb c b = false -> SFltb c a = false.
Proof.
  intros Ha Hb Hc Hba Hcb.
  apply SFltb_false_rank; [assumption..|].
  apply (lex_lt_trans_neg (rank a) (rank b) (rank c)); apply SFltb_false_rank; assumption.
Qed.

Lemma SFltb_irrefl (a : spec_float) : isfinite a = true -> SFltb a a = false.
Proof.
  intros Ha. apply SFltb_false_rank; [assumption..|].
  destruct (rank a) as [[x y] z]. unfold lex_lt. lia.
Qed.

Lemma SFltb_asym (a b : spec_float) :
  isfinite a = true -> isfinite b = true -> SFltb a b = true -> SFltb b a = false.
Proof.
  intros Ha Hb Hab. apply SFltb_false_rank; [assumption..|].
  apply lex_lt_asym. apply SFltb_rank; assumption.
Qed.

Lemma SFgeb_SFltb (x y : spec_float) :
  isfinite x = true -> isfinite y = true -> SFgeb x y = negb (SFltb x y).
Proof.
  intros Hx Hy. unfold SFgeb, SFltb.
  destruct x as [sx|sx| |sx mx ex]; try discriminate;
    destruct y as [sy|sy| |sy my ey]; try discriminate; simpl.
  - reflexivity.
  - destruct sy; reflexivity.
  - destruct sx; reflexivity.
  - destruct sx, sy; try reflexivity.
    + destruct (ex ?= ey); try reflexivity.
      destruct (Pos.compare_cont Eq mx my); reflexivity.
    + destruct (ex ?= ey); try reflexivity.
      destruct (Pos.compare_cont Eq mx my); reflexivity.
Qed.

End FloatOrder.

(** ** Math.binomial at the edges *)

Section BinomialEdges.
Import Math.

Lemma choose_n_1 (n : nat) : choose n 1 = n.
Proof.
  induction n as [|n IH]; [reflexivity|].
  simpl. rewrite IH. destruct n; simpl; lia.
Qed.

Lemma choose_gt (n : nat) : forall k : nat, (n < k)%nat -> choose n k = 0%nat.
Proof.
  induction n as [|n IH]; intros k Hk; destruct k as [|k]; try lia; [reflexivity|].
  simpl. rewrite !IH by lia. reflexivity.
Qed.

Lemma choose_n_n (n : nat) : choose n n = 1%nat.
Proof.
  induction n as [|n IH]; [reflexivity|].
  simpl. rewrite IH, choose_gt by lia. reflexivity.
Qed.

Lemma choose_n_pred (n : nat) : choose (S n) n = S n.
Proof.
  induction n as [|n IH]; [reflexivity|].
  change (choose (S (S n)) (S n)) with (choose (S n) n + choose (S n) (S n))%nat.
  rewrite IH, choose_n_n. lia.
Qed.

(** [k = 1] returns [n]. *)
Lemma binomial_k_one (n : Z) : 1 <= n < 2 ^ 64 -> binomial n 1 = Some n.
Proof.
  intros Hn. unfold binomial.
  destruct (Z.ltb_spec n 1) as [Hlt|_]; [lia|].
  change (uint64_t (1 * 2)) with 2.
  destruct (Z.ltb_spec n 2) as [Hlt|Hge].
  - assert (n = 1) as -> by lia. reflexivity.
  - reflexivity.
Qed.

(** [k = n - 1] returns [n]. *)
Lemma binomial_k_pred (n : Z) : 1 <= n < 2 ^ 63 -> binomial n (n - 1) = Some n.
Proof.
  intros Hn. unfold binomial.
  destruct (Z.ltb_spec n (n - 1)) as [Hlt|_]; [lia|].
  rewrite (uint64_t_small ((n - 1) * 2)) by lia.
  destruct (Z.ltb_spec n ((n - 1) * 2)) as [Hlt|Hge].
  - replace (n - (n - 1)) with 1 by lia. reflexivity.
  - assert (n = 1 \/ n = 2) as [-> | ->] by lia; reflexivity.
Qed.

(** X11.  Where the loop of [binomial] has no division to make, the value
    returned is the binomial coefficient: for [k] at most 1, for [k] at
    least [n - 1], and for [k] above [n], where it is 0. *)
Theorem binomial_at_the_edges (n k : Z) :
  0 <= n < 2 ^ 63 -> 0 <= k < 2 ^ 63 ->
  k <= 1 \/ n - 1 <= k ->
  binomial n k = Some (Z.of_nat (choose (Z.to_nat n) (Z.to_nat k))).
Proof.
  intros Hn Hk Hedge.
  destruct (Z.lt_ge_cases n k) as [Hgt|Hle].
  { rewrite binomial_k_gt_n by exact Hgt. rewrite choose_gt by lia. reflexivity. }
  assert (k = 0 \/ k = 1 \/ k = n - 1 \/ k = n) as [->|[->|[->| ->]]] by lia.
  - rewrite binomial_k_zero by lia. destruct (Z.to_nat n); reflexivity.
  - rewrite binomial_k_one by lia. change (Z.to_nat 1) with 1%nat.
    rewrite choose_n_1. f_equal. lia.
  - rewrite binomial_k_pred by lia.
    replace (Z.to_nat n) with (S (Z.to_nat (n - 1))) by lia.
    rewrite choose_n_pred. f_equal. lia.
  - rewrite binomial_k_n by lia. rewrite choose_n_n. reflexivity.
Qed.

End BinomialEdges.

(** ** Reading a mapping back *)

Section MappingAccess.
Import Correspondence.

(** X12.  After an assignment through [operator[]] the mapping gives the
    assigned sequence back at that index: as a whole, by its size and
    element by element, an element index past its end failing the
    assertion; at every other index it reads as before. *)
Theorem Mapping_assign_then_read (m m' : Mapping) (index : nat) (data : list Z) :
  assign m index data = Ok m' ->
  get m' index = Ok data /\
  (v ← at_const m' index; ConstValue_size m' v) = Ok (length data) /\
  (forall i : nat,
     (v ← at_const m' index; ConstValue_at m' v i) =
       match data !! i with Some x => Ok x | None => AssertFail end) /\
  (forall j : nat, j <> index -> get m' j = get m j).
Proof.
  intros Hassign.
  destruct (Nat.lt_ge_cases index (size m)) as [Hlt|Hge].
  2:{ rewrite assign_out_of_range in Hassign by exact Hge. discriminate. }
  rewrite assign_in_range in Hassign by exact Hlt. injection Hassign as <-.
  assert (size (Value_assign m {| index := index |} data) = size m) as Hsize
    by (unfold size; simpl; apply length_insert).
  unfold get, at_const, ConstValue_new, assert_that, ConstValue_get, ConstValue_size,
    ConstValue_at, read.
  rewrite Hsize.
  destruct (Nat.ltb_spec index (size m)) as [_|Hge]; [|lia]. simpl.
  rewrite list_lookup_insert_eq by exact Hlt. simpl.
  split; [reflexivity|]. split; [reflexivity|]. split.
  - intros i. destruct (Nat.ltb_spec i (length data)) as [Hi|Hi]; simpl.
    + destruct (lookup_lt_is_Some_2 _ _ Hi) as [x ->]. reflexivity.
    + rewrite (proj2 (lookup_ge_None _ _)) by exact Hi. reflexivity.
  - intros j Hj. destruct (j <? size m)%nat; [|reflexivity]. simpl.
    rewrite list_lookup_insert_ne by congruence. reflexivity.
Qed.

End MappingAccess.

(** ** The constructor of the projector *)

Section ProjectorConstruction.
Import Correspondence Spec.

(** X1.  The constructor of the projector returns only when its four
    checks have passed (the input is not a directory, it is a fixel data
    file, the explicit weights, if any, are as many as the input fixels,
    the output directory has as many fixels as the correspondence has
    targets) and every index stored in the correspondence addresses an
    input fixel; the projector it returns holds what it was given, and an
    output image with one value for each target. *)
Theorem Projector_new_returns_checked (input_path : InputPath) (corr : Mapping)
    (met : projection_metric_t) (fill_settings : FillSettings)
    (weights_in : option (list spec_float)) (output_directory : list Vector3f)
    (p : Projector) :
  Projector_new input_path corr met fill_settings weights_in output_directory = Ok p ->
  (is_dir input_path = false /\ is_data_file input_path = true /\
   (forall w, weights_in = Some w -> length w = length (fixels input_path)) /\
   length output_directory = size corr) /\
  Forall (Forall (fun e => (Z.to_nat e < length (fixels input_path))%nat)) (M corr) /\
  (correspondence p = corr /\ metric p = met /\ fill p = fill_settings /\
   explicit_weights p = weights_in /\ target_directions p = output_directory /\
   input_data p = map fst (fixels input_path) /\
   input_directions p = map snd (fixels input_path) /\
   length (output_data p) = size corr).
Proof.
  unfold Projector_new, fixel_data, fixel_directions. rewrite !length_map.
  unfold objectives_per_source_fixel. rewrite replicate_counters.
  destruct (foldM_rows (length (fixels input_path)) (M corr) (fun _ => 0)) as [_ Hinv].
  intros Hnew.
  destruct (is_dir input_path); [discriminate|].
  destruct (is_data_file input_path); simpl in Hnew; [|discriminate].
  assert (forall w, weights_in = Some w -> length w = length (fixels input_path)) as Hw.
  { intros w Heq. rewrite Heq in Hnew.
    destruct (Nat.eqb_spec (length w) (length (fixels input_path))) as [Hlen|_];
      [exact Hlen|discriminate]. }
  assert (length output_directory = size corr /\
          exists acc,
            foldM (foldM count_objective)
                  (counters (length (fixels input_path)) (fun _ => 0)) (M corr) = Ok acc /\
            p = {| correspondence := corr; metric := met; fill := fill_settings;
                   input_data := map fst (fixels input_path);
                   implicit_weights := map implicit_weight acc;
                   explicit_weights := weights_in;
                   input_directions := map snd (fixels input_path);
                   target_directions := output_directory;
                   output_data := replicate (length output_directory) F32.zero |})
    as (Ho & acc & Hacc & ->).
  { destruct (match weights_in with Some _ => _ | None => _ end); [discriminate|].
    destruct (Nat.eqb_spec (length output_directory) (size corr)) as [Ho|_];
      simpl in Hnew; [|discriminate].
    split; [exact Ho|].
    destruct (foldM (foldM count_objective) _ (M corr)) as [acc| | |]; try discriminate.
    exists acc. split; [reflexivity|]. simpl in Hnew. injection Hnew as <-. reflexivity. }
  split; [repeat split; try reflexivity; assumption|].
  split; [exact (Hinv acc Hacc)|].
  simpl. rewrite length_replicate. repeat split; try reflexivity. exact Ho.
Qed.

(** X2.  The projector that the constructor returns holds one implicit
    weight for each input fixel: 0 when the number of list entries that
    name the fixel is a multiple of 256, and otherwise 1 divided by that
    number reduced modulo 256. *)
Theorem Projector_new_implicit_weights (input_path : InputPath) (corr : Mapping)
    (met : projection_metric_t) (fill_settings : FillSettings)
    (weights_in : option (list spec_float)) (output_directory : list Vector3f)
    (p : Projector) :
  Projector_new input_path corr met fill_settings weights_in output_directory = Ok p ->
  length (implicit_weights p) = length (fixels input_path) /\
  forall s : nat, (s < length (fixels input_path))%nat ->
    let listed := hits (concat (M corr)) s in
    implicit_weights p !! s =
      Some (if listed mod 256 =? 0 then F32.zero
            else F32.div F32.one (F32.of_Z (listed mod 256))).
Proof.
  intros Hnew. pose proof (Projector_new_inv _ _ _ _ _ _ _ Hnew) as Hinv.
  assert (correspondence p = corr /\ input_data p = fixel_data input_path) as [Hcorr Hdata].
  { unfold Projector_new in Hnew.
    destruct (is_dir input_path); [discriminate|].
    destruct (negb (is_data_file input_path)); [discriminate|].
    destruct (match weights_in with Some _ => _ | None => _ end); [discriminate|].
    destruct (negb _); [discriminate|].
    destruct (objectives_per_source_fixel _ _); try discriminate.
    simpl in Hnew. injection Hnew as <-. split; reflexivity. }
  rewrite (inv_implicit p Hinv), Hcorr, Hdata. unfold fixel_data.
  rewrite !length_map, length_counters. split; [reflexivity|].
  intros s Hs. cbv zeta. rewrite list_lookup_fmap, (lookup_counters _ _ _ Hs).
  reflexivity.
Qed.

End ProjectorConstruction.

(** ** Calls of the projector, one after the other *)

Section ProjectorOutputs.
Import Correspondence Spec.

Lemma with_output_id p : with_output p (output_data p) = p.
Proof. destruct p; reflexivity. Qed.

Lemma set_output_with_output p i v :
  (i < length (output_data p))%nat ->
  set_output p i v = Ok (with_output p (<[i := v]> (output_data p))).
Proof.
  intros Hi. unfold set_output.
  destruct (Nat.ltb_spec i (length (output_data p))) as [_|Hge]; [|lia].
  reflexivity.
Qed.

Lemma Projector_inv_with_output p out :
  Projector_inv p -> length out = length (output_data p) ->
  Projector_inv (with_output p out).
Proof.
  intros [Hout Htargets Hindices Himplicit Hexplicit Hdirections] Hlen.
  constructor; simpl; try assumption. congruence.
Qed.

Lemma existsb_flags p (l : list Z) :
  existsb (flags_one2many p) l = true ->
  Exists (fun s => flags_one2many p s = true) l.
Proof.
  induction l as [|s l IH]; simpl; [discriminate|].
  destruct (flags_one2many p s) eqn:Hs; simpl.
  - intros _. left. exact Hs.
  - intros Hl. right. exact (IH Hl).
Qed.

Lemma existsb_no_flags p (l : list Z) :
  existsb (flags_one2many p) l = false ->
  Forall (fun s => flags_one2many p s = false) l.
Proof.
  induction l as [|s l IH]; simpl; [constructor|].
  destruct (flags_one2many p s) eqn:Hs; simpl; [discriminate|].
  intros Hl. constructor; [exact Hs|exact (IH Hl)].
Qed.

Lemma lookup_foldl_insert (f : nat -> spec_float) (order : list nat) (j : nat) :
  forall out : list spec_float,
  foldl (fun o i => <[i := f i]> o) out order !! j =
    if decide (j ∈ order) then (fun _ => f j) <$> (out !! j) else out !! j.
Proof.
  induction order as [|i order IH]; intros out; simpl.
  - destruct (decide (j ∈ [])) as [Hin|_]; [inversion Hin|reflexivity].
  - rewrite IH.
    destruct (decide (j ∈ order)) as [Hin|Hnin].
    + destruct (decide (j ∈ i :: order)) as [_|Hn]; [|exfalso; apply Hn; right; exact Hin].
      destruct (decide (i = j)) as [->|Hne].
      * destruct (Nat.lt_ge_cases j (length out)) as [Hj|Hj].
        -- rewrite list_lookup_insert_eq by exact Hj.
           destruct (lookup_lt_is_Some_2 _ _ Hj) as [x ->]. reflexivity.
        -- rewrite !(proj2 (lookup_ge_None _ _)); [reflexivity|exact Hj|].
           rewrite length_insert. exact Hj.
      * rewrite list_lookup_insert_ne by exact Hne. reflexivity.
    + destruct (decide (i = j)) as [->|Hne].
      * destruct (decide (j ∈ j :: order)) as [_|Hn]; [|exfalso; apply Hn; left].
        destruct (Nat.lt_ge_cases j (length out)) as [Hj|Hj].
        -- rewrite list_lookup_insert_eq by exact Hj.
           destruct (lookup_lt_is_Some_2 _ _ Hj) as [x ->]. reflexivity.
        -- rewrite !(proj2 (lookup_ge_None _ _)); [reflexivity|exact Hj|].
           rewrite length_insert. exact Hj.
      * rewrite list_lookup_insert_ne by exact Hne.
        destruct (decide (j ∈ i :: order)) as [Hin|_]; [|reflexivity].
        exfalso. inversion Hin as [|? ? ? Hin']; subst; [congruence|].
        exact (Hnin Hin').
Qed.

End ProjectorOutputs.

Section ProjectorRuns.
Import Correspondence Spec.
Variable k : Kernel.

(** What a call in range does, in closed form. *)
Lemma Projector_call_projected p i :
  Projector_inv p -> (i < size (correspondence p))%nat ->
  Projector_call k p i =
    Ok (with_output p (<[i := projected k p i]> (output_data p))).
Proof.
  intros Hinv Hi.
  assert (i < length (output_data p))%nat as Hout by (rewrite (inv_output p Hinv); exact Hi).
  destruct (lookup_lt_is_Some_2 (M (correspondence p)) i Hi) as [row Hrow].
  unfold projected. rewrite Hrow. simpl.
  destruct row as [|s rest].
  - rewrite (Projector_call_empty k p i Hrow). simpl.
    apply set_output_with_output. exact Hout.
  - assert (s :: rest <> []) as Hne by discriminate.
    change (length (s :: rest) =? 0)%nat with false. cbv iota.
    destruct ((1 <? length (s :: rest))%nat && nan_many2one (fill p)) eqn:Hmany.
    + rewrite (Projector_call_begin k p i _ Hrow Hne), Hmany.
      apply set_output_with_output. exact Hout.
    + destruct (existsb (flags_one2many p) (s :: rest)) eqn:Hflags.
      * rewrite (Projector_call_one2many k p Hinv i _ Hrow (existsb_flags _ _ Hflags)).
        apply set_output_with_output. exact Hout.
      * rewrite (Projector_call_aggregate k p Hinv i _ Hrow Hne Hmany
                   (existsb_no_flags _ _ Hflags)).
        destruct (metric p); try (apply set_output_with_output; exact Hout).
        assert (i < length (target_directions p))%nat as Htarget
          by (rewrite (inv_targets p Hinv); exact Hi).
        unfold read. destruct (lookup_lt_is_Some_2 _ _ Htarget) as [d ->]. simpl.
        apply set_output_with_output. exact Hout.
Qed.

Lemma Projector_call_out_of_range p i :
  (size (correspondence p) <= i)%nat -> Projector_call k p i = AssertFail.
Proof.
  intros Hi. unfold Projector_call, assert_that.
  destruct (Nat.ltb_spec i (size (correspondence p))) as [Hlt|_]; [lia|reflexivity].
Qed.

Lemma Projector_call_with_output p out i :
  Projector_inv p -> length out = length (output_data p) ->
  (i < size (correspondence p))%nat ->
  Projector_call k (with_output p out) i =
    Ok (with_output p (<[i := projected k p i]> out)).
Proof.
  intros Hinv Hlen Hi.
  rewrite (Projector_call_projected (with_output p out) i
             (Projector_inv_with_output p out Hinv Hlen) Hi).
  reflexivity.
Qed.

(** The outputs after a run of calls over [order], from the outputs [out]. *)
Lemma foldM_Projector_call p order : forall out,
  Projector_inv p -> length out = length (output_data p) ->
  Forall (fun i => (i < size (correspondence p))%nat) order ->
  foldM (Projector_call k) (with_output p out) order =
    Ok (with_output p (foldl (fun o i => <[i := projected k p i]> o) out order)).
Proof.
  induction order as [|i order IH]; intros out Hinv Hlen Hall; [reflexivity|].
  inversion Hall as [|? ? Hi Hall']; subst. simpl.
  rewrite (Projector_call_with_output p out i Hinv Hlen Hi). simpl.
  apply IH; [exact Hinv| |exact Hall'].
  rewrite length_insert. exact Hlen.
Qed.

(** X3.  In every state of a projector, [operator()] returns for every
    target index below the size of the correspondence, all its reads and
    its write being in bounds; for every other index an assertion fails,
    the one that opens the function being the first that is met. *)
Theorem Projector_call_succeeds_in_range (p : Projector) (i : nat) :
  reachable k p ->
  ((i < size (correspondence p))%nat -> exists p', Projector_call k p i = Ok p') /\
  ((size (correspondence p) <= i)%nat -> Projector_call k p i = AssertFail).
Proof.
  intros Hreach. split.
  - intros Hi. eexists. apply Projector_call_projected; [|exact Hi].
    apply (reachable_inv k). exact Hreach.
  - apply Projector_call_out_of_range.
Qed.

(** X4.  A call of [operator()] that returns has changed nothing but the
    output value of the target it was called for: the correspondence, the
    metric, the fill settings, the input data, the weights and the
    directions are as before, the output image has kept its size, and so
    has every output value at another index. *)
Theorem Projector_call_frame (p p' : Projector) (i : nat) :
  Projector_call k p i = Ok p' ->
  correspondence p' = correspondence p /\ metric p' = metric p /\
  fill p' = fill p /\ input_data p' = input_data p /\
  implicit_weights p' = implicit_weights p /\
  explicit_weights p' = explicit_weights p /\
  input_directions p' = input_directions p /\
  target_directions p' = target_directions p /\
  length (output_data p') = length (output_data p) /\
  forall j : nat, j <> i -> output_data p' !! j = output_data p !! j.
Proof.
  intros Hcall. destruct (Projector_call_sets_output k p i p' Hcall) as [v Hv].
  unfold set_output in Hv.
  destruct (i <? length (output_data p))%nat; [|discriminate].
  injection Hv as <-. simpl. repeat split.
  - apply length_insert.
  - intros j Hj. apply list_lookup_insert_ne. congruence.
Qed.

(** X5.  Two calls of [operator()] commute: on a state of a projector,
    the call for [i] followed by the call for [j] ends as the call for
    [j] followed by the call for [i] does, in the same state or in the
    same failure. *)
Theorem Projector_calls_commute (p : Projector) (i j : nat) :
  reachable k p ->
  (p1 ← Projector_call k p i; Projector_call k p1 j) =
  (p2 ← Projector_call k p j; Projector_call k p2 i).
Proof.
  intros Hreach. pose proof (reachable_inv k p Hreach) as Hinv.
  destruct (Nat.lt_ge_cases i (size (correspondence p))) as [Hi|Hi];
    destruct (Nat.lt_ge_cases j (size (correspondence p))) as [Hj|Hj].
  - rewrite (Projector_call_projected p i Hinv Hi), (Projector_call_projected p j Hinv Hj).
    simpl.
    rewrite !Projector_call_with_output by (try rewrite length_insert; auto).
    destruct (decide (i = j)) as [->|Hne]; [reflexivity|].
    rewrite (list_insert_insert_ne _ j i) by congruence. reflexivity.
  - rewrite (Projector_call_projected p i Hinv Hi), (Projector_call_out_of_range p j Hj).
    simpl. apply Projector_call_out_of_range. exact Hj.
  - rewrite (Projector_call_projected p j Hinv Hj), (Projector_call_out_of_range p i Hi).
    simpl. symmetry. apply Projector_call_out_of_range. exact Hi.
  - rewrite (Projector_call_out_of_range p i Hi), (Projector_call_out_of_range p j Hj).
    reflexivity.
Qed.

(** X6.  Whatever the order in which target indices are handed to
    [operator()], and however often each is, the run returns, and it
    leaves at every index that was handed the value that a single call on
    the state before the run stores there, and at every other index the
    value that was there. *)
Theorem projection_independent_of_schedule (p : Projector) (order : list nat) :
  reachable k p ->
  Forall (fun i => (i < size (correspondence p))%nat) order ->
  exists p', foldM (Projector_call k) p order = Ok p' /\
    forall i : nat,
      (i ∈ order ->
       exists p_i, Projector_call k p i = Ok p_i /\
                   output_data p' !! i = output_data p_i !! i) /\
      (i ∉ order -> output_data p' !! i = output_data p !! i).
Proof.
  intros Hreach Hall. pose proof (reachable_inv k p Hreach) as Hinv.
  pose proof (foldM_Projector_call p order (output_data p) Hinv eq_refl Hall) as Hrun.
  rewrite with_output_id in Hrun. eexists. split; [exact Hrun|].
  intros i. simpl. rewrite lookup_foldl_insert. split.
  - intros Hin. rewrite Forall_forall in Hall. pose proof (Hall i Hin) as Hi.
    eexists. split; [exact (Projector_call_projected p i Hinv Hi)|]. simpl.
    destruct (decide (i ∈ order)) as [_|Hn]; [|contradiction].
    assert (i < length (output_data p))%nat as Hout
      by (rewrite (inv_output p Hinv); exact Hi).
    rewrite list_lookup_insert_eq by exact Hout.
    destruct (lookup_lt_is_Some_2 _ _ Hout) as [x ->]. reflexivity.
  - intros Hnin. destruct (decide (i ∈ order)) as [Hin|_]; [contradiction|reflexivity].
Qed.

End ProjectorRuns.

(** ** The cost table at its ends *)

Section DP2CostEnds.
Import Correspondence.
Variables tan acos : spec_float -> spec_float.

(** X8.  For a resolution with [resolution + 2] below [2 ^ 63], where the
    size of the table wraps neither as a [size_t] nor as the signed index
    of Eigen, the table of [DP2Cost (resolution)] has [resolution + 2]
    entries: entry [bin] is the cost computed for [bin / resolution], for
    every [bin] from 0 to [resolution]; the entry after them is the
    padding, 0; there is nothing after it; and the multiplier is the
    resolution converted to [float]. *)
Theorem DP2Cost_table_layout (resolution : Z) :
  0 <= resolution < 2 ^ 63 - 2 ->
  let c := DP2Cost_new tan acos resolution in
  Z.of_nat (length (data c)) = resolution + 2 /\
  (forall bin : Z, 0 <= bin <= resolution ->
     data c !! Z.to_nat bin =
       Some (F32.of_double (tan (acos (F64.div (F64.of_Z bin) (F64.of_Z resolution)))))) /\
  data c !! Z.to_nat (resolution + 1) = Some F32.zero /\
  (forall j : Z, resolution + 2 <= j -> data c !! Z.to_nat j = None) /\
  multiplier c = F32.of_Z resolution.
Proof.
  intros [Hr _] c. subst c.
  split; [apply length_data; exact Hr|].
  split; [intros bin Hbin; apply data_bin; exact Hbin|].
  split; [apply data_padding; exact Hr|].
  split; [intros j Hj; apply data_past_the_end; assumption|].
  reflexivity.
Qed.

(** The query [dp = 1]: the position is the resolution itself, the last
    bin, whose entry is [tan (acos (1))]. *)
Lemma DP2Cost_call_at_one (resolution : Z) :
  1 <= resolution < 2 ^ 24 ->
  acos F64.one = S754_zero false ->
  tan (S754_zero false) = S754_zero false ->
  DP2Cost_lower (DP2Cost_new tan acos resolution) F32.one = Some resolution /\
  DP2Cost_call (DP2Cost_new tan acos resolution) F32.one = Ok F32.zero.
Proof.
  intros HR Hacos Htan.
  destruct (F32_of_Z_exact resolution HR) as (m & e & Hof_Z & Hd & He & Hm).
  assert (F32.mul F32.one (F32.of_Z resolution) = F32.of_Z resolution) as Hposition
    by (rewrite Hof_Z; apply F32_mul_one; [exact Hd|lia]).
  assert (to_size_t (F32.of_Z resolution) = Some resolution) as Hlower
    by (rewrite Hof_Z; apply to_size_t_integer; [lia|lia|exact Hm]).
  split.
  - unfold DP2Cost_lower. rewrite multiplier_DP2Cost_new, Hposition. exact Hlower.
  - rewrite (DP2Cost_call_reads _ F32.one resolution);
      [|reflexivity|rewrite multiplier_DP2Cost_new, Hposition; exact Hlower].
    rewrite (data_bin tan acos resolution resolution) by lia.
    assert (uint64_t (resolution + 1) = resolution + 1) as ->
      by (unfold uint64_t; apply Z.mod_small; lia).
    rewrite (data_padding tan acos resolution) by lia.
    rewrite multiplier_DP2Cost_new, Hposition. cbv zeta.
    assert (DP2Cost_bin tan acos resolution resolution = F32.zero) as ->.
    { unfold DP2Cost_bin.
      destruct (F64_of_Z_finite resolution ltac:(lia)) as (m64 & e64 & ->).
      rewrite F64_div_diag, Hacos, Htan. reflexivity. }
    rewrite Hof_Z, F32_sub_diag. reflexivity.
Qed.

(** X10.  For parallel directions the cost is 0, exactly: with a
    resolution from 1 to below [2 ^ 24], the query [dp = 1] has the last
    bin for its lower index and returns 0, given that the C library
    returns [+0] for [acos (1)] and for [tan (+0)], as Annex F of the C
    standard asks. *)
Theorem DP2Cost_of_parallel_directions (resolution : Z) :
  1 <= resolution < 2 ^ 24 ->
  acos F64.one = S754_zero false ->
  tan (S754_zero false) = S754_zero false ->
  DP2Cost_lower (DP2Cost_new tan acos resolution) F32.one = Some resolution /\
  DP2Cost_call (DP2Cost_new tan acos resolution) F32.one = Ok F32.zero.
Proof.
  intros HR Hacos Htan.
  destruct (DP2Cost_call_at_one resolution HR Hacos Htan) as [Hlower Hcall].
  split; [exact Hlower|exact Hcall].
Qed.




End DP2CostEnds.

Section DP2CostInstances.
Import Correspondence Examples.



End DP2CostInstances.

(** ** fixel2fixel: the source of target indices *)

Section SourceFacts.
Import fixel2fixel QueueSpec.

Lemma Source_calls_from (n : nat) : forall (size c : Z),
  0 <= c -> c + Z.of_nat n <= 2 ^ 64 ->
  Source_calls n {| size := size; counter := c |} =
    map (fun i => (i, i <? size)) (seqZ c (Z.of_nat n)).
Proof.
  induction n as [|n IH]; intros size c Hc Hn; [reflexivity|].
  rewrite Nat2Z.inj_succ, seqZ_cons by lia. simpl.
  destruct (Z.eq_dec (Z.of_nat n) 0) as [Hzero|Hpos].
  - assert (n = 0%nat) as -> by lia. reflexivity.
  - rewrite uint64_t_small by lia. rewrite IH by lia.
    replace (Z.pred (Z.succ (Z.of_nat n))) with (Z.of_nat n) by lia.
    replace (Z.succ c) with (c + 1) by lia. reflexivity.
Qed.

(** X13.  A source made for [size] targets hands out the indices 0, 1, ...,
    [size - 1], each once and in this order, returning [true] with each,
    and returns [false] at the call after them; for [size = 0] the first
    call returns [false]. *)
Theorem Source_yields_each_index_once (size : Z) :
  0 <= size < 2 ^ 64 ->
  Source_calls (Z.to_nat size + 1) (Source_new size) =
    map (fun i => (i, true)) (seqZ 0 size) ++ [(size, false)].
Proof.
  intros Hsize. unfold Source_new.
  rewrite Source_calls_from by lia.
  replace (Z.of_nat (Z.to_nat size + 1)) with (size + 1) by lia.
  rewrite seqZ_app by lia. rewrite map_app. f_equal.
  - apply map_ext_in. intros i Hi. apply list_elem_of_In, elem_of_seqZ in Hi.
    destruct (Z.ltb_spec i size) as [_|Hge]; [reflexivity|lia].
  - simpl. rewrite Z.add_0_l, Z.ltb_irrefl. reflexivity.
Qed.

End SourceFacts.

(** ** Strings *)

Section Strings.
Import MR.

Lemma substr_Ok (s : std_string) (pos n : Z) :
  0 <= pos <= string_size s ->
  substr s pos n = Ok (take (Z.to_nat (Z.min n (string_size s - pos))) (drop (Z.to_nat pos) s)).
Proof.
  intros Hpos. unfold substr.
  destruct (Z.ltb_spec (string_size s) pos) as [Hlt|_]; [lia|reflexivity].
Qed.

(** X14.  [shorten] returns a text that has at most [longest] characters
    as it is; a longer one it cuts down to exactly [longest] characters,
    its first [prefix] ones, three dots and its last [longest - prefix - 3]
    ones, provided that [prefix + 3] is at most [longest]; when it is more,
    and below [2 ^ 63], so that the start of the second [substr] does not
    wrap in [size_t], that [substr] starts past the end of the text and
    throws [std::out_of_range].  The text is shorter than [2 ^ 63]
    characters. *)
Theorem shorten_fits (text : std_string) (longest prefix : Z) :
  0 <= longest -> 0 <= prefix -> string_size text < 2 ^ 63 ->
  (string_size text <= longest -> shorten text longest prefix = Ok text) /\
  (longest < string_size text -> prefix + 3 <= longest ->
   exists r, shorten text longest prefix = Ok r /\
     string_size r = longest /\
     r = take (Z.to_nat prefix) text ++ literal "..." ++
         drop (Z.to_nat (string_size text - (longest - prefix - 3))) text) /\
  (longest < string_size text -> longest < prefix + 3 -> prefix + 3 < 2 ^ 63 ->
   shorten text longest prefix = Throw "basic_string::substr").
Proof.
  intros Hlongest Hprefix Hsize. unfold shorten. split; [|split].
  - intros Hle. destruct (Z.ltb_spec longest (string_size text)) as [Hlt|_]; [lia|reflexivity].
  - intros Hlt Hfit.
    destruct (Z.ltb_spec longest (string_size text)) as [_|Hge]; [|lia].
    rewrite (uint64_t_small (string_size text - longest)) by lia.
    rewrite (uint64_t_small (string_size text - longest + prefix)) by lia.
    rewrite (uint64_t_small (string_size text - longest + prefix + 3)) by lia.
    rewrite substr_Ok by lia. simpl.
    rewrite substr_Ok by lia. simpl.
    eexists. split; [reflexivity|].
    unfold string_size in *. split.
    + rewrite length_app. cbn [length]. rewrite !length_take, !length_drop.
      unfold npos. lia.
    + f_equal.
      * change (Z.to_nat 0) with 0%nat. rewrite drop_0. f_equal. lia.
      * do 3 f_equal. rewrite take_ge by (rewrite length_drop; unfold npos; lia).
        f_equal. lia.
  - intros Hlt Hfit Hsmall.
    destruct (Z.ltb_spec longest (string_size text)) as [_|Hge]; [|lia].
    rewrite (uint64_t_small (string_size text - longest)) by lia.
    rewrite (uint64_t_small (string_size text - longest + prefix)) by lia.
    rewrite (uint64_t_small (string_size text - longest + prefix + 3)) by lia.
    rewrite (substr_Ok text 0 prefix) by lia. simpl. unfold substr.
    destruct (Z.ltb_spec (string_size text) (string_size text - longest + prefix + 3))
      as [_|Hge]; [reflexivity|lia].
Qed.

Lemma find_first_not_of_from_spec (set s : std_string) : forall i : Z,
  (Forall (fun c => member c set = true) s /\ find_first_not_of_from set s i = npos) \/
  (exists (n : nat) (c : ascii),
     find_first_not_of_from set s i = i + Z.of_nat n /\
     s !! n = Some c /\ member c set = false /\
     Forall (fun c => member c set = true) (take n s)).
Proof.
  induction s as [|c rest IH]; intros i; simpl.
  - left. split; [constructor|reflexivity].
  - destruct (member c set) eqn:Hc.
    + destruct (IH (i + 1)) as [[Hall Hr]|(n & c' & Hr & Hn & Hc' & Hall)].
      * left. split; [constructor; assumption|exact Hr].
      * right. exists (S n), c'. split; [lia|]. split; [exact Hn|].
        split; [exact Hc'|]. simpl. constructor; assumption.
    + right. exists 0%nat, c. split; [lia|]. split; [reflexivity|].
      split; [exact Hc|constructor].
Qed.

Lemma find_last_not_of_from_spec (set s : std_string) : forall i found : Z,
  (Forall (fun c => member c set = true) s /\
   find_last_not_of_from set s i found = found) \/
  (exists (n : nat) (c : ascii),
     find_last_not_of_from set s i found = i + Z.of_nat n /\
     s !! n = Some c /\ member c set = false /\
     Forall (fun c => member c set = true) (drop (S n) s)).
Proof.
  induction s as [|c rest IH]; intros i found; simpl.
  - left. split; [constructor|reflexivity].
  - destruct (IH (i + 1) (if member c set then found else i))
      as [[Hall Hr]|(n & c' & Hr & Hn & Hc' & Hall)].
    + destruct (member c set) eqn:Hc.
      * left. split; [constructor; assumption|exact Hr].
      * right. exists 0%nat, c. split; [lia|]. split; [reflexivity|].
        split; [exact Hc|]. simpl. rewrite drop_0. exact Hall.
    + right. exists (S n), c'. split; [lia|]. split; [exact Hn|].
      split; [exact Hc'|exact Hall].
Qed.

Lemma not_all_in_set (set s : std_string) (n : nat) (c : ascii) :
  s !! n = Some c -> member c set = false -> ~ Forall (fun c => member c set = true) s.
Proof.
  intros Hn Hc Hall. rewrite Forall_lookup in Hall.
  pose proof (Hall n c Hn) as Hin. simpl in Hin. congruence.
Qed.

(** What [strip] removes, and what it leaves. *)
Lemma strip_parts (s ws : std_string) (left right : bool) :
  string_size s < npos ->
  exists pre result post : std_string,
    strip s ws left right = Ok result /\
    s = pre ++ result ++ post /\
    Forall (fun c => member c ws = true) pre /\
    Forall (fun c => member c ws = true) post /\
    (if left then forall c, head result = Some c -> member c ws = false else pre = []) /\
    (if right then forall c, last result = Some c -> member c ws = false else post = []).
Proof.
  intros Hsize. unfold strip, find_first_not_of, find_last_not_of.
  unfold string_size, npos in Hsize.
  assert (forall n : nat, s !! n <> None -> Z.of_nat n < Z.of_nat (length s)) as Hin.
  { intros n Hn. destruct (s !! n) eqn:Heq; [|congruence].
    apply lookup_lt_Some in Heq. lia. }
  destruct (find_last_not_of_from_spec ws s 0 npos)
    as [[Hall2 Hlast]|(n2 & c2 & Hlast & Hn2 & Hc2 & Hall2)];
  destruct (find_first_not_of_from_spec ws s 0)
    as [[Hall1 Hfirst]|(n1 & c1 & Hfirst & Hn1 & Hc1 & Hall1)].
  - (* only characters of [ws] *)
    destruct left.
    + rewrite Hfirst, Z.eqb_refl.
      exists s, [], []. rewrite app_nil_r.
      repeat split; try assumption; try constructor; try discriminate.
      destruct right; [discriminate|reflexivity].
    + change (0 =? npos) with false. cbv iota.
      destruct right.
      * rewrite Hlast. change (uint64_t (npos + 1)) with 0.
        change (uint64_t (0 - 0)) with 0.
        rewrite substr_Ok by (unfold string_size; lia).
        exists [], [], s. split.
        { f_equal. rewrite Z.min_l by (unfold string_size; lia). reflexivity. }
        repeat split; try assumption; try constructor; discriminate.
      * change (uint64_t (npos - 0)) with npos.
        rewrite substr_Ok by (unfold string_size; lia).
        exists [], s, []. rewrite app_nil_r. split.
        { f_equal. rewrite Z.min_r by (unfold string_size, npos; lia). simpl.
          rewrite drop_0. apply take_ge. unfold string_size. lia. }
        repeat split; try constructor.
  - exfalso. exact (not_all_in_set ws s n1 c1 Hn1 Hc1 Hall2).
  - exfalso. exact (not_all_in_set ws s n2 c2 Hn2 Hc2 Hall1).
  - pose proof (Hin n1 ltac:(congruence)) as Hlt1.
    pose proof (Hin n2 ltac:(congruence)) as Hlt2.
    assert (n1 <= n2)%nat as Horder.
    { destruct (Nat.le_gt_cases n1 n2) as [Hle|Hgt]; [exact Hle|]. exfalso.
      rewrite Forall_lookup in Hall1.
      assert (take n1 s !! n2 = Some c2) as Htake
        by (rewrite lookup_take_lt by exact Hgt; exact Hn2).
      pose proof (Hall1 n2 c2 Htake) as Hmem. simpl in Hmem. congruence. }
    rewrite Hfirst, Hlast.
    set (first := if left then n1 else 0%nat).
    set (stop := if right then S n2 else length s).
    assert ((if left then 0 + Z.of_nat n1 else 0) = Z.of_nat first) as ->
      by (subst first; destruct left; lia).
    assert (first <= n2)%nat as Hfirst_le by (subst first; destruct left; lia).
    destruct (Z.eqb_spec (Z.of_nat first) npos) as [Heq|_]; [unfold npos in Heq; lia|].
    assert (Z.min (uint64_t ((if right then uint64_t (0 + Z.of_nat n2 + 1) else npos)
                             - Z.of_nat first))
                  (string_size s - Z.of_nat first) = Z.of_nat (stop - first)) as Hcount.
    { subst stop. unfold string_size. destruct right.
      - rewrite (uint64_t_small (0 + Z.of_nat n2 + 1)) by lia.
        rewrite uint64_t_small by lia. lia.
      - rewrite uint64_t_small by (unfold npos; lia).
        unfold npos. lia. }
    rewrite substr_Ok by (unfold string_size; lia).
    rewrite Hcount, !Nat2Z.id.
    exists (take first s), (take (stop - first) (drop first s)), (drop stop s).
    assert (first <= stop)%nat as Hfs by (subst stop; destruct right; lia).
    split; [reflexivity|]. split; [|split; [|split; [|split]]].
    + rewrite <- (take_drop first s) at 1. f_equal.
      rewrite <- (take_drop (stop - first) (drop first s)) at 1. f_equal.
      rewrite drop_drop. f_equal. lia.
    + subst first. destruct left; [exact Hall1|constructor].
    + subst stop. destruct right; [exact Hall2|].
      rewrite drop_all. constructor.
    + subst first. destruct left; [|reflexivity].
      intros c Hc. rewrite head_lookup in Hc.
      rewrite lookup_take_lt in Hc by (subst stop; destruct right; lia).
      rewrite lookup_drop, Nat.add_0_r in Hc.
      assert (Some c = Some c1) as Heq
        by (transitivity (s !! n1); [symmetry; exact Hc|exact Hn1]).
      injection Heq as ->. exact Hc1.
    + subst stop. destruct right; [|apply drop_all].
      intros c Hc. rewrite last_lookup in Hc.
      rewrite length_take, length_drop in Hc.
      replace (Init.Nat.pred ((S n2 - first) `min` (length s - first)))%nat
        with (n2 - first)%nat in Hc by lia.
      rewrite lookup_take_lt in Hc by lia.
      rewrite lookup_drop in Hc.
      replace (first + (n2 - first))%nat with n2 in Hc by lia.
      assert (Some c = Some c2) as Heq
        by (transitivity (s !! n2); [symmetry; exact Hc|exact Hn2]).
      injection Heq as ->. exact Hc2.
Qed.

(** X15.  [strip] returns, without ever throwing, a part of the string
    that begins where the characters of [ws] at its start end and ends
    where those at its end begin: the string is what was stripped on the
    left, the result and what was stripped on the right; both stripped
    parts hold characters of [ws] only; on a side that is stripped the
    result does not begin, or end, with a character of [ws]; on a side
    that is not, nothing is removed. *)
Theorem strip_removes_only_the_ends (s ws : std_string) (left right : bool) :
  string_size s < npos ->
  exists pre result post : std_string,
    strip s ws left right = Ok result /\
    s = pre ++ result ++ post /\
    Forall (fun c => member c ws = true) pre /\
    Forall (fun c => member c ws = true) post /\
    (if left then forall c, head result = Some c -> member c ws = false else pre = []) /\
    (if right then forall c, last result = Some c -> member c ws = false else post = []).
Proof.
  intros Hsize.
  destruct (strip_parts s ws left right Hsize) as (pre & result & post & Hparts).
  exists pre, result, post. exact Hparts.
Qed.

(** X16.  Stripping what [strip] returned, with the same characters and on
    the same sides, returns it unchanged. *)
Theorem strip_idempotent (s ws r : std_string) (left right : bool) :
  string_size s < npos ->
  strip s ws left right = Ok r ->
  strip r ws left right = Ok r.
Proof.
  intros Hsize Hstrip.
  destruct (strip_parts s ws left right Hsize)
    as (pre & r0 & post & Hr0 & Hs & _ & _ & Hhead & Hlast).
  rewrite Hstrip in Hr0. injection Hr0 as <-.
  assert (string_size r < npos) as Hsize'.
  { unfold string_size in *. rewrite Hs, !length_app in Hsize. lia. }
  destruct (strip_parts r ws left right Hsize')
    as (pre' & r' & post' & Hr' & Hr & Hpre' & Hpost' & Hleft & Hright).
  assert (pre' = []) as ->.
  { destruct left; [|exact Hleft]. destruct pre' as [|c pre']; [reflexivity|].
    exfalso. pose proof (Forall_inv Hpre') as Hc. simpl in Hc.
    rewrite (Hhead c) in Hc; [discriminate|]. rewrite Hr. reflexivity. }
  assert (post' = []) as ->.
  { destruct right; [|exact Hright].
    destruct (last post') as [c|] eqn:Hc.
    - exfalso.
      assert (member c ws = true) as Hin.
      { rewrite Forall_lookup in Hpost'. rewrite last_lookup in Hc.
        exact (Hpost' _ _ Hc). }
      rewrite (Hlast c) in Hin; [discriminate|].
      rewrite Hr, !last_app, Hc. reflexivity.
    - apply last_None. exact Hc. }
  rewrite app_nil_l, app_nil_r in Hr. rewrite Hr'. f_equal. symmetry. exact Hr.
Qed.

Lemma tolower_tolower (c : ascii) : tolower (tolower c) = tolower c.
Proof. destruct c as [[] [] [] [] [] [] [] []]; reflexivity. Qed.

Lemma toupper_toupper (c : ascii) : toupper (toupper c) = toupper c.
Proof. destruct c as [[] [] [] [] [] [] [] []]; reflexivity. Qed.

Lemma tolower_toupper (c : ascii) : tolower (toupper c) = tolower c.
Proof. destruct c as [[] [] [] [] [] [] [] []]; reflexivity. Qed.

Lemma toupper_tolower (c : ascii) : toupper (tolower c) = toupper c.
Proof. destruct c as [[] [] [] [] [] [] [] []]; reflexivity. Qed.

Lemma lowercase_uppercase (s : std_string) : lowercase (uppercase s) = lowercase s.
Proof.
  unfold lowercase, uppercase. rewrite map_map. apply map_ext. apply tolower_toupper.
Qed.

Lemma lowercase_lowercase (s : std_string) : lowercase (lowercase s) = lowercase s.
Proof.
  unfold lowercase. rewrite map_map. apply map_ext. apply tolower_tolower.
Qed.

(** X17.  [lowercase] and [uppercase] keep the length of the string, change
    nothing when applied a second time, and each undoes what the other did
    to the letters: the lower case of the upper case of a string is its
    lower case, and the other way round. *)
Theorem letter_case_conversions (s : std_string) :
  length (lowercase s) = length s /\ length (uppercase s) = length s /\
  lowercase (lowercase s) = lowercase s /\ uppercase (uppercase s) = uppercase s /\
  lowercase (uppercase s) = lowercase s /\ uppercase (lowercase s) = uppercase s.
Proof.
  split; [apply length_map|]. split; [apply length_map|].
  split; [apply lowercase_lowercase|].
  split; [unfold uppercase; rewrite map_map; apply map_ext; apply toupper_toupper|].
  split; [apply lowercase_uppercase|].
  unfold lowercase, uppercase. rewrite map_map. apply map_ext. apply toupper_tolower.
Qed.

(** X18.  [to<bool>] does not depend on the case of the letters: a string,
    its upper case and its lower case convert to the same value or fail in
    the same way, whatever [to<int>] does with what is not one of the four
    words. *)
Theorem to_bool_ignores_case (to_int : std_string -> outcome Z) (s : std_string) :
  to_bool to_int (uppercase s) = to_bool to_int s /\
  to_bool to_int (lowercase s) = to_bool to_int s.
Proof.
  unfold to_bool. rewrite lowercase_uppercase, lowercase_lowercase.
  split; reflexivity.
Qed.

(** X19.  [replace (string, orig, final)] keeps the length of the string,
    puts [final] where [orig] was and leaves every other character where
    it was; unless [final] is [orig], no [orig] is left. *)
Theorem replace_leaves_no_orig (s : std_string) (orig final : ascii) :
  length (replace s orig final) = length s /\
  (forall (i : nat) (c : ascii), s !! i = Some c ->
     replace s orig final !! i = Some (if Ascii.eqb c orig then final else c)) /\
  (final <> orig -> Forall (fun c => c <> orig) (replace s orig final)).
Proof.
  unfold replace. split; [apply length_map|]. split.
  - intros i c Hc. etransitivity; [apply list_lookup_fmap|].
    cbv delta [std_string] in Hc. rewrite Hc. reflexivity.
  - intros Hne. apply Forall_forall. intros c Hin.
    apply list_elem_of_fmap in Hin. destruct Hin as (c0 & -> & _).
    destruct (Ascii.eqb_spec c0 orig) as [_|Hc0]; assumption.
Qed.

End Strings.

(** ** mrthreshold: the data, the threshold and the voxels *)

Section ThresholdData.
Import mrthreshold ThresholdSpec.

Lemma get_data_spec (voxels : list spec_float) (mask : option (list bool))
    (ignore_zero : bool) (data : list spec_float) :
  get_data voxels mask ignore_zero = Ok data ->
  data <> [] /\
  Forall (fun v => v ∈ voxels /\
                   (if ignore_zero then nonzero v else isfinite v) = true) data.
Proof.
  unfold get_data. intros Hdata.
  destruct (length _ =? 0)%nat eqn:Hlen; [discriminate|]. injection Hdata as <-.
  apply Nat.eqb_neq in Hlen. split.
  - intros Hnil. rewrite Hnil in Hlen. apply Hlen. reflexivity.
  - apply Forall_forall. intros v Hv. apply list_elem_of_In in Hv.
    destruct mask as [m|], ignore_zero.
    + apply in_map_iff in Hv. destruct Hv as ([v' b] & <- & Hv).
      apply filter_In in Hv. destruct Hv as [Hin Hv]. simpl in *.
      apply andb_true_iff in Hv. split; [|tauto].
      apply list_elem_of_In, elem_of_zip_l in Hin. exact Hin.
    + apply in_map_iff in Hv. destruct Hv as ([v' b] & <- & Hv).
      apply filter_In in Hv. destruct Hv as [Hin Hv]. simpl in *.
      apply andb_true_iff in Hv. split; [|tauto].
      apply list_elem_of_In, elem_of_zip_l in Hin. exact Hin.
    + apply filter_In in Hv. split; [apply list_elem_of_In|]; tauto.
    + apply filter_In in Hv. split; [apply list_elem_of_In|]; tauto.
Qed.

Lemma get_data_finite (voxels : list spec_float) (mask : option (list bool))
    (data : list spec_float) :
  get_data voxels mask false = Ok data -> Forall (fun v => isfinite v = true) data.
Proof.
  intros Hdata. destruct (get_data_spec voxels mask false data Hdata) as [_ Hall].
  apply Forall_forall. intros v Hv. rewrite Forall_forall in Hall.
  exact (proj2 (Hall v Hv)).
Qed.

Lemma get_data_Ok_or_Throw (voxels : list spec_float) (mask : option (list bool))
    (ignore_zero : bool) :
  (exists data, get_data voxels mask ignore_zero = Ok data) \/
  (exists msg, get_data voxels mask ignore_zero = Throw msg).
Proof.
  unfold get_data. destruct (length _ =? 0)%nat; [right|left]; eexists; reflexivity.
Qed.

(** X20.  [get_data] never returns an empty vector: it returns values of
    the image that pass its test, at least one, or throws.  The test is
    [std::isfinite] without -ignorezero; with -ignorezero it is the value
    itself, which a NaN passes: a NaN of the image is then among the data
    from which the threshold is computed. *)
Theorem get_data_values (voxels : list spec_float) (mask : option (list bool))
    (ignore_zero : bool) :
  ((exists data, get_data voxels mask ignore_zero = Ok data /\ data <> [] /\
      Forall (fun v => v ∈ voxels /\
                       (if ignore_zero then nonzero v else isfinite v) = true) data) \/
   get_data voxels mask ignore_zero =
     Throw "No valid input data found; unable to determine threshold") /\
  (S754_nan ∈ voxels ->
   exists data, get_data voxels None true = Ok data /\ S754_nan ∈ data).
Proof.
  split.
  - destruct (get_data voxels mask ignore_zero) as [data| | |] eqn:Hdata.
    + left. exists data. split; [reflexivity|]. exact (get_data_spec _ _ _ _ Hdata).
    + right. unfold get_data in Hdata.
      destruct (length _ =? 0)%nat; [symmetry; exact Hdata|discriminate].
    + unfold get_data in Hdata. destruct (length _ =? 0)%nat; discriminate.
    + unfold get_data in Hdata. destruct (length _ =? 0)%nat; discriminate.
  - intros Hin. unfold get_data.
    assert (S754_nan ∈ List.filter nonzero voxels) as Hnan.
    { apply list_elem_of_In, filter_In. split; [apply list_elem_of_In; exact Hin|reflexivity]. }
    destruct (List.filter nonzero voxels) as [|v data] eqn:Hdata; [inversion Hnan|].
    simpl. eexists. split; [reflexivity|exact Hnan].
Qed.

Lemma length_insert_sorted (x : spec_float) (l : list spec_float) :
  length (insert_sorted x l) = S (length l).
Proof.
  induction l as [|y l IH]; [reflexivity|]. simpl.
  destruct (SFltb x y); simpl; [reflexivity|]. rewrite IH. reflexivity.
Qed.

Lemma length_nth_element (data : list spec_float) (nth : nat) :
  length (nth_element data nth) = length data.
Proof.
  unfold nth_element. induction data as [|x data IH]; [reflexivity|].
  simpl. rewrite length_insert_sorted, IH. reflexivity.
Qed.

Lemma insert_sorted_Permutation (x : spec_float) (l : list spec_float) :
  insert_sorted x l ≡ₚ x :: l.
Proof.
  induction l as [|y l IH]; [reflexivity|]. simpl.
  destruct (SFltb x y); [reflexivity|].
  rewrite IH. apply Permutation_swap.
Qed.

Lemma nth_element_Permutation (data : list spec_float) (nth : nat) :
  nth_element data nth ≡ₚ data.
Proof.
  unfold nth_element. induction data as [|x data IH]; [reflexivity|].
  simpl. rewrite insert_sorted_Permutation, IH. reflexivity.
Qed.

Lemma insert_sorted_sorted (x : spec_float) (l : list spec_float) :
  isfinite x = true -> Forall (fun v => isfinite v = true) l ->
  StronglySorted (fun a b => SFltb b a = false) l ->
  StronglySorted (fun a b => SFltb b a = false) (insert_sorted x l).
Proof.
  intros Hx Hfinite Hsorted.
  induction l as [|y l IH]; [repeat constructor|].
  inversion Hfinite as [|? ? Hy Hfinite']; subst.
  inversion Hsorted as [|? ? Hsorted' Hall]; subst. simpl.
  destruct (SFltb x y) eqn:Hxy.
  - constructor; [exact Hsorted|].
    assert (SFltb y x = false) as Hyx by (apply SFltb_asym; assumption).
    constructor; [exact Hyx|].
    rewrite Forall_forall in Hall, Hfinite'. apply Forall_forall. intros z Hz.
    apply (SFltb_trans_neg x y z); auto.
  - constructor; [exact (IH Hfinite' Hsorted')|].
    rewrite insert_sorted_Permutation. constructor; assumption.
Qed.

Lemma nth_element_sorted (data : list spec_float) (nth : nat) :
  Forall (fun v => isfinite v = true) data ->
  StronglySorted (fun a b => SFltb b a = false) (nth_element data nth).
Proof.
  unfold nth_element. induction data as [|x data IH]; intros Hfinite; [constructor|].
  inversion Hfinite as [|? ? Hx Hfinite']; subst. simpl.
  apply insert_sorted_sorted; [exact Hx| |exact (IH Hfinite')].
  fold (nth_element data nth). rewrite nth_element_Permutation. exact Hfinite'.
Qed.

(** In sorted data, nothing from position [i] on is smaller than the
    element at [i]. *)
Lemma sorted_from (l : list spec_float) : forall (i : nat) (t : spec_float),
  Forall (fun v => isfinite v = true) l ->
  StronglySorted (fun a b => SFltb b a = false) l ->
  l !! i = Some t ->
  Forall (fun v => SFltb v t = false) (drop i l).
Proof.
  induction l as [|x l IH]; intros i t Hfinite Hsorted Ht; [discriminate|].
  inversion Hfinite as [|? ? Hx Hfinite']; subst.
  inversion Hsorted as [|? ? Hsorted' Hall]; subst.
  destruct i as [|i].
  - injection Ht as ->. simpl. constructor; [|exact Hall].
    apply SFltb_irrefl. exact Hx.
  - simpl. exact (IH i t Hfinite' Hsorted' Ht).
Qed.

Lemma ssize_t_small (z : Z) : - 2 ^ 63 <= z < 2 ^ 63 -> ssize_t z = z.
Proof.
  intros Hz. unfold ssize_t, uint64_t.
  destruct (Z.le_gt_cases 0 z) as [Hpos|Hneg].
  - rewrite Z.mod_small by lia.
    destruct (Z.ltb_spec z (2 ^ 63)) as [_|Hge]; [reflexivity|lia].
  - replace (z mod 2 ^ 64) with (z + 2 ^ 64).
    + destruct (Z.ltb_spec (z + 2 ^ 64) (2 ^ 63)) as [Hlt|_]; lia.
    + apply (Z.mod_unique _ _ (-1)); lia.
Qed.

Lemma F64_mul_zero_r (x : spec_float) :
  to_size_t (F64.mul x (S754_zero false)) = Some 0 \/
  to_size_t (F64.mul x (S754_zero false)) = None.
Proof. destruct x as [s|s| |s m e]; simpl; auto. Qed.

Lemma foldl_largest (rest : list spec_float) : forall x : spec_float,
  isfinite x = true -> Forall (fun v => isfinite v = true) rest ->
  let largest := foldl (fun largest y => if SFltb largest y then y else largest) x rest in
  largest ∈ x :: rest /\ isfinite largest = true /\
  Forall (fun v => SFltb largest v = false) (x :: rest).
Proof.
  induction rest as [|y rest IH]; intros x Hx Hrest; simpl.
  - split; [left|]. split; [exact Hx|]. constructor; [|constructor].
    apply SFltb_irrefl. exact Hx.
  - inversion Hrest as [|? ? Hy Hrest']; subst.
    set (x' := if SFltb x y then y else x).
    assert (isfinite x' = true) as Hx' by (subst x'; destruct (SFltb x y); assumption).
    assert (SFltb x' x = false /\ SFltb x' y = false /\ (x' = x \/ x' = y))
      as (Hge_x & Hge_y & Hwhich).
    { subst x'. destruct (SFltb x y) eqn:Hxy.
      - split; [apply SFltb_asym; assumption|]. split; [apply SFltb_irrefl; exact Hy|].
        right. reflexivity.
      - split; [apply SFltb_irrefl; exact Hx|]. split; [exact Hxy|]. left. reflexivity. }
    destruct (IH x' Hx' Hrest') as (Hin & Hfinite & Hall).
    pose proof (Forall_inv Hall) as Hlargest. pose proof (Forall_inv_tail Hall) as Hall'.
    cbv beta in Hlargest.
    split; [|split; [exact Hfinite|]].
    + apply elem_of_cons in Hin. destruct Hin as [Heq|Hin'].
      * rewrite Heq. destruct Hwhich as [Hw|Hw]; rewrite Hw; [left|right; left].
      * right. right. exact Hin'.
    + constructor; [|constructor; [|exact Hall']].
      * exact (SFltb_trans_neg x x' _ Hx Hx' Hfinite Hge_x Hlargest).
      * exact (SFltb_trans_neg y x' _ Hy Hx' Hfinite Hge_y Hlargest).
Qed.

Lemma foldl_smallest (rest : list spec_float) : forall x : spec_float,
  isfinite x = true -> Forall (fun v => isfinite v = true) rest ->
  let smallest := foldl (fun smallest y => if SFltb y smallest then y else smallest) x rest in
  smallest ∈ x :: rest /\ isfinite smallest = true /\
  Forall (fun v => SFltb v smallest = false) (x :: rest).
Proof.
  induction rest as [|y rest IH]; intros x Hx Hrest; simpl.
  - split; [left|]. split; [exact Hx|]. constructor; [|constructor].
    apply SFltb_irrefl. exact Hx.
  - inversion Hrest as [|? ? Hy Hrest']; subst.
    set (x' := if SFltb y x then y else x).
    assert (isfinite x' = true) as Hx' by (subst x'; destruct (SFltb y x); assumption).
    assert (SFltb x x' = false /\ SFltb y x' = false /\ (x' = x \/ x' = y))
      as (Hle_x & Hle_y & Hwhich).
    { subst x'. destruct (SFltb y x) eqn:Hyx.
      - split; [apply SFltb_asym; assumption|]. split; [apply SFltb_irrefl; exact Hy|].
        right. reflexivity.
      - split; [apply SFltb_irrefl; exact Hx|]. split; [exact Hyx|]. left. reflexivity. }
    destruct (IH x' Hx' Hrest') as (Hin & Hfinite & Hall).
    pose proof (Forall_inv Hall) as Hsmallest. pose proof (Forall_inv_tail Hall) as Hall'.
    cbv beta in Hsmallest.
    split; [|split; [exact Hfinite|]].
    + apply elem_of_cons in Hin. destruct Hin as [Heq|Hin'].
      * rewrite Heq. destruct Hwhich as [Hw|Hw]; rewrite Hw; [left|right; left].
      * right. right. exact Hin'.
    + constructor; [|constructor; [|exact Hall']].
      * exact (SFltb_trans_neg _ x' x Hfinite Hx' Hx Hsmallest Hle_x).
      * exact (SFltb_trans_neg _ x' y Hfinite Hx' Hy Hsmallest Hle_y).
Qed.

Lemma selected_apply_voxel (threshold v : spec_float) :
  isfinite v = true ->
  selected (apply_voxel Bool threshold true false v) = SFgeb v (F32.of_double threshold).
Proof.
  intros Hv. unfold apply_voxel. simpl. rewrite Hv.
  destruct (SFgeb v (F32.of_double threshold)); reflexivity.
Qed.

(** The voxels that pass are at least as many as the data values that do. *)
Lemma selected_at_least (threshold : spec_float) (voxels : list spec_float) :
  forall (mask : option (list bool)) (data : list spec_float),
  get_data voxels mask false = Ok data ->
  (length (List.filter (fun v => SFgeb v (F32.of_double threshold)) data) <=
   length (List.filter selected (map (apply_voxel Bool threshold true false) voxels)))%nat.
Proof.
  intros mask data Hdata. unfold get_data in Hdata.
  destruct (length _ =? 0)%nat; [discriminate|]. injection Hdata as <-.
  assert (forall v, isfinite v = true -> SFgeb v (F32.of_double threshold) = true ->
            selected (apply_voxel Bool threshold true false v) = true) as Hpass
    by (intros v Hv Hge; rewrite selected_apply_voxel by exact Hv; exact Hge).
  destruct mask as [m|].
  - revert m. induction voxels as [|v voxels IH]; intros m; [destruct m; simpl; lia|].
    destruct m as [|b m]; [simpl; lia|].
    specialize (IH m).
    change (zip (v :: voxels) (b :: m)) with ((v, b) :: zip voxels m).
    cbn [List.filter List.map fst snd].
    destruct (b && isfinite v) eqn:Hkeep.
    + apply andb_true_iff in Hkeep. destruct Hkeep as [_ Hv].
      cbn [List.map List.filter fst].
      destruct (SFgeb v (F32.of_double threshold)) eqn:Hge.
      * rewrite (Hpass v Hv Hge). cbn [length]. lia.
      * destruct (selected _); cbn [length]; lia.
    + destruct (selected _); cbn [length]; lia.
  - induction voxels as [|v voxels IH]; [simpl; lia|].
    cbn [List.filter List.map].
    destruct (isfinite v) eqn:Hv.
    + cbn [List.filter].
      destruct (SFgeb v (F32.of_double threshold)) eqn:Hge.
      * rewrite (Hpass v Hv Hge). cbn [length]. lia.
      * destruct (selected _); cbn [length]; lia.
    + destruct (selected _); cbn [length]; lia.
Qed.

Lemma filter_Permutation_length (P : spec_float -> bool) (l l' : list spec_float) :
  l ≡ₚ l' -> length (List.filter P l) = length (List.filter P l').
Proof.
  induction 1 as [|x l l' _ IH|x y l|l l' l'' _ IH1 _ IH2]; simpl.
  - reflexivity.
  - destruct (P x); simpl; rewrite IH; reflexivity.
  - destruct (P x), (P y); reflexivity.
  - rewrite IH1. exact IH2.
Qed.

(** X24.  A voxel whose value is not finite gets the value that stands for
    "below" as it is before -invert swaps the two, [false] or NaN, with
    and without -invert; the value of a voxel that is finite is the
    opposite one under -invert. *)
Theorem invert_spares_nonfinite (T : output_type) (threshold : spec_float)
    (equal_as_above invert : bool) (v : spec_float) :
  (isfinite v = false ->
   apply_voxel T threshold equal_as_above invert v = below_value T) /\
  (isfinite v = true ->
   (apply_voxel T threshold equal_as_above false v = above_value T <->
    apply_voxel T threshold equal_as_above true v = below_value T) /\
   (apply_voxel T threshold equal_as_above false v = below_value T <->
    apply_voxel T threshold equal_as_above true v = above_value T)).
Proof.
  unfold apply_voxel. split; intros Hv; rewrite Hv.
  - destruct invert, equal_as_above; reflexivity.
  - destruct equal_as_above;
      [destruct (SFgeb v (F32.of_double threshold))
      |destruct (SFgtb (F64.of_float v) threshold)];
      destruct T; simpl; split; split; intros H; try reflexivity; discriminate H.
Qed.

End ThresholdData.

Section ThresholdValues.
Import mrthreshold ThresholdSpec.
Variable estimate_optimal_threshold :
  list spec_float -> option (list bool) -> outcome spec_float.

(** The branch of [calculate] for -top and -bottom: the index that is
    read, and the test that precedes the reading. *)
Lemma calculate_by_count (voxels : list spec_float) (mask : option (list bool))
    (abs percentile : spec_float) (bottom top : Z) (ignore_zero : bool)
    (data : list spec_float) :
  isfinite abs = false -> isfinite percentile = false ->
  - 2 ^ 63 <= bottom < 2 ^ 63 -> - 2 ^ 63 <= top < 2 ^ 63 ->
  0 <= Z.max bottom top ->
  get_data voxels mask ignore_zero = Ok data ->
  let count := if 0 <=? bottom then bottom else top in
  let index := if 0 <=? bottom then bottom - 1 else Z.of_nat (length data) - top in
  (1 <= count <= Z.of_nat (length data) ->
   exists threshold_float,
     nth_element data (Z.to_nat index) !! Z.to_nat index = Some threshold_float /\
     calculate estimate_optimal_threshold voxels mask abs percentile bottom top ignore_zero
       = Ok (F64.of_float threshold_float)) /\
  (count < 1 \/ Z.of_nat (length data) < count ->
   exists msg,
     calculate estimate_optimal_threshold voxels mask abs percentile bottom top ignore_zero
       = Throw msg).
Proof.
  intros Habs Hpercentile Hbottom Htop Hmax Hdata count index.
  unfold calculate. rewrite Habs, Hpercentile.
  destruct (Z.leb_spec 0 (Z.max bottom top)) as [_|Hlt]; [|lia].
  rewrite Hdata. simpl.
  assert ((if 0 <=? bottom then ssize_t (uint64_t bottom - 1)
           else Z.of_nat (length data) - top) = index) as ->.
  { subst index. destruct (Z.leb_spec 0 bottom) as [Hb|Hb]; [|reflexivity].
    rewrite uint64_t_small by lia. apply ssize_t_small. lia. }
  split.
  - intros Hcount.
    assert (0 <= index < Z.of_nat (length data)) as Hindex
      by (subst count index; destruct (0 <=? bottom); lia).
    destruct (Z.ltb_spec index 0) as [Hneg|_]; [lia|].
    destruct (Z.leb_spec (Z.of_nat (length data)) index) as [Hbig|_]; [lia|].
    simpl. unfold read.
    assert (Z.to_nat index < length (nth_element data (Z.to_nat index)))%nat as Hlt
      by (rewrite length_nth_element; lia).
    destruct (lookup_lt_is_Some_2 _ _ Hlt) as [t Ht]. rewrite Ht. simpl.
    exists t. split; reflexivity.
  - intros Hcount.
    assert (index < 0 \/ Z.of_nat (length data) <= index) as Hindex
      by (subst count index; destruct (0 <=? bottom); lia).
    eexists.
    destruct (Z.ltb_spec index 0) as [Hneg|Hpos]; [reflexivity|].
    destruct (Z.leb_spec (Z.of_nat (length data)) index) as [Hbig|Hsmall]; [reflexivity|lia].
Qed.

(** X21.  With -top or -bottom and no finite -abs or -percentile,
    [calculate] throws when the count that is asked for is below 1 or
    above the number of valid values.  When the count is in this range
    and the valid values are all finite, as they are without -ignorezero,
    it returns the value that an ascending arrangement of the valid
    values has at position [count - 1] for -bottom, which has precedence,
    and at position [size - count] for -top. *)
Theorem calculate_count_in_range (voxels : list spec_float) (mask : option (list bool))
    (abs percentile : spec_float) (bottom top : Z) (ignore_zero : bool)
    (data : list spec_float) :
  isfinite abs = false -> isfinite percentile = false ->
  - 2 ^ 63 <= bottom < 2 ^ 63 -> - 2 ^ 63 <= top < 2 ^ 63 ->
  0 <= Z.max bottom top ->
  get_data voxels mask ignore_zero = Ok data ->
  let count := if 0 <=? bottom then bottom else top in
  let index := if 0 <=? bottom then bottom - 1 else Z.of_nat (length data) - top in
  (1 <= count <= Z.of_nat (length data) ->
   Forall (fun v => isfinite v = true) data ->
   exists (threshold_float : spec_float) (sorted : list spec_float),
     sorted ≡ₚ data /\
     StronglySorted (fun a b => SFltb b a = false) sorted /\
     sorted !! Z.to_nat index = Some threshold_float /\
     calculate estimate_optimal_threshold voxels mask abs percentile bottom top ignore_zero
       = Ok (F64.of_float threshold_float)) /\
  (count < 1 \/ Z.of_nat (length data) < count ->
   exists msg,
     calculate estimate_optimal_threshold voxels mask abs percentile bottom top ignore_zero
       = Throw msg).
Proof.
  intros Habs Hpercentile Hbottom Htop Hmax Hdata count index.
  destruct (calculate_by_count voxels mask abs percentile bottom top ignore_zero data
              Habs Hpercentile Hbottom Htop Hmax Hdata) as [Hin Hout].
  split; [|exact Hout].
  intros Hcount Hfinite. destruct (Hin Hcount) as (t & Ht & Hcalc).
  exists t, (nth_element data (Z.to_nat index)).
  split; [apply nth_element_Permutation|].
  split; [apply nth_element_sorted; exact Hfinite|].
  split; [exact Ht|exact Hcalc].
Qed.

(** X22.  Without -ignorezero, when the valid values are the finite ones,
    [calculate] returns with -percentile 100 the greatest of the valid
    values, and with -percentile 0 the smallest: a value of the data that
    no value of the data is above, or below. *)
Theorem percentile_extremes (voxels : list spec_float) (mask : option (list bool))
    (abs : spec_float) (bottom top : Z) (data : list spec_float) :
  isfinite abs = false ->
  get_data voxels mask false = Ok data ->
  (exists largest,
     calculate estimate_optimal_threshold voxels mask abs (F64.of_Z 100) bottom top false
       = Ok (F64.of_float largest) /\
     largest ∈ data /\ Forall (fun v => SFltb largest v = false) data) /\
  (exists smallest,
     calculate estimate_optimal_threshold voxels mask abs F64.zero bottom top false
       = Ok (F64.of_float smallest) /\
     smallest ∈ data /\ Forall (fun v => SFltb v smallest = false) data).
Proof.
  intros Habs Hdata.
  destruct (get_data_spec voxels mask false data Hdata) as [Hne _].
  pose proof (get_data_finite voxels mask data Hdata) as Hfinite.
  destruct data as [|x rest]; [congruence|].
  inversion Hfinite as [|? ? Hx Hrest]; subst.
  unfold calculate. rewrite Habs, Hdata.
  split.
  - destruct (foldl_largest rest x Hx Hrest) as (Hin & _ & Hall).
    eexists. split; [reflexivity|]. split; [exact Hin|exact Hall].
  - destruct (foldl_smallest rest x Hx Hrest) as (Hin & _ & Hall).
    eexists. split; [reflexivity|]. split; [exact Hin|exact Hall].
Qed.

(** X23.  When a single value is valid, a percentile that is neither 0 nor
    100 makes [calculate] read the element after it: the interpolation
    takes [data[lower_index + 1]] with [lower_index = 0] in a vector of
    one element. *)
Theorem percentile_of_one_value (voxels : list spec_float) (mask : option (list bool))
    (abs percentile : spec_float) (bottom top : Z) (ignore_zero : bool) (v : spec_float) :
  isfinite abs = false -> isfinite percentile = true ->
  F64.eqb percentile (F64.of_Z 100) = false -> F64.eqb percentile F64.zero = false ->
  get_data voxels mask ignore_zero = Ok [v] ->
  calculate estimate_optimal_threshold voxels mask abs percentile bottom top ignore_zero
    = OutOfBounds.
Proof.
  intros Habs Hfinite H100 H0 Hdata. unfold calculate.
  rewrite Habs, Hfinite, Hdata. unfold mbind at 1, outcome_bind at 1. cbv beta iota.
  rewrite H100, H0.
  change (F64.of_Z (uint64_t (Z.of_nat (length [v]) - 1))) with (S754_zero false).
  destruct (F64_mul_zero_r (F64.mul F64.one_hundredth percentile)) as [-> | ->];
    reflexivity.
Qed.

(** One block under -top: with at least [top] valid values the threshold
    is found and at least [top] voxels of the block pass it. *)
Lemma block_top_selects (voxels : list spec_float) (mask : option (list bool))
    (abs percentile : spec_float) (bottom top : Z) (data : list spec_float) :
  Forall (fun v => F32.valid v = true) voxels ->
  isfinite abs = false -> isfinite percentile = false ->
  - 2 ^ 63 <= bottom < 0 -> top < 2 ^ 63 ->
  get_data voxels mask false = Ok data ->
  1 <= top <= Z.of_nat (length data) ->
  exists out : list output_value,
    execute_block estimate_optimal_threshold Bool voxels mask false abs percentile
      bottom top false false = Ok (inr out) /\
    length out = length voxels /\
    top <= Z.of_nat (length (List.filter selected out)).
Proof.
  intros Hvalid Habs Hpercentile Hbottom Hssize Hdata Htop.
  destruct (calculate_by_count voxels mask abs percentile
              bottom top false data Habs Hpercentile ltac:(lia) ltac:(lia) ltac:(lia) Hdata)
    as [Hin _].
  destruct (Z.leb_spec 0 bottom) as [Hb|_]; [lia|].
  destruct (Hin Htop) as (t & Ht & Hcalc). clear Hin.
  assert ((bottom <? 0) = true) as Hneg by (apply Z.ltb_lt; lia).
  unfold execute_block. rewrite Hcalc, Hneg.
  exists (map (apply_voxel Bool (F64.of_float t) true false) voxels).
  split; [reflexivity|]. split; [apply length_map|].
  pose proof (get_data_finite voxels mask data Hdata) as Hfinite.
  set (index := Z.to_nat (Z.of_nat (length data) - top)) in *.
  set (sorted := nth_element data index) in *.
  assert (Forall (fun v => isfinite v = true) sorted) as Hfinite'
    by (subst sorted; rewrite nth_element_Permutation; exact Hfinite).
  assert (t ∈ sorted) as Ht_in by (apply (list_elem_of_lookup_2 _ index); exact Ht).
  assert (F32.valid t = true) as Hvalid_t.
  { rewrite Forall_forall in Hvalid. apply Hvalid.
    destruct (get_data_spec voxels mask false data Hdata) as [_ Hall].
    rewrite Forall_forall in Hall. apply Hall.
    rewrite <- (nth_element_Permutation data index). exact Ht_in. }
  assert (isfinite t = true) as Hfinite_t
    by (rewrite Forall_forall in Hfinite'; apply Hfinite'; exact Ht_in).
  pose proof (sorted_from sorted index t Hfinite'
                (nth_element_sorted data index Hfinite) Ht) as Hfrom.
  assert (Z.to_nat top <= length (List.filter (fun v => SFgeb v t) sorted))%nat as Hcount.
  { rewrite <- (take_drop index sorted), List.filter_app, length_app.
    assert (List.filter (fun v => SFgeb v t) (drop index sorted) = drop index sorted) as ->.
    { apply forallb_filter_id. apply forallb_forall. intros v Hv.
      apply list_elem_of_In in Hv.
      rewrite Forall_forall in Hfrom. pose proof (Hfrom v Hv) as Hlt.
      rewrite SFgeb_SFltb; [rewrite Hlt; reflexivity| |exact Hfinite_t].
      rewrite Forall_forall in Hfinite'. apply Hfinite'.
      rewrite <- (take_drop index sorted). apply elem_of_app. right. exact Hv. }
    rewrite length_drop. subst sorted. rewrite length_nth_element. subst index. lia. }
  pose proof (selected_at_least (F64.of_float t) voxels mask data Hdata) as Hvoxels.
  rewrite (F32_of_double_of_float t Hvalid_t) in Hvoxels.
  pose proof (filter_Permutation_length (fun v => SFgeb v t) sorted data
                (nth_element_Permutation data index)) as Hperm.
  lia.
Qed.

(** One block under -top: with fewer than [top] valid values, [get_data]
    or the test of the index throws. *)
Lemma block_top_throws (voxels : list spec_float) (mask : option (list bool))
    (abs percentile : spec_float) (bottom top : Z) :
  isfinite abs = false -> isfinite percentile = false ->
  - 2 ^ 63 <= bottom < 0 -> 1 <= top < 2 ^ 63 ->
  (forall data, get_data voxels mask false = Ok data -> Z.of_nat (length data) < top) ->
  exists msg,
    execute_block estimate_optimal_threshold Bool voxels mask false abs percentile
      bottom top false false = Throw msg.
Proof.
  intros Habs Hpercentile Hbottom Htop Hfew.
  destruct (get_data_Ok_or_Throw voxels mask false) as [[data Hdata]|[msg Hthrow]].
  - destruct (calculate_by_count voxels mask abs percentile
                bottom top false data Habs Hpercentile ltac:(lia) ltac:(lia) ltac:(lia) Hdata)
      as [_ Hout].
    destruct (Z.leb_spec 0 bottom) as [Hb|_]; [lia|].
    destruct (Hout (or_intror (Hfew data Hdata))) as [msg Hmsg].
    exists msg. unfold execute_block. rewrite Hmsg. reflexivity.
  - exists msg. unfold execute_block, calculate. rewrite Habs, Hpercentile.
    destruct (Z.leb_spec 0 (Z.max bottom top)) as [_|Hlt]; [|lia].
    rewrite Hthrow. reflexivity.
Qed.

Lemma block_top_returns_or_throws (voxels : list spec_float) (mask : option (list bool))
    (abs percentile : spec_float) (bottom top : Z) :
  isfinite abs = false -> isfinite percentile = false ->
  - 2 ^ 63 <= bottom < 0 -> 1 <= top < 2 ^ 63 ->
  (exists out,
     execute_block estimate_optimal_threshold Bool voxels mask false abs percentile
       bottom top false false = Ok (inr out)) \/
  (exists msg,
     execute_block estimate_optimal_threshold Bool voxels mask false abs percentile
       bottom top false false = Throw msg).
Proof.
  intros Habs Hpercentile Hbottom Htop.
  destruct (get_data_Ok_or_Throw voxels mask false) as [[data Hdata]|[msg Hthrow]].
  - destruct (Z.le_gt_cases top (Z.of_nat (length data))) as [Hle|Hgt].
    + left.
      destruct (calculate_by_count voxels mask abs percentile
                  bottom top false data Habs Hpercentile ltac:(lia) ltac:(lia) ltac:(lia)
                  Hdata) as [Hin _].
      destruct (Z.leb_spec 0 bottom) as [Hb|_]; [lia|].
      destruct (Hin ltac:(lia)) as (t & _ & Hcalc).
      unfold execute_block. rewrite Hcalc. eexists. reflexivity.
    + right. apply block_top_throws; try assumption.
      intros data' Hdata'. rewrite Hdata in Hdata'. injection Hdata' as <-. lia.
  - right. apply block_top_throws; try assumption.
    intros data Hdata. rewrite Hthrow in Hdata. discriminate.
Qed.

(** The loop over the volumes under -top, when every volume has at least
    [top] valid values. *)
Lemma volumes_top_select (mask : option MaskViews) (abs percentile : spec_float)
    (bottom top : Z) (volumes : list (list spec_float)) : forall v0 : nat,
  Forall (Forall (fun v => F32.valid v = true)) volumes ->
  isfinite abs = false -> isfinite percentile = false ->
  - 2 ^ 63 <= bottom < 0 -> 1 <= top < 2 ^ 63 ->
  (forall (i : nat) (voxels : list spec_float), volumes !! i = Some voxels ->
     exists data,
       get_data voxels (option_map (fun m => over_volume m (v0 + i)) mask) false = Ok data /\
       top <= Z.of_nat (length data)) ->
  exists outs : list (list output_value),
    execute_volumes estimate_optimal_threshold Bool volumes mask v0 false abs percentile
      bottom top false false = Ok (map inr outs) /\
    Forall2 (fun voxels out =>
               length out = length voxels /\
               top <= Z.of_nat (length (List.filter selected out))) volumes outs.
Proof.
  induction volumes as [|voxels rest IH]; intros v0 Hvalid Habs Hpercentile Hbottom Htop Henough.
  - exists []. split; [reflexivity|constructor].
  - destruct (Henough 0%nat voxels eq_refl) as (data & Hdata & Hlen).
    rewrite Nat.add_0_r in Hdata.
    destruct (block_top_selects voxels _ abs percentile bottom top data
                (Forall_inv Hvalid) Habs Hpercentile Hbottom ltac:(lia) Hdata ltac:(lia))
      as (out & Hblock & Hout).
    destruct (IH (S v0) (Forall_inv_tail Hvalid) Habs Hpercentile Hbottom Htop)
      as (outs & Hrest & Hall).
    { intros i vox Hi. replace (S v0 + i)%nat with (v0 + S i)%nat by lia.
      exact (Henough (S i) vox Hi). }
    exists (out :: outs). split; [|constructor; assumption].
    cbn [execute_volumes]. rewrite Hblock, Hrest. reflexivity.
Qed.

(** The loop over the volumes under -top, when some volume has fewer than
    [top] valid values: the exception leaves the loop. *)
Lemma volumes_top_throw (mask : option MaskViews) (abs percentile : spec_float)
    (bottom top : Z) (volumes : list (list spec_float)) : forall v0 : nat,
  isfinite abs = false -> isfinite percentile = false ->
  - 2 ^ 63 <= bottom < 0 -> 1 <= top < 2 ^ 63 ->
  forall (i : nat) (voxels : list spec_float), volumes !! i = Some voxels ->
    (forall data,
       get_data voxels (option_map (fun m => over_volume m (v0 + i)) mask) false = Ok data ->
       Z.of_nat (length data) < top) ->
    exists msg,
      execute_volumes estimate_optimal_threshold Bool volumes mask v0 false abs percentile
        bottom top false false = Throw msg.
Proof.
  induction volumes as [|first rest IH];
    intros v0 Habs Hpercentile Hbottom Htop i voxels Hi Hfew; [discriminate|].
  cbn [execute_volumes]. destruct i as [|i].
  - injection Hi as ->. rewrite Nat.add_0_r in Hfew.
    destruct (block_top_throws voxels _ abs percentile bottom top
                Habs Hpercentile Hbottom Htop Hfew) as [msg ->].
    exists msg. reflexivity.
  - destruct (block_top_returns_or_throws first
                (option_map (fun m => over_volume m v0) mask) abs percentile bottom top
                Habs Hpercentile Hbottom Htop) as [[out ->]|[msg ->]].
    + destruct (IH (S v0) Habs Hpercentile Hbottom Htop i voxels Hi) as [msg Hmsg].
      { replace (S v0 + i)%nat with (v0 + S i)%nat by lia. exact Hfew. }
      exists msg. rewrite Hmsg. reflexivity.
    + exists msg. reflexivity.
Qed.

(** X25.  -top [n] selects at least [n] voxels of each block that
    [execute] processes, on an image of [float] values with no finite
    -abs or -percentile and no -bottom, -ignorezero or -invert.  An image
    of at most three axes, or any image under -allvolumes, is one block:
    when at least [n] of its values are valid, the output has the size of
    the input and at least [n] of its voxels are [true].  An image of more
    than three axes without -allvolumes is processed volume by volume:
    when every volume has at least [n] valid values, every volume of the
    output has the size of the volume of the input and at least [n] voxels
    that are [true]; and when some volume has fewer, [execute] throws,
    however many valid values the image has as a whole. *)
Theorem top_selects_at_least (ndim : nat) (volumes : list (list spec_float))
    (mask : option MaskViews) (abs percentile : spec_float) (bottom top : Z)
    (all_volumes : bool) :
  Forall (Forall (fun v => F32.valid v = true)) volumes ->
  isfinite abs = false -> isfinite percentile = false ->
  - 2 ^ 63 <= bottom < 0 -> 1 <= top < 2 ^ 63 ->
  let run :=
    execute_image estimate_optimal_threshold Bool ndim volumes mask false abs percentile
      bottom top false all_volumes false in
  let enough (voxels : list spec_float) (view : option (list bool)) :=
    exists data, get_data voxels view false = Ok data /\ top <= Z.of_nat (length data) in
  let chosen (voxels : list spec_float) (out : list output_value) :=
    length out = length voxels /\ top <= Z.of_nat (length (List.filter selected out)) in
  ((ndim <= 3)%nat \/ all_volumes = true ->
   enough (concat volumes) (option_map over_image mask) ->
   exists out, run = Ok [inr out] /\ chosen (concat volumes) out) /\
  ((3 < ndim)%nat /\ all_volumes = false ->
   (forall (v : nat) (voxels : list spec_float), volumes !! v = Some voxels ->
      enough voxels (option_map (fun m => over_volume m v) mask)) ->
   exists outs, run = Ok (map inr outs) /\ Forall2 chosen volumes outs) /\
  ((3 < ndim)%nat /\ all_volumes = false ->
   forall (v : nat) (voxels : list spec_float), volumes !! v = Some voxels ->
     ~ enough voxels (option_map (fun m => over_volume m v) mask) ->
     exists msg, run = Throw msg).
Proof.
  intros Hvalid Habs Hpercentile Hbottom Htop run enough chosen.
  subst run enough chosen. cbv beta. unfold execute_image.
  split; [|split].
  - intros Hsingle (data & Hdata & Hlen).
    assert ((3 <? ndim)%nat && negb all_volumes = false) as ->.
    { destruct Hsingle as [Hn| ->]; [|apply andb_false_r].
      destruct (Nat.ltb_spec 3 ndim) as [Hlt|_]; [lia|reflexivity]. }
    destruct (block_top_selects (concat volumes) _ abs percentile bottom top data
                (proj2 (Forall_concat _ _) Hvalid) Habs Hpercentile Hbottom ltac:(lia) Hdata
                ltac:(lia)) as (out & Hblock & Hout).
    exists out. rewrite Hblock. split; [reflexivity|exact Hout].
  - intros [Hn ->] Henough.
    assert ((3 <? ndim)%nat = true) as -> by (apply Nat.ltb_lt; exact Hn).
    exact (volumes_top_select mask abs percentile bottom top volumes 0
             Hvalid Habs Hpercentile Hbottom Htop Henough).
  - intros [Hn ->] v voxels Hv Hnot.
    assert ((3 <? ndim)%nat = true) as -> by (apply Nat.ltb_lt; exact Hn).
    apply (volumes_top_throw mask abs percentile bottom top volumes 0
             Habs Hpercentile Hbottom Htop v voxels Hv).
    intros data Hdata.
    destruct (Z.lt_ge_cases (Z.of_nat (length data)) top) as [Hlt|Hge]; [exact Hlt|].
    exfalso. apply Hnot. exists data. split; [exact Hdata|lia].
Qed.

End ThresholdValues.

(** ** SpatialLock *)

Section Distances.
Import GT.

Lemma SFabs_binary_normalize (prec emax m e : Z) (szero : bool) :
  SFabs (binary_normalize prec emax (- m) e szero) =
  SFabs (binary_normalize prec emax m e szero).
Proof.
  assert (forall (s : bool) (p : positive),
            SFabs (binary_round prec emax s p e) = SFabs (binary_round prec emax false p e))
    as Hround.
  { intros s p. unfold binary_round.
    destruct (shl_align p e _) as [mz ez]. unfold binary_round_aux.
    destruct (shr_fexp prec emax (Z.pos mz) ez loc_Exact) as [mrs' e'].
    destruct (shr_fexp prec emax _ e' loc_Exact) as [mrs'' e''].
    destruct (shr_m mrs''); [reflexivity| |reflexivity].
    destruct (e'' <=? emax - prec); reflexivity. }
  destruct m as [|p|p]; simpl; [reflexivity| |]; rewrite (Hround true); reflexivity.
Qed.

(** The distance from [x] to [y] is the distance from [y] to [x]. *)
Lemma SFabs_sub_swap (x y : spec_float) :
  SFabs (F32.sub x y) = SFabs (F32.sub y x).
Proof.
  unfold F32.sub, SFsub.
  destruct x as [sx|sx| |sx mx ex], y as [sy|sy| |sy my ey];
    try reflexivity; try (destruct sx, sy; reflexivity).
  rewrite (Z.min_comm ey ex).
  rewrite <- SFabs_binary_normalize. f_equal. f_equal. lia.
Qed.

Lemma within_swap (s : SpatialLock) (a b : Point) :
  within s (Point_sub a b) = within s (Point_sub b a).
Proof.
  destruct a as [[ax ay] az], b as [[bx by_] bz]. unfold within, Point_sub.
  rewrite (SFabs_sub_swap ax bx), (SFabs_sub_swap ay by_), (SFabs_sub_swap az bz).
  reflexivity.
Qed.

Lemma SFltb_abs_threshold (d t : spec_float) :
  F32.ltb F32.zero t = false -> F32.ltb (SFabs d) t = false.
Proof.
  unfold F32.ltb, F32.zero, SFltb.
  destruct d as [sd|sd| |sd md ed], t as [st|st| |st mt et]; simpl;
    try reflexivity; try (destruct st; (reflexivity || discriminate)).
Qed.

End Distances.

Section SpatialLocks.
Import GT LockSpec.
Variable less : Point -> Point -> bool.

(** X26.  As long as the thresholds are not changed, the centres that a
    lock holds at the same time are apart: of two different ones, neither
    is within the thresholds of the other on all three axes. *)
Theorem locked_centres_are_apart (tx ty tz : spec_float) (s : SpatialLock) (a b : Point) :
  locking less tx ty tz s ->
  a ∈ lockcentres s -> b ∈ lockcentres s -> a <> b ->
  within s (Point_sub a b) = false.
Proof.
  intros Hs. revert a b.
  induction Hs as [|s pos _ IH|s pos _ IH]; intros a b Ha Hb Hne.
  - inversion Ha.
  - unfold lockIfNotLocked in *.
    destruct (existsb (fun c => within s (Point_sub c pos)) (lockcentres s)) eqn:Hnear;
      [exact (IH a b Ha Hb Hne)|].
    simpl in Ha, Hb. change (within _ (Point_sub a b)) with (within s (Point_sub a b)).
    assert (forall c, c ∈ lockcentres s -> within s (Point_sub c pos) = false) as Hfar.
    { intros c Hc. destruct (within s (Point_sub c pos)) eqn:Hw; [|reflexivity].
      assert (existsb (fun c => within s (Point_sub c pos)) (lockcentres s) = true) as Hex
        by (apply existsb_exists; exists c; split; [apply list_elem_of_In; exact Hc|exact Hw]).
      congruence. }
    unfold set_insert in Ha, Hb.
    destruct (existsb (equivalent less pos) (lockcentres s)); [exact (IH a b Ha Hb Hne)|].
    apply elem_of_app in Ha, Hb.
    destruct Ha as [Ha|Ha], Hb as [Hb|Hb].
    + exact (IH a b Ha Hb Hne).
    + apply list_elem_of_singleton in Hb. subst b. exact (Hfar a Ha).
    + apply list_elem_of_singleton in Ha. subst a. rewrite within_swap. exact (Hfar b Hb).
    + apply list_elem_of_singleton in Ha, Hb. congruence.
  - simpl in Ha, Hb. unfold set_erase in Ha, Hb.
    apply list_elem_of_In, filter_In in Ha, Hb.
    destruct Ha as [Ha _], Hb as [Hb _]. apply list_elem_of_In in Ha, Hb.
    exact (IH a b Ha Hb Hne).
Qed.

(** X27.  A lock one of whose thresholds is not above zero, as all three
    are after the default constructor, refuses nothing: [lockIfNotLocked]
    returns [true] for every position, and every centre that was held
    still is. *)
Theorem lock_without_threshold_is_granted (s : SpatialLock) (pos : Point) :
  F32.ltb F32.zero (_tx s) = false \/ F32.ltb F32.zero (_ty s) = false \/
  F32.ltb F32.zero (_tz s) = false ->
  snd (lockIfNotLocked less s pos) = true /\
  (forall c, c ∈ lockcentres s -> c ∈ lockcentres (fst (lockIfNotLocked less s pos))).
Proof.
  intros Hzero. unfold lockIfNotLocked.
  assert (existsb (fun c => within s (Point_sub c pos)) (lockcentres s) = false) as ->.
  { apply not_true_is_false. intros Hex. apply existsb_exists in Hex.
    destruct Hex as (c & _ & Hw). unfold within in Hw.
    destruct (Point_sub c pos) as [[d0 d1] d2].
    apply andb_true_iff in Hw. destruct Hw as [Hw H2].
    apply andb_true_iff in Hw. destruct Hw as [H0 H1].
    destruct Hzero as [Hz|[Hz|Hz]].
    - rewrite (SFltb_abs_threshold d0 _ Hz) in H0. discriminate.
    - rewrite (SFltb_abs_threshold d1 _ Hz) in H1. discriminate.
    - rewrite (SFltb_abs_threshold d2 _ Hz) in H2. discriminate. }
  split; [reflexivity|]. intros c Hc. simpl. unfold set_insert.
  destruct (existsb _ _); [exact Hc|]. apply elem_of_app. left. exact Hc.
Qed.

End SpatialLocks.

(** ** The theorems at concrete inputs *)

Section MoreInstances.
Import Correspondence Spec Examples.

Lemma Projector_new_implicit_weights_witness :
  exists p,
    Projector_new two_sources pair_to_one MEAN (fill_with_zero false true) None
      [along_z; along_z] = Ok p /\
    (length (implicit_weights p) = length (fixels two_sources) /\
     forall s : nat, (s < length (fixels two_sources))%nat ->
       let listed := hits (concat (M pair_to_one)) s in
       implicit_weights p !! s =
         Some (if listed mod 256 =? 0 then F32.zero
               else F32.div F32.one (F32.of_Z (listed mod 256)))).
Proof.
  eexists. split; [vm_compute; reflexivity|].
  apply (Projector_new_implicit_weights two_sources pair_to_one MEAN
           (fill_with_zero false true) None [along_z; along_z]).
  vm_compute. reflexivity.
Defined.

Lemma Projector_call_succeeds_in_range_witness :
  exists p,
    Projector_new two_sources pair_to_one MEAN (fill_with_zero false true) None
      [along_z; along_z] = Ok p /\
    (((1 < size (correspondence p))%nat ->
      exists p', Projector_call no_kernel p 1 = Ok p') /\
     ((size (correspondence p) <= 1)%nat -> Projector_call no_kernel p 1 = AssertFail)).
Proof.
  eexists. split; [vm_compute; reflexivity|].
  apply (Projector_call_succeeds_in_range no_kernel _ 1).
  apply (reachable_new no_kernel two_sources pair_to_one MEAN
           (fill_with_zero false true) None [along_z; along_z]).
  vm_compute. reflexivity.
Defined.

Lemma Projector_call_frame_witness :
  exists p p',
    Projector_new two_sources pair_to_one MEAN (fill_with_zero false true) None
      [along_z; along_z] = Ok p /\
    Projector_call no_kernel p 0 = Ok p' /\
    (correspondence p' = correspondence p /\ metric p' = metric p /\
     fill p' = fill p /\ input_data p' = input_data p /\
     implicit_weights p' = implicit_weights p /\
     explicit_weights p' = explicit_weights p /\
     input_directions p' = input_directions p /\
     target_directions p' = target_directions p /\
     length (output_data p') = length (output_data p) /\
     forall j : nat, j <> 0%nat -> output_data p' !! j = output_data p !! j).
Proof.
  eexists. eexists. split; [vm_compute; reflexivity|].
  split; [vm_compute; reflexivity|].
  apply (Projector_call_frame no_kernel _ _ 0).
  vm_compute. reflexivity.
Defined.

Lemma Projector_calls_commute_witness :
  exists p,
    Projector_new two_sources pair_to_one MEAN (fill_with_zero false true) None
      [along_z; along_z] = Ok p /\
    (p1 ← Projector_call no_kernel p 0; Projector_call no_kernel p1 1) =
    (p2 ← Projector_call no_kernel p 1; Projector_call no_kernel p2 0).
Proof.
  eexists. split; [vm_compute; reflexivity|].
  apply (Projector_calls_commute no_kernel _ 0 1).
  apply (reachable_new no_kernel two_sources pair_to_one MEAN
           (fill_with_zero false true) None [along_z; along_z]).
  vm_compute. reflexivity.
Defined.

Lemma projection_independent_of_schedule_witness :
  exists p,
    Projector_new two_sources pair_to_one MEAN (fill_with_zero false true) None
      [along_z; along_z] = Ok p /\
    exists p', foldM (Projector_call no_kernel) p [1; 0; 1]%nat = Ok p' /\
      forall i : nat,
        (i ∈ [1; 0; 1]%nat ->
         exists p_i, Projector_call no_kernel p i = Ok p_i /\
                     output_data p' !! i = output_data p_i !! i) /\
        (i ∉ [1; 0; 1]%nat -> output_data p' !! i = output_data p !! i).
Proof.
  eexists. split; [vm_compute; reflexivity|].
  apply (projection_independent_of_schedule no_kernel _ [1; 0; 1]%nat).
  - apply (reachable_new no_kernel two_sources pair_to_one MEAN
             (fill_with_zero false true) None [along_z; along_z]).
    vm_compute. reflexivity.
  - vm_compute. repeat constructor.
Defined.

Lemma ambiguity_sentinels_witness :
  exists p,
    Projector_new two_sources pair_to_one MEAN (fill_with_zero true false) None
      [along_z; along_z] = Ok p /\
    exists p', Projector_call no_kernel p 0 = Ok p' /\
               output_data p' !! 0%nat = Some F32.NaN.
Proof.
  eexists. split; [vm_compute; reflexivity|].
  apply (ambiguity_sentinels no_kernel _ 0 [0; 1]).
  - apply (reachable_new no_kernel two_sources pair_to_one MEAN
             (fill_with_zero true false) None [along_z; along_z]).
    vm_compute. reflexivity.
  - unfold uint32_entries. simpl. repeat constructor; lia.
  - reflexivity.
  - left. split; [reflexivity|simpl; lia].
Defined.

Lemma DP2Cost_table_layout_witness :
  let c := DP2Cost_new tan_near_zero acos_near_one 3 in
  Z.of_nat (length (data c)) = 3 + 2 /\
  (forall bin : Z, 0 <= bin <= 3 ->
     data c !! Z.to_nat bin =
       Some (F32.of_double
               (tan_near_zero (acos_near_one (F64.div (F64.of_Z bin) (F64.of_Z 3)))))) /\
  data c !! Z.to_nat (3 + 1) = Some F32.zero /\
  (forall j : Z, 3 + 2 <= j -> data c !! Z.to_nat j = None) /\
  multiplier c = F32.of_Z 3.
Proof.
  apply (DP2Cost_table_layout tan_near_zero acos_near_one 3). lia.
Defined.

Lemma Projector_new_returns_checked_witness :
  exists p,
    Projector_new two_sources pair_to_one MEAN (fill_with_zero false true) None
      [along_z; along_z] = Ok p /\
    ((is_dir two_sources = false /\ is_data_file two_sources = true /\
      (forall w, @None (list spec_float) = Some w ->
                 length w = length (fixels two_sources)) /\
      length [along_z; along_z] = size pair_to_one) /\
     Forall (Forall (fun e => (Z.to_nat e < length (fixels two_sources))%nat))
            (M pair_to_one) /\
     (correspondence p = pair_to_one /\ metric p = MEAN /\
      fill p = fill_with_zero false true /\
      explicit_weights p = None /\ target_directions p = [along_z; along_z] /\
      input_data p = map fst (fixels two_sources) /\
      input_directions p = map snd (fixels two_sources) /\
      length (output_data p) = size pair_to_one)).
Proof.
  eexists. split; [vm_compute; reflexivity|].
  apply (Projector_new_returns_checked two_sources pair_to_one MEAN
           (fill_with_zero false true) None [along_z; along_z]).
  vm_compute. reflexivity.
Defined.

Lemma DP2Cost_stays_in_the_table_witness :
  exists lower cost,
    DP2Cost_lower (DP2Cost_new tan_near_zero acos_near_one 1000) one_half = Some lower /\
    0 <= lower <= 1000 /\
    DP2Cost_call (DP2Cost_new tan_near_zero acos_near_one 1000) one_half = Ok cost.
Proof.
  apply (DP2Cost_stays_in_the_table tan_near_zero acos_near_one 1000 one_half).
  - lia.
  - reflexivity.
  - reflexivity.
Defined.

Lemma DP2Cost_of_parallel_directions_witness :
  DP2Cost_lower (DP2Cost_new tan_near_zero acos_near_one 1000) F32.one = Some 1000 /\
  DP2Cost_call (DP2Cost_new tan_near_zero acos_near_one 1000) F32.one = Ok F32.zero.
Proof.
  apply (DP2Cost_of_parallel_directions tan_near_zero acos_near_one 1000).
  - lia.
  - reflexivity.
  - reflexivity.
Defined.

Lemma binomial_at_the_edges_witness :
  Math.binomial 10 9 = Some (Z.of_nat (Math.choose (Z.to_nat 10) (Z.to_nat 9))).
Proof.
  apply (binomial_at_the_edges 10 9); lia.
Defined.

Lemma Mapping_assign_then_read_witness :
  exists m',
    assign (Mapping_new 3 2) 1 [0; 2] = Ok m' /\
    (get m' 1 = Ok [0; 2] /\
     (v ← at_const m' 1; ConstValue_size m' v) = Ok (length [0; 2]) /\
     (forall i : nat,
        (v ← at_const m' 1; ConstValue_at m' v i) =
          match [0; 2] !! i with Some x => Ok x | None => AssertFail end) /\
     (forall j : nat, j <> 1%nat -> get m' j = get (Mapping_new 3 2) j)).
Proof.
  eexists. split; [vm_compute; reflexivity|].
  apply (Mapping_assign_then_read (Mapping_new 3 2) _ 1 [0; 2]).
  vm_compute. reflexivity.
Defined.

End MoreInstances.

Section SourceInstances.
Import fixel2fixel QueueSpec.

Lemma Source_yields_each_index_once_witness :
  Source_calls (Z.to_nat 3 + 1) (Source_new 3) =
    map (fun i => (i, true)) (seqZ 0 3) ++ [(3, false)].
Proof.
  apply (Source_yields_each_index_once 3). lia.
Defined.

End SourceInstances.

Section StringInstances.
Import MR Examples.

Lemma shorten_fits_witness :
  (string_size fifty_characters <= 40 -> shorten fifty_characters 40 10 = Ok fifty_characters) /\
  (40 < string_size fifty_characters -> 10 + 3 <= 40 ->
   exists r, shorten fifty_characters 40 10 = Ok r /\
     string_size r = 40 /\
     r = take (Z.to_nat 10) fifty_characters ++ literal "..." ++
         drop (Z.to_nat (string_size fifty_characters - (40 - 10 - 3))) fifty_characters) /\
  (40 < string_size fifty_characters -> 40 < 10 + 3 -> 10 + 3 < 2 ^ 63 ->
   shorten fifty_characters 40 10 = Throw "basic_string::substr").
Proof.
  apply (shorten_fits fifty_characters 40 10).
  - lia.
  - lia.
  - vm_compute. reflexivity.
Defined.

Lemma strip_removes_only_the_ends_witness :
  exists pre result post : std_string,
    strip (literal "  ab ") whitespace true true = Ok result /\
    literal "  ab " = pre ++ result ++ post /\
    Forall (fun c => member c whitespace = true) pre /\
    Forall (fun c => member c whitespace = true) post /\
    (forall c, head result = Some c -> member c whitespace = false) /\
    (forall c, last result = Some c -> member c whitespace = false).
Proof.
  apply (strip_removes_only_the_ends (literal "  ab ") whitespace true true).
  vm_compute. reflexivity.
Defined.

Lemma strip_idempotent_witness :
  strip (literal "ab") whitespace true true = Ok (literal "ab").
Proof.
  apply (strip_idempotent (literal "  ab ") whitespace (literal "ab") true true).
  - vm_compute. reflexivity.
  - vm_compute. reflexivity.
Defined.

End StringInstances.

Section ThresholdInstances.
Import mrthreshold ThresholdSpec Examples.

Lemma calculate_count_in_range_witness :
  let count := if 0 <=? -1 then -1 else 2 in
  let index := if 0 <=? -1 then -1 - 1 else Z.of_nat (length three_voxels) - 2 in
  (1 <= count <= Z.of_nat (length three_voxels) ->
   Forall (fun v => isfinite v = true) three_voxels ->
   exists (threshold_float : spec_float) (sorted : list spec_float),
     sorted ≡ₚ three_voxels /\
     StronglySorted (fun a b => SFltb b a = false) sorted /\
     sorted !! Z.to_nat index = Some threshold_float /\
     calculate no_estimate three_voxels None NaN NaN (-1) 2 false
       = Ok (F64.of_float threshold_float)) /\
  (count < 1 \/ Z.of_nat (length three_voxels) < count ->
   exists msg, calculate no_estimate three_voxels None NaN NaN (-1) 2 false = Throw msg).
Proof.
  apply (calculate_count_in_range no_estimate three_voxels None NaN NaN (-1) 2 false
           three_voxels).
  - reflexivity.
  - reflexivity.
  - lia.
  - lia.
  - lia.
  - vm_compute. reflexivity.
Defined.

Lemma percentile_extremes_witness :
  (exists largest,
     calculate no_estimate three_voxels None NaN (F64.of_Z 100) (-1) (-1) false
       = Ok (F64.of_float largest) /\
     largest ∈ three_voxels /\ Forall (fun v => SFltb largest v = false) three_voxels) /\
  (exists smallest,
     calculate no_estimate three_voxels None NaN F64.zero (-1) (-1) false
       = Ok (F64.of_float smallest) /\
     smallest ∈ three_voxels /\ Forall (fun v => SFltb v smallest = false) three_voxels).
Proof.
  apply (percentile_extremes no_estimate three_voxels None NaN (-1) (-1) three_voxels).
  - reflexivity.
  - vm_compute. reflexivity.
Defined.

Lemma percentile_of_one_value_witness :
  calculate no_estimate [two] None NaN (F64.of_Z 50) (-1) (-1) false = OutOfBounds.
Proof.
  apply (percentile_of_one_value no_estimate [two] None NaN (F64.of_Z 50) (-1) (-1) false two).
  - reflexivity.
  - reflexivity.
  - reflexivity.
  - reflexivity.
  - vm_compute. reflexivity.
Defined.

Lemma top_selects_at_least_witness :
  let run :=
    execute_image no_estimate Bool 4 two_volumes None false NaN NaN (-1) 1
      false false false in
  let enough (voxels : list spec_float) (view : option (list bool)) :=
    exists data, get_data voxels view false = Ok data /\ 1 <= Z.of_nat (length data) in
  let chosen (voxels : list spec_float) (out : list output_value) :=
    length out = length voxels /\ 1 <= Z.of_nat (length (List.filter selected out)) in
  ((4 <= 3)%nat \/ false = true ->
   enough (concat two_volumes) (option_map over_image None) ->
   exists out, run = Ok [inr out] /\ chosen (concat two_volumes) out) /\
  ((3 < 4)%nat /\ false = false ->
   (forall (v : nat) (voxels : list spec_float), two_volumes !! v = Some voxels ->
      enough voxels (option_map (fun m => over_volume m v) None)) ->
   exists outs, run = Ok (map inr outs) /\ Forall2 chosen two_volumes outs) /\
  ((3 < 4)%nat /\ false = false ->
   forall (v : nat) (voxels : list spec_float), two_volumes !! v = Some voxels ->
     ~ enough voxels (option_map (fun m => over_volume m v) None) ->
     exists msg, run = Throw msg).
Proof.
  apply (top_selects_at_least no_estimate 4 two_volumes None NaN NaN (-1) 1 false).
  - repeat constructor.
  - reflexivity.
  - reflexivity.
  - lia.
  - lia.
Defined.

End ThresholdInstances.

Section LockInstances.
Import GT LockSpec Examples.

Lemma locked_centres_are_apart_witness :
  let s := fst (lockIfNotLocked by_first_coordinate
                  (fst (lockIfNotLocked by_first_coordinate
                          (SpatialLock_new3 F32.one F32.one F32.one) origin))
                  five_along_x) in
  within s (Point_sub origin five_along_x) = false.
Proof.
  apply (locked_centres_are_apart by_first_coordinate F32.one F32.one F32.one _
           origin five_along_x).
  - apply locking_lock. apply locking_lock. apply locking_new.
  - vm_compute. left.
  - vm_compute. right. left.
  - discriminate.
Defined.

Lemma lock_without_threshold_is_granted_witness :
  snd (lockIfNotLocked by_first_coordinate SpatialLock_new origin) = true /\
  (forall c, c ∈ lockcentres SpatialLock_new ->
             c ∈ lockcentres (fst (lockIfNotLocked by_first_coordinate SpatialLock_new origin))).
Proof.
  apply (lock_without_threshold_is_granted by_first_coordinate SpatialLock_new origin).
  left. reflexivity.
Defined.

End LockInstances.
